(** * LED Studio: pixel codec, resampling geometry, playback controller,
      frame ingestion and identifier generation

    A shallow embedding of the JavaScript sources
    ([js/imageProcessor.js], [js/animationExporter.js],
    [js/sequenceHandler.js] and the frame manager) together with the
    properties the design document states about them.

    Conventions.  JavaScript numbers that only ever hold integers are
    modelled as [Z]; the places where [NaN] can arise (frame indices, the
    result of [parseInt]) use the type [JS.num].  The one computation on
    fractions, the brightness scaling, is carried out in double precision:
    every division and multiplication is rounded to the nearest double.
    The 32-bit bitwise operators are modelled with their [ToInt32]
    wrap-around written out.  Objects are records,
    mutation is explicit state passing, a thrown exception is a value of
    an error type carried next to the state reached when it was thrown. *)

From Stdlib Require Import ZArith List Bool Lia QArith Qround String Ascii HexString.
From Stdlib Require Import Qpower Qreduction Lqa Permutation Sorted.
From Stdlib Require Qcanon.
Import ListNotations.
Local Open Scope Z_scope.

(* ===================================================================== *)
(** ** JavaScript primitives used by the sources *)
(* ===================================================================== *)

Module JS.

(** [ToInt32]: reduction modulo 2^32 into the signed range. *)
Definition toInt32 (z : Z) : Z := (z + 2 ^ 31) mod 2 ^ 32 - 2 ^ 31.

(** [a << n]: both operands go through [ToInt32] / [ToUint32 & 31]. *)
Definition shl (a n : Z) : Z := toInt32 (toInt32 a * 2 ^ (n mod 32)).

(** [a | b] and [a & b]. *)
Definition bor (a b : Z) : Z := Z.lor (toInt32 a) (toInt32 b).
Definition band (a b : Z) : Z := Z.land (toInt32 a) (toInt32 b).

(** [Math.round]: nearest integer, ties towards +infinity. *)
Definition Math_round (q : Q) : Z := Qfloor (q + (1 # 2)).

(** *** Double-precision arithmetic

    A Number is a double: a sign, a 53-bit significand and a power of
    two.  The value of a double is a rational, and [/] and [*] return
    the double nearest to the exact quotient or product, a tie going to
    the even significand.  The exponent is not bounded here: results
    beyond [2^1024] (Infinity) or below [2^-1022] (subnormals) lie
    outside the model; products and quotients of the integers a pixel
    or a percentage can hold do not reach either end. *)

(** [2^k] for any integer [k]. *)
Definition pow2 (k : Z) : Q := Qpower 2 k.

(** The binade of a positive rational [q]: the [e] with
    [2^e <= q < 2^(e+1)]. *)
Definition exponent (q : Q) : Z :=
  let d := Z.log2 (Qnum q) - Z.log2 (Zpos (Qden q)) in
  if Qle_bool (pow2 d) q then d else d - 1.

(** The nearest integer, a tie going to the even one. *)
Definition roundHalfEven (q : Q) : Z :=
  let f := Qfloor q in
  match Qcompare (q - inject_Z f) (1 # 2) with
  | Lt => f
  | Gt => f + 1
  | Eq => if Z.even f then f else f + 1
  end.

(** The double nearest to a positive rational: the significand
    [q / 2^(e-52)], between [2^52] and [2^53], is rounded to an
    integer. *)
Definition roundPos (q : Q) : Q :=
  let ulp := pow2 (exponent q - 52) in
  Qred (inject_Z (roundHalfEven (q / ulp)) * ulp).

(** The double nearest to any rational. *)
Definition roundDouble (x : Q) : Q :=
  let q := Qred x in
  match Qnum q with
  | Z0 => 0%Q
  | Zpos _ => roundPos q
  | Zneg _ => Qopp (roundPos (Qopp q))
  end.

(** [x / y] and [x * y] on doubles. *)
Definition fdiv (x y : Q) : Q := roundDouble (x / y).
Definition fmul (x y : Q) : Q := roundDouble (x * y).

(** Numbers that may be [NaN].  Only integer values and [NaN] occur in
    the frame manager: indices, lengths and their sums and remainders. *)
Inductive num : Type :=
| Num (z : Z)
| NaN.

Definition add (x y : num) : num :=
  match x, y with
  | Num a, Num b => Num (a + b)
  | _, _ => NaN
  end.

(** [x % y]: the remainder has the sign of the dividend; a zero divisor
    gives [NaN]. *)
Definition rem (x y : num) : num :=
  match x, y with
  | Num a, Num b => if b =? 0 then NaN else Num (Z.rem a b)
  | _, _ => NaN
  end.

(** Comparisons: every comparison with [NaN] is false. *)
Definition lt (x y : num) : bool :=
  match x, y with
  | Num a, Num b => a <? b
  | _, _ => false
  end.

Definition le (x y : num) : bool :=
  match x, y with
  | Num a, Num b => a <=? b
  | _, _ => false
  end.

Definition ge (x y : num) : bool := le y x.

(** Truncation of the fractional part, as the first step of [ToInt32]. *)
Definition truncate (q : Q) : Z :=
  if Qle_bool 0 q then Qfloor q else Qceiling q.

(** [Number.prototype.toString(16)] on an integer: lowercase digits, a
    leading minus sign for negative values. *)
Definition toString16 (z : Z) : string :=
  match z with
  | Z0 => "0"%string
  | Zpos p => HexString.Raw.of_pos p ""%string
  | Zneg p => String "-"%char (HexString.Raw.of_pos p ""%string)
  end.

(** [x === y] on numbers: [NaN] equals nothing. *)
Definition eqb (x y : num) : bool :=
  match x, y with
  | Num a, Num b => a =? b
  | _, _ => false
  end.

(** [String.prototype.toUpperCase] on a string of Basic Latin
    characters (the only ones [toString(16)] produces). *)
Definition upperChar (c : ascii) : ascii :=
  let n := nat_of_ascii c in
  if ((97 <=? n) && (n <=? 122))%nat then ascii_of_nat (n - 32) else c.

Fixpoint toUpperCaseAscii (s : string) : string :=
  match s with
  | EmptyString => EmptyString
  | String c rest => String (upperChar c) (toUpperCaseAscii rest)
  end.

(** [n] copies of [s], one after the other. *)
Fixpoint repeatString (s : string) (n : nat) : string :=
  match n with
  | O => EmptyString
  | S k => (s ++ repeatString s k)%string
  end.

(** [s.padStart(targetLength, padString)]: the pad string is repeated
    and cut to the missing length; a string that is long enough, or an
    empty pad string, leaves [s] as it is. *)
Definition padStart (targetLength : nat) (padString s : string) : string :=
  let fill := (targetLength - String.length s)%nat in
  (String.substring 0 fill (repeatString padString fill) ++ s)%string.

End JS.

(* ===================================================================== *)
(** ** ImageProcessor *)
(* ===================================================================== *)

Module ImageProcessor.

(** One entry of the [pixels] array built by [convertToPixelArray]. *)
Record Pixel : Type := mkPixel {
  r : Z;
  g : Z;
  b : Z;
  a : Z;
  dword : Z
}.

(** Canvas [ImageData]: [data] is the flat RGBA byte array. *)
Record ImageData : Type := mkImageData {
  id_width : Z;
  id_height : Z;
  data : list Z
}.

(** The object returned by [convertToPixelArray]. *)
Record PixelData : Type := mkPixelData {
  width : Z;
  height : Z;
  pixels : list Pixel
}.

(** [rgbToDword(r, g, b) = (b << 16) | (g << 8) | r]. *)
Definition rgbToDword (r g b : Z) : Z :=
  JS.bor (JS.bor (JS.shl b 16) (JS.shl g 8)) r.

(** The object literal of the loop body of [convertToPixelArray]. *)
Definition toPixel (r g b a : Z) : Pixel :=
  mkPixel r g b a (rgbToDword r g b).

(** The [for (i = 0; i < data.length; i += 4)] loop.  Canvas image data
    always holds four bytes per pixel, so the list is consumed in groups
    of four. *)
Fixpoint convertPixels (data : list Z) : list Pixel :=
  match data with
  | r :: g :: b :: a :: rest => toPixel r g b a :: convertPixels rest
  | _ => []
  end.

Definition convertToPixelArray (imageData : ImageData) : PixelData :=
  mkPixelData (id_width imageData) (id_height imageData)
              (convertPixels (data imageData)).

(** [Math.round(channel * scale)] with [const scale = brightness / 100]:
    the quotient is rounded to a double, and so is its product with the
    channel, before [Math.round] is applied.  ([113 / 100] is not a
    double; the nearest one lies just below it, and the product with 50
    comes out as 56.49999999999999, which rounds to 56.) *)
Definition scaleChannel (c brightness : Z) : Z :=
  JS.Math_round (JS.fmul (inject_Z c) (JS.fdiv (inject_Z brightness) 100)).

(** The object literal of the callback of [applyBrightness]: the spread
    keeps [a], the three channels and [dword] are overwritten. *)
Definition scaledPixel (pixel : Pixel) (brightness : Z) : Pixel :=
  mkPixel (scaleChannel (r pixel) brightness)
          (scaleChannel (g pixel) brightness)
          (scaleChannel (b pixel) brightness)
          (a pixel)
          (rgbToDword (scaleChannel (r pixel) brightness)
                      (scaleChannel (g pixel) brightness)
                      (scaleChannel (b pixel) brightness)).

(** [applyBrightness(pixelData, brightness)]: the mapped pixel array. *)
Definition applyBrightness (pixelData : PixelData) (brightness : Z)
  : list Pixel :=
  map (fun pixel => scaledPixel pixel brightness) (pixels pixelData).

(** *** Resize geometry *)

(** A decoded source image. *)
Record Image : Type := mkImage {
  img_width : Z;
  img_height : Z;
  img_data : list Z
}.

(** [processImage(image)]: draw on a canvas of the image's size and read
    the pixels back. *)
Definition processImage (image : Image) : PixelData :=
  convertToPixelArray
    (mkImageData (img_width image) (img_height image) (img_data image)).

(** The source rectangle handed to [ctx.drawImage]. *)
Record SourceRect : Type := mkSourceRect {
  sx : Z;
  sy : Z;
  sWidth : Z;
  sHeight : Z
}.

(** [processImageWithResize(image, targetWidth, targetHeight, mode)]:
    the [switch (mode)] that fixes the source rectangle.  The function
    declares exactly these four parameters.  [Math.floor(n / 2)] on an
    integer [n] is [n / 2] in [Z].  The modes [stretch], [fit] and any
    other string leave the defaults, the whole source. *)
Definition processImageWithResize_sourceRect
  (image : Image) (targetWidth targetHeight : Z) (mode : string)
  : SourceRect :=
  if String.eqb mode "crop-top" then
    mkSourceRect 0 0
      (Z.min targetWidth (img_width image))
      (Z.min targetHeight (img_height image))
  else if String.eqb mode "crop-bottom" then
    let sWidth := Z.min targetWidth (img_width image) in
    let sHeight := Z.min targetHeight (img_height image) in
    mkSourceRect 0 (Z.max 0 (img_height image - sHeight)) sWidth sHeight
  else if String.eqb mode "crop-center" then
    let sWidth := Z.min targetWidth (img_width image) in
    let sHeight := Z.min targetHeight (img_height image) in
    mkSourceRect ((img_width image - sWidth) / 2)
                 ((img_height image - sHeight) / 2)
                 sWidth sHeight
  else
    mkSourceRect 0 0 (img_width image) (img_height image).

(** *** Name sanitising *)

(** Strings here are sequences of UTF-16 code units. *)
Definition ustring : Type := list N.

(** The character class [[A-Z0-9_]]. *)
Definition isNameChar (c : N) : bool :=
  ((65 <=? c) && (c <=? 90) || (48 <=? c) && (c <=? 57) || (c =? 95))%N.

(** [s.replace(/[^A-Z0-9_]/g, '_')]. *)
Definition replaceNonNameChars (s : ustring) : ustring :=
  map (fun c => if isNameChar c then c else 95%N) s.

Section SanitizeName.

(** [String.prototype.toUpperCase] is the engine's Unicode mapping (it
    may even change the length of a string); it is a parameter here. *)
Variable toUpperCase : ustring -> ustring.

(** [sanitizeName(name)]. *)
Definition sanitizeName (name : ustring) : ustring :=
  replaceNonNameChars (toUpperCase name).

End SanitizeName.

(** The restriction of [toUpperCase] to the Basic Latin letters; every
    other code unit is kept. *)
Definition asciiToUpperCase (s : ustring) : ustring :=
  map (fun c => if ((97 <=? c) && (c <=? 122))%N then (c - 32)%N else c) s.

End ImageProcessor.

(* ===================================================================== *)
(** ** FrameManager *)
(* ===================================================================== *)

Module FrameManager.

(** Calls to [emit(event, data)], in order. *)
Inductive Event : Type :=
| playStateChange (isPlaying : bool)
| frameChange (index : JS.num).

(** An interval registered with [setInterval]: its handle and the frame
    rate [fps] it was created with (the period is [1000 / fps] ms). *)
Record Timer : Type := mkTimer {
  handle : Z;
  timer_fps : Z
}.

(** What the manager acts on outside its own fields: the host's table of
    live intervals, the next handle the host will hand out (handles are
    positive integers) and the notifications emitted so far. *)
Record Env : Type := mkEnv {
  timers : list Timer;
  nextHandle : Z;
  emitted : list Event
}.

Section Manager.

(** The frame objects; the manager only ever reads [frames.length]. *)
Context {Frame : Type}.

(** The fields set by the constructor ([eventListeners] is represented by
    the [emitted] log of the environment). *)
Record Fields : Type := mkFields {
  frames : list Frame;
  currentFrame : JS.num;
  fps : Z;
  loopMode : string;
  playing : bool;
  direction : Z;
  animationTimer : option Z
}.

Definition State : Type := (Fields * Env)%type.

Definition fields (s : State) : Fields := fst s.
Definition env (s : State) : Env := snd s.

(** [new FrameManager()] in a host that has no interval running. *)
Definition init : State :=
  (mkFields [] (JS.Num 0) 30 "loop" false 1 None, mkEnv [] 1 []).

(** [this.frames.length]. *)
Definition frameCount (s : State) : Z := Z.of_nat (List.length (frames (fields s))).

(** Field assignments. *)
Definition set_frames (l : list Frame) (s : State) : State :=
  let f := fields s in
  (mkFields l (currentFrame f) (fps f) (loopMode f) (playing f)
            (direction f) (animationTimer f), env s).

Definition set_currentFrame (i : JS.num) (s : State) : State :=
  let f := fields s in
  (mkFields (frames f) i (fps f) (loopMode f) (playing f)
            (direction f) (animationTimer f), env s).

Definition set_fps (n : Z) (s : State) : State :=
  let f := fields s in
  (mkFields (frames f) (currentFrame f) n (loopMode f) (playing f)
            (direction f) (animationTimer f), env s).

Definition set_loopMode (m : string) (s : State) : State :=
  let f := fields s in
  (mkFields (frames f) (currentFrame f) (fps f) m (playing f)
            (direction f) (animationTimer f), env s).

Definition set_playing (p : bool) (s : State) : State :=
  let f := fields s in
  (mkFields (frames f) (currentFrame f) (fps f) (loopMode f) p
            (direction f) (animationTimer f), env s).

Definition set_direction (d : Z) (s : State) : State :=
  let f := fields s in
  (mkFields (frames f) (currentFrame f) (fps f) (loopMode f) (playing f)
            d (animationTimer f), env s).

Definition set_animationTimer (t : option Z) (s : State) : State :=
  let f := fields s in
  (mkFields (frames f) (currentFrame f) (fps f) (loopMode f) (playing f)
            (direction f) t, env s).

(** [this.emit(event, data)]. *)
Definition emit (e : Event) (s : State) : State :=
  (fields s,
   mkEnv (timers (env s)) (nextHandle (env s)) (emitted (env s) ++ [e])).

(** [setInterval(callback, 1000 / this.fps)]: registers an interval and
    returns its handle. *)
Definition setInterval (s : State) : Z * State :=
  let h := nextHandle (env s) in
  (h, (fields s,
       mkEnv (timers (env s) ++ [mkTimer h (fps (fields s))]) (h + 1)
             (emitted (env s)))).

(** [clearInterval(handle)]. *)
Definition clearInterval (h : Z) (s : State) : State :=
  (fields s,
   mkEnv (filter (fun t => negb (handle t =? h)) (timers (env s)))
         (nextHandle (env s)) (emitted (env s))).

(** [stop()]. *)
Definition stop (s : State) : State :=
  if negb (playing (fields s)) then s
  else
    let s1 := emit (playStateChange false) (set_playing false s) in
    match animationTimer (fields s1) with
    | Some h =>
        if h =? 0 then s1
        else set_animationTimer None (clearInterval h s1)
    | None => s1
    end.

(** [play()]. *)
Definition play (s : State) : State :=
  if frameCount s =? 0 then s
  else if playing (fields s) then s
  else
    let s1 := emit (playStateChange true) (set_playing true s) in
    let (h, s2) := setInterval s1 in
    set_animationTimer (Some h) s2.

(** [setFrames(frames)]. *)
Definition setFrames (l : list Frame) (s : State) : State :=
  stop (set_currentFrame (JS.Num 0) (set_frames l s)).

(** [setFPS(fps)]. *)
Definition setFPS (n : Z) (s : State) : State :=
  let s1 := set_fps n s in
  if playing (fields s1) then play (stop s1) else s1.

(** [setLoopMode(mode)]. *)
Definition setLoopMode (m : string) (s : State) : State :=
  set_direction 1 (set_loopMode m s).

(** [isPlaying()], [getCurrentFrame()], [getFrameCount()]. *)
Definition isPlaying (s : State) : bool := playing (fields s).
Definition getCurrentFrame (s : State) : JS.num := currentFrame (fields s).
Definition getFrameCount (s : State) : Z := frameCount s.

(** [advanceFrame()]: the [switch] has no default case, so an unknown
    loop mode only emits the notification. *)
Definition advanceFrame (s : State) : State :=
  let len := JS.Num (frameCount s) in
  let cur := currentFrame (fields s) in
  let s1 :=
    if String.eqb (loopMode (fields s)) "loop" then
      set_currentFrame (JS.rem (JS.add cur (JS.Num 1)) len) s
    else if String.eqb (loopMode (fields s)) "once" then
      if JS.lt cur (JS.add len (JS.Num (-1))) then
        set_currentFrame (JS.add cur (JS.Num 1)) s
      else stop s
    else if String.eqb (loopMode (fields s)) "pingpong" then
      let cur' := JS.add cur (JS.Num (direction (fields s))) in
      let last := JS.add len (JS.Num (-1)) in
      if JS.ge cur' last then
        set_direction (-1) (set_currentFrame last s)
      else if JS.le cur' (JS.Num 0) then
        set_direction 1 (set_currentFrame (JS.Num 0) s)
      else set_currentFrame cur' s
    else s in
  emit (frameChange (currentFrame (fields s1))) s1.

(** [goToFrame(index)]. *)
Definition goToFrame (index : JS.num) (s : State) : State :=
  if JS.lt index (JS.Num 0) || JS.ge index (JS.Num (frameCount s)) then s
  else
    let s1 := set_currentFrame index s in
    emit (frameChange (currentFrame (fields s1))) s1.

(** [nextFrame()]. *)
Definition nextFrame (s : State) : State :=
  let nextIndex :=
    JS.rem (JS.add (currentFrame (fields s)) (JS.Num 1))
           (JS.Num (frameCount s)) in
  goToFrame nextIndex s.

(** [previousFrame()]. *)
Definition previousFrame (s : State) : State :=
  let prevIndex := JS.add (currentFrame (fields s)) (JS.Num (-1)) in
  let wrappedIndex :=
    if JS.lt prevIndex (JS.Num 0)
    then JS.Num (frameCount s - 1) else prevIndex in
  goToFrame wrappedIndex s.

(** [destroy()]. *)
Definition destroy (s : State) : State :=
  set_frames [] (stop s).

(** The public operations, as calls a client (or the interval, for
    [advanceFrame]) can make. *)
Inductive Call : Type :=
| call_setFrames (l : list Frame)
| call_setFPS (n : Z)
| call_setLoopMode (m : string)
| call_play
| call_stop
| call_advanceFrame
| call_goToFrame (index : JS.num)
| call_nextFrame
| call_previousFrame
| call_destroy.

Definition run (c : Call) (s : State) : State :=
  match c with
  | call_setFrames l => setFrames l s
  | call_setFPS n => setFPS n s
  | call_setLoopMode m => setLoopMode m s
  | call_play => play s
  | call_stop => stop s
  | call_advanceFrame => advanceFrame s
  | call_goToFrame i => goToFrame i s
  | call_nextFrame => nextFrame s
  | call_previousFrame => previousFrame s
  | call_destroy => destroy s
  end.

(** The states a manager can be in: those reached from a fresh manager
    by a sequence of calls. *)
Inductive reachable : State -> Prop :=
| reachable_init : reachable init
| reachable_run c s : reachable s -> reachable (run c s).

(** [n] ticks of the interval: [advanceFrame] called [n] times. *)
Fixpoint ticks (n : nat) (s : State) : State :=
  match n with
  | O => s
  | S k => ticks k (advanceFrame s)
  end.

(** The frame index observed after each of [n] successive ticks. *)
Fixpoint indexTrace (n : nat) (s : State) : list JS.num :=
  match n with
  | O => []
  | S k =>
      let s' := advanceFrame s in
      currentFrame (fields s') :: indexTrace k s'
  end.

End Manager.

Arguments Fields : clear implicits.
Arguments State : clear implicits.
Arguments Call : clear implicits.

End FrameManager.

(* ===================================================================== *)
(** ** SequenceHandler *)
(* ===================================================================== *)

Module SequenceHandler.

Import ImageProcessor.

(** A file of the batch: its name and what decoding it yields
    ([loadImageFromFile] rejects when the file cannot be read or
    decoded). *)
Record File : Type := mkFile {
  name : string;
  decoded : option Image
}.

(** The frame objects pushed by [loadFrames]. *)
Record Frame : Type := mkFrame {
  index : Z;
  filename : string;
  image : Image;
  originalPixelData : PixelData;
  pixelData : PixelData
}.

(** What can be thrown inside the [try] block of [loadFrames]. *)
Inductive Error : Type :=
| DimensionMismatch (frameNumber w h : Z) (firstW firstH : option Z)
| LoadFailed (file : string)
| TypeError.

(** Calls to [window.showSnackbar]. *)
Inductive Snack : Type :=
| snackError (e : Error)
| snackLoaded (count : Z).

(** The handler's frame state, the frame manager it drives and the
    messages shown.  [frameWidth] and [frameHeight] are undefined until
    the first frame of the first batch is seen. *)
Record Handler : Type := mkHandler {
  frames : list Frame;
  frameWidth : option Z;
  frameHeight : option Z;
  frameManager : FrameManager.State Frame;
  snackbar : list Snack
}.

(** The handler built by the application: no frames, a fresh manager. *)
Definition init : Handler :=
  mkHandler [] None None FrameManager.init [].

(** *** State with exceptions *)

Inductive Outcome (A : Type) : Type :=
| Returned (a : A)
| Thrown (e : Error).

Arguments Returned {A} a.
Arguments Thrown {A} e.

(** A computation on the handler: the state reached, and either a value
    or the exception thrown in that state. *)
Definition M (A : Type) : Type := Handler -> Handler * Outcome A.

Definition ret {A : Type} (a : A) : M A := fun h => (h, Returned a).

Definition bind {A B : Type} (m : M A) (k : A -> M B) : M B :=
  fun h =>
    match m h with
    | (h', Returned a) => k a h'
    | (h', Thrown e) => (h', Thrown e)
    end.

Definition throw {A : Type} (e : Error) : M A := fun h => (h, Thrown e).

Definition get : M Handler := fun h => (h, Returned h).

Definition modify (f : Handler -> Handler) : M unit :=
  fun h => (f h, Returned tt).

Notation "x <- m ;; k" := (bind m (fun x => k))
  (at level 61, m at next level, right associativity).
Notation "m ;; k" := (bind m (fun _ => k))
  (at level 61, right associativity).

(** *** Field assignments *)

Definition set_frames (l : list Frame) (h : Handler) : Handler :=
  mkHandler l (frameWidth h) (frameHeight h) (frameManager h) (snackbar h).

Definition set_dimensions (w hh : Z) (h : Handler) : Handler :=
  mkHandler (frames h) (Some w) (Some hh) (frameManager h) (snackbar h).

Definition set_frameManager (fm : FrameManager.State Frame) (h : Handler)
  : Handler :=
  mkHandler (frames h) (frameWidth h) (frameHeight h) fm (snackbar h).

Definition showSnackbar (m : Snack) (h : Handler) : Handler :=
  mkHandler (frames h) (frameWidth h) (frameHeight h) (frameManager h)
            (snackbar h ++ [m]).

(** [img.width !== this.frameWidth]. *)
Definition differs (v : Z) (field : option Z) : bool :=
  match field with
  | Some f => negb (v =? f)
  | None => true
  end.

(** [await this.loadImageFromFile(file)]. *)
Definition loadImageFromFile (file : File) : M Image :=
  match decoded file with
  | Some img => ret img
  | None => throw (LoadFailed (name file))
  end.

Section LoadFrames.

(** [a.localeCompare(b, undefined, { numeric: true })], the collation of
    the host. *)
Variable localeCompare : string -> string -> Z.

(** [files.sort(compare)]: a stable sort by the comparator. *)
Fixpoint insertFile (f : File) (l : list File) : list File :=
  match l with
  | [] => [f]
  | x :: rest =>
      if localeCompare (name f) (name x) <=? 0 then f :: l
      else x :: insertFile f rest
  end.

Definition sortFiles (files : list File) : list File :=
  fold_right insertFile [] files.

(** The body of the [for] loop of [loadFrames], from index [i] on. *)
Fixpoint loadLoop (i : Z) (files : list File) : M unit :=
  match files with
  | [] => ret tt
  | file :: rest =>
      img <- loadImageFromFile file ;;
      h <- get ;;
      (if i =? 0 then
         modify (set_dimensions (img_width img) (img_height img))
       else if differs (img_width img) (frameWidth h)
               || differs (img_height img) (frameHeight h) then
         throw (DimensionMismatch (i + 1) (img_width img) (img_height img)
                                  (frameWidth h) (frameHeight h))
       else ret tt) ;;
      let pixelData := processImage img in
      modify (fun h =>
                set_frames
                  (frames h ++ [mkFrame i (name file) img pixelData pixelData])
                  h) ;;
      loadLoop (i + 1) rest
  end.

(** The [try] block of [loadFrames].  [files[0].name] throws when the
    batch is empty.  The updates of the page (file list, timeline, name
    field, zoom) are not part of the frame state and are left out. *)
Definition loadFrames_try (files : list File) : M unit :=
  let files := sortFiles files in
  modify (set_frames []) ;;
  loadLoop 0 files ;;
  match files with
  | [] => throw TypeError
  | _ :: _ => ret tt
  end ;;
  modify (fun h =>
            set_frameManager
              (FrameManager.goToFrame (JS.Num 0)
                 (FrameManager.setFrames (frames h) (frameManager h)))
              h) ;;
  modify (showSnackbar (snackLoaded (Z.of_nat (List.length files)))).

(** [loadFrames(files)]: the [catch] clause reports the error and the
    function returns normally. *)
Definition loadFrames (files : list File) (h : Handler) : Handler :=
  match loadFrames_try files h with
  | (h', Returned _) => h'
  | (h', Thrown e) => showSnackbar (snackError e) h'
  end.

(** Whether the last call reported an error. *)
Definition failed (files : list File) (h : Handler) : option Error :=
  match loadFrames_try files h with
  | (_, Returned _) => None
  | (_, Thrown e) => Some e
  end.

End LoadFrames.

(** *** Crop offsets (the version of the handler that has them) *)

(** [parseInt(input.value) || fallback]: [parseInt] returns an integer
    or [NaN]; [NaN] and 0 are falsy, and the fallback is used for them. *)
Definition parsedOr (parsed : JS.num) (fallback : Z) : Z :=
  match parsed with
  | JS.Num z => if z =? 0 then fallback else z
  | JS.NaN => fallback
  end.

(** The crop region computed by [drawCropOverlay] for the preview, from
    the fields [frameWidth], [frameHeight], [cropOffsetX], [cropOffsetY],
    the mode and what [parseInt] makes of the two size inputs
    ([outputWidth], [outputHeight]); [None] where the method returns
    early. *)
Definition drawCropOverlay_region
  (frameWidth frameHeight : Z) (outputWidth outputHeight : JS.num)
  (mode : string) (cropOffsetX cropOffsetY : Z) : option SourceRect :=
  let targetWidth := parsedOr outputWidth frameWidth in
  let targetHeight := parsedOr outputHeight frameHeight in
  let region :=
    if String.eqb mode "crop-top" then
      Some (mkSourceRect cropOffsetX cropOffsetY
              (Z.min targetWidth frameWidth) (Z.min targetHeight frameHeight))
    else if String.eqb mode "crop-bottom" then
      let cropW := Z.min targetWidth frameWidth in
      let cropH := Z.min targetHeight frameHeight in
      Some (mkSourceRect cropOffsetX
              (Z.max 0 (frameHeight - cropH) + cropOffsetY) cropW cropH)
    else if String.eqb mode "crop-center" then
      let cropW := Z.min targetWidth frameWidth in
      let cropH := Z.min targetHeight frameHeight in
      Some (mkSourceRect ((frameWidth - cropW) / 2 + cropOffsetX)
              ((frameHeight - cropH) / 2 + cropOffsetY) cropW cropH)
    else if String.eqb mode "stretch" || String.eqb mode "fit" then None
    else Some (mkSourceRect 0 0 targetWidth targetHeight) in
  match region with
  | None => None
  | Some rect =>
      Some (mkSourceRect
              (Z.max 0 (Z.min (sx rect) (frameWidth - sWidth rect)))
              (Z.max 0 (Z.min (sy rect) (frameHeight - sHeight rect)))
              (sWidth rect) (sHeight rect))
  end.

(** The call made by [reprocessFrames] for one frame:
    [processImageWithResize(frame.image, targetWidth, targetHeight, mode,
    this.cropOffsetX, this.cropOffsetY)].  The callee declares four
    parameters, so the two trailing arguments are not bound to anything. *)
Definition reprocessFrames_sourceRect
  (frame : Frame) (targetWidth targetHeight : Z) (mode : string)
  (cropOffsetX cropOffsetY : Z) : SourceRect :=
  processImageWithResize_sourceRect (image frame) targetWidth targetHeight mode.

(** The overlay drawn at the end of [reprocessFrames]: after the loop the
    method stores the target size in [frameWidth] and [frameHeight] and
    then calls [updatePreview], which draws the overlay from these fields
    and from the same two inputs the target was parsed from. *)
Definition reprocessFrames_overlay
  (targetWidth targetHeight : Z) (mode : string)
  (cropOffsetX cropOffsetY : Z) : option SourceRect :=
  drawCropOverlay_region targetWidth targetHeight
                         (JS.Num targetWidth) (JS.Num targetHeight)
                         mode cropOffsetX cropOffsetY.

(** [togglePlayback()]. *)
Definition togglePlayback (h : Handler) : Handler :=
  if FrameManager.isPlaying (frameManager h)
  then set_frameManager (FrameManager.stop (frameManager h)) h
  else set_frameManager (FrameManager.play (frameManager h)) h.

End SequenceHandler.

(* ===================================================================== *)
(** ** AnimationExporter *)
(* ===================================================================== *)

Module AnimationExporter.

Local Open Scope string_scope.

(** The template of [generateGUID]. *)
Definition guidTemplate : string := "{xxxxxxxx-xxxx-4xxx-yxxx-xxxxxxxxxxxx}".

(** The replacement callback: [random] is the value of [Math.random()]
    for this call. *)
Definition guidDigit (c : ascii) (random : Q) : string :=
  let r := JS.bor (JS.truncate (random * 16)) 0 in
  let v := if Ascii.eqb c "x" then r else JS.bor (JS.band r 3) 8 in
  JS.toString16 v.

(** [template.replace(/[xy]/g, callback)], the [n]-th call of
    [Math.random()] returning [random n]. *)
Fixpoint replaceXY (template : string) (random : nat -> Q) (n : nat) : string :=
  match template with
  | EmptyString => EmptyString
  | String c rest =>
      if Ascii.eqb c "x" || Ascii.eqb c "y" then
        guidDigit c (random n) ++ replaceXY rest random (S n)
      else String c (replaceXY rest random n)
  end.

(** [generateGUID()]. *)
Definition generateGUID (random : nat -> Q) : string :=
  replaceXY guidTemplate random 0.

(** The text of one packed word in the array literals:
    [dword.toString(16).padStart(8, '0').toUpperCase()]. *)
Definition hexToken (dword : Z) : string :=
  JS.toUpperCaseAscii (JS.padStart 8 "0" (JS.toString16 dword)).

(** The line feed of the template literals. *)
Definition newline : string := String (ascii_of_nat 10) EmptyString.

(** The inner [for (j ...)] loop of [exportTwinCAT] (and of the single
    image export, which has the same body), from index [j] on:
    [len] is [pixels.length] of the whole array. *)
Fixpoint pixelLines (width len j : Z) (pixels : list ImageProcessor.Pixel)
  : string :=
  match pixels with
  | [] => EmptyString
  | p :: rest =>
      "    16#" ++ hexToken (ImageProcessor.dword p)
      ++ (if (j <? len - 1)%Z then "," else "")
      ++ (if JS.eqb (JS.rem (JS.Num (j + 1)%Z) (JS.Num width)) (JS.Num 0)
          then newline else "")
      ++ pixelLines width len (j + 1)%Z rest
  end.

(** The inner loop of [exportTcGVL]: a line break after every fourth
    word, except after the last one. *)
Fixpoint pixelLinesGVL (len j : Z) (pixels : list ImageProcessor.Pixel)
  : string :=
  match pixels with
  | [] => EmptyString
  | p :: rest =>
      "        16#" ++ hexToken (ImageProcessor.dword p)
      ++ (if (j <? len - 1)%Z then "," else "")
      ++ (if JS.eqb (JS.rem (JS.Num (j + 1)%Z) (JS.Num 4)) (JS.Num 0)
             && (j <? len - 1)%Z
          then newline else "")
      ++ pixelLinesGVL len (j + 1)%Z rest
  end.

(** The array literal of one frame, between the opening bracket line and
    the closing one. *)
Definition frameArrayBody (width : Z) (pixels : list ImageProcessor.Pixel)
  : string :=
  pixelLines width (Z.of_nat (List.length pixels)) 0 pixels.

Definition frameArrayBodyGVL (pixels : list ImageProcessor.Pixel) : string :=
  pixelLinesGVL (Z.of_nat (List.length pixels)) 0 pixels.

(** The numeric fields of the object returned by
    [calculateMemoryUsage(frames, width, height)]. *)
Record MemoryUsage : Type := mkMemoryUsage {
  pixelsPerFrame : Z;
  bytesPerFrame : Z;
  totalFrames : Z;
  totalBytes : Z
}.

Definition calculateMemoryUsage {Frame : Type}
  (frames : list Frame) (width height : Z) : MemoryUsage :=
  let pixelsPerFrame := (width * height)%Z in
  let bytesPerPixel := 4%Z in
  let bytesPerFrame := (pixelsPerFrame * bytesPerPixel)%Z in
  let totalBytes := (bytesPerFrame * Z.of_nat (List.length frames))%Z in
  mkMemoryUsage pixelsPerFrame bytesPerFrame
                (Z.of_nat (List.length frames)) totalBytes.

(** The test that adds the warning lines to [generateMemoryReport]. *)
Definition memoryWarning (usage : MemoryUsage) : bool :=
  (10 * 1024 * 1024 <? totalBytes usage)%Z.

End AnimationExporter.

(* ===================================================================== *)
(** ** Predicates of the design and sample inputs *)
(* ===================================================================== *)

Module Samples.

Import ImageProcessor.

(** *** Brightness *)

(** [channel * percent / 100] rounded to the nearest integer, a tie
    going up: what [Math.round] would return if the product were
    exact. *)
Definition halfUp (channel percent : Z) : Z :=
  (2 * channel * percent + 100) / 200.

(** [channel * percent / 100] lies exactly halfway between two
    integers. *)
Definition isTie (channel percent : Z) : Prop :=
  (2 * channel * percent + 100) mod 200 = 0.

(** What the scaling guarantees about the value [v] it stores for a
    channel: the half-up rounding of the exact product, or one less at
    a tie, and never less than the channel it came from. *)
Definition brightened (channel percent v : Z) : Prop :=
  halfUp channel percent - 1 <= v <= halfUp channel percent /\
  (~ isTie channel percent -> v = halfUp channel percent) /\
  channel <= v.

(** *** Playback controller *)

Section PlaybackSamples.

Import FrameManager.

(** A manager holding three frames under the ping-pong discipline, at
    index 0 with direction +1. *)
Definition bounce3 : State unit :=
  setLoopMode "pingpong" (setFrames [tt; tt; tt] init).

(** A manager holding [n] frames under the once discipline, stopped at
    index 0. *)
Definition once_stopped (n : nat) : State unit :=
  setLoopMode "once" (setFrames (repeat tt n) init).

(** The state invariant of the design: the index is a number within the
    sequence. *)
Definition indexInRange {Frame : Type} (s : State Frame) : Prop :=
  exists i, currentFrame (fields s) = JS.Num i /\ 0 <= i < frameCount s.

(** At most one interval is live, it is the one the manager remembers,
    and one is live exactly while the manager is playing. *)
Definition timerInvariant {Frame : Type} (s : State Frame) : Prop :=
  0 < nextHandle (env s) /\
  if playing (fields s) then
    exists h f, animationTimer (fields s) = Some h /\
                timers (env s) = [mkTimer h f] /\
                0 < h < nextHandle (env s)
  else timers (env s) = [].

(** A manager playing two frames: the state after [setFrames] and
    [play]. *)
Definition playing2 : State unit :=
  run call_play (run (call_setFrames [tt; tt]) init).

(** What navigation looks at: the sequence, the index and the
    direction. *)
Definition navView {Frame : Type} (s : State Frame)
  : list Frame * JS.num * Z :=
  (frames (fields s), currentFrame (fields s), direction (fields s)).

(** A sequence one can navigate: it has frames, the index is inside it
    and the direction is one step forward or backward. *)
Definition navigable {Frame : Type} (s : State Frame) : Prop :=
  0 < frameCount s /\ indexInRange s /\
  (direction (fields s) = 1 \/ direction (fields s) = -1).

(** The calls that keep a sequence navigable: all but emptying it and
    jumping to a non-number. *)
Definition keepsSequence {Frame : Type} (c : Call Frame) : Prop :=
  match c with
  | call_setFrames l => l <> []
  | call_goToFrame JS.NaN => False
  | call_destroy => False
  | _ => True
  end.

(** A manager that plays has frames to play. *)
Definition playingHasFrames {Frame : Type} (s : State Frame) : Prop :=
  playing (fields s) = true -> 0 < frameCount s.

End PlaybackSamples.

(** *** Frames and files *)

Section IngestionSamples.

Import SequenceHandler.

(** A 4x4 source image (64 bytes of RGBA data) and the frame object that
    [loadFrames] builds for it. *)
Definition image4x4 : Image := mkImage 4 4 (repeat 0 64).

Definition frame4x4 : Frame :=
  mkFrame 0 "frame_001.png" image4x4
          (processImage image4x4) (processImage image4x4).

(** The frame objects the loop of [loadFrames] builds for the files of a
    list, numbered from [i]. *)
Fixpoint framesOfFiles (i : Z) (files : list File) : list Frame :=
  match files with
  | [] => []
  | file :: rest =>
      match decoded file with
      | Some img =>
          mkFrame i (name file) img (processImage img) (processImage img)
          :: framesOfFiles (i + 1) rest
      | None => framesOfFiles (i + 1) rest
      end
  end.

(** A file that decodes to an image of the given size. *)
Definition decodesTo (w hh : Z) (file : File) : Prop :=
  exists img, decoded file = Some img /\
              img_width img = w /\ img_height img = hh.

(** Comparison of names by character code, standing for the collation of
    the host in the examples. *)
Definition compareNames (x y : string) : Z :=
  match String.compare x y with
  | Lt => -1
  | Eq => 0
  | Gt => 1
  end.

(** Comparison of names by length alone: a total preorder, used where
    an example needs one. *)
Definition compareLengths (x y : string) : Z :=
  Z.of_nat (String.length x) - Z.of_nat (String.length y).

(** The order a comparator induces on files. *)
Definition nameOrder (cmp : string -> string -> Z) (x y : File) : Prop :=
  cmp (name x) (name y) <= 0.

(** A batch of two files, 2x2 then 3x3. *)
Definition fileA : File := mkFile "a_001.png" (Some (mkImage 2 2 (repeat 0 16))).
Definition fileB : File := mkFile "a_002.png" (Some (mkImage 3 3 (repeat 7 36))).

End IngestionSamples.

(** *** Identifier characters *)

(** The lowercase hexadecimal digits. *)
Definition isLowerHex (c : ascii) : Prop :=
  In c (list_ascii_of_string "0123456789abcdef").

(** The digits of the array literals: 0-9 and A-F. *)
Definition isUpperHexChar (c : ascii) : bool :=
  let n := nat_of_ascii c in
  ((48 <=? n) && (n <=? 57) || (65 <=? n) && (n <=? 70))%nat.

(** The digits [toString(16)] writes: 0-9 and a-f. *)
Definition isLowerHexChar (c : ascii) : bool :=
  let n := nat_of_ascii c in
  ((48 <=? n) && (n <=? 57) || (97 <=? n) && (n <=? 102))%nat.

(** The characters of any token: digits, letters or a minus sign, never
    a separator. *)
Definition isTokenChar (c : ascii) : bool :=
  let n := nat_of_ascii c in
  ((48 <=? n) && (n <=? 57) || (65 <=? n) && (n <=? 70)
   || (97 <=? n) && (n <=? 102) || (n =? 45))%nat.

(** Whether every character of a string satisfies a test. *)
Fixpoint allChars (test : ascii -> bool) (s : string) : bool :=
  match s with
  | EmptyString => true
  | String c rest => test c && allChars test rest
  end.

(** How often a character occurs in a string. *)
Fixpoint countChar (c : ascii) (s : string) : nat :=
  match s with
  | EmptyString => O
  | String d rest => ((if Ascii.eqb c d then 1 else 0) + countChar c rest)%nat
  end.

(** The line feed, the comma and the hash sign. *)
Definition lineFeed : ascii := ascii_of_nat 10.
Definition comma : ascii := ascii_of_nat 44.
Definition hash : ascii := ascii_of_nat 35.

(** The four variant digits. *)
Definition isVariantDigit (c : ascii) : Prop :=
  In c (list_ascii_of_string "89ab").

(** *** Array literals, line by line *)

(** One word of an array literal behind its indentation. *)
Definition wordText (indent : string) (p : Pixel) : string :=
  (indent ++ "16#" ++ AnimationExporter.hexToken (dword p))%string.

(** The words of one line, a comma between neighbours. *)
Definition rowText (indent : string) (row : list Pixel) : string :=
  String.concat "," (map (wordText indent) row).

(** Lines one below the other: a comma and a line feed between
    neighbours, nothing after the last. *)
Definition rowsText (indent : string) (rows : list (list Pixel)) : string :=
  String.concat ("," ++ AnimationExporter.newline)
                (map (rowText indent) rows).

End Samples.

(* ===================================================================== *)
(** * Properties *)
(* ===================================================================== *)

Import ImageProcessor.
Import Samples.

(** ** Pixel codec *)

Section PixelCodec.

Lemma toInt32_small (z : Z) :
  - 2 ^ 31 <= z < 2 ^ 31 -> JS.toInt32 z = z.
Proof.
  intros Hz. unfold JS.toInt32.
  rewrite Z.mod_small by lia. lia.
Qed.

(** A value below [2^k] has no bit at or above position [k]. *)
Lemma testbit_above (lo k n : Z) :
  0 <= lo < 2 ^ k -> k <= n -> Z.testbit lo n = false.
Proof.
  intros [Hlo Hlt] Hn.
  destruct (Z.eq_dec lo 0) as [->|Hne].
  - apply Z.testbit_0_l.
  - apply Z.bits_above_log2; [lia|].
    assert (Z.log2 lo < k) by (apply Z.log2_lt_pow2; lia). lia.
Qed.

(** OR-ing a field below a shifted value is adding it. *)
Lemma lor_shifted (hi lo k : Z) :
  0 <= k -> 0 <= lo < 2 ^ k -> Z.lor (hi * 2 ^ k) lo = hi * 2 ^ k + lo.
Proof.
  intros Hk Hlo.
  rewrite <- Z.lxor_lor, <- Z.add_nocarry_lxor; try reflexivity.
  all: apply Z.bits_inj'; intros n Hn;
    rewrite Z.land_spec, Z.bits_0, <- Z.shiftl_mul_pow2 by lia;
    destruct (Z.lt_ge_cases n k);
    [ rewrite Z.shiftl_spec_low by lia; reflexivity
    | rewrite (testbit_above lo k n) by lia; apply andb_false_r ].
Qed.

(** Without wrap-around the packing is the plain OR of the shifted
    channels. *)
Lemma rgbToDword_lor (r g b : Z) :
  0 <= r < 2 ^ 15 -> 0 <= g < 2 ^ 15 -> 0 <= b < 2 ^ 15 ->
  rgbToDword r g b = Z.lor (Z.lor (Z.shiftl b 16) (Z.shiftl g 8)) r.
Proof.
  intros Hr Hg Hb. unfold rgbToDword, JS.bor, JS.shl.
  change (16 mod 32) with 16. change (8 mod 32) with 8.
  rewrite !Z.shiftl_mul_pow2 by lia.
  assert (Hb16 : 0 <= b * 2 ^ 16 < 2 ^ 31) by lia.
  assert (Hg8 : 0 <= g * 2 ^ 8 < 2 ^ 23) by lia.
  rewrite (toInt32_small b), (toInt32_small g), (toInt32_small r) by lia.
  rewrite !(toInt32_small (b * 2 ^ 16)), !(toInt32_small (g * 2 ^ 8)) by lia.
  rewrite toInt32_small; [reflexivity|].
  assert (0 <= Z.lor (b * 2 ^ 16) (g * 2 ^ 8) < 2 ^ 31); [|lia].
  split.
  - apply Z.lor_nonneg; lia.
  - destruct (Z.eq_dec (Z.lor (b * 2 ^ 16) (g * 2 ^ 8)) 0) as [->|Hne];
      [lia|].
    apply Z.log2_lt_pow2.
    + assert (0 <= Z.lor (b * 2 ^ 16) (g * 2 ^ 8))
        by (apply Z.lor_nonneg; lia). lia.
    + rewrite Z.log2_lor by lia.
      apply Z.max_lub_lt.
      * destruct (Z.eq_dec b 0) as [->|]; [simpl; lia|].
        apply Z.log2_lt_pow2; lia.
      * destruct (Z.eq_dec g 0) as [->|]; [simpl; lia|].
        apply Z.log2_lt_pow2; lia.
Qed.

(** For 8-bit channels the three fields do not overlap. *)
Lemma rgbToDword_sum (r g b : Z) :
  0 <= r < 256 -> 0 <= g < 256 -> 0 <= b < 256 ->
  rgbToDword r g b = r + 256 * g + 65536 * b.
Proof.
  intros Hr Hg Hb.
  rewrite rgbToDword_lor by lia.
  rewrite !Z.shiftl_mul_pow2 by lia.
  rewrite (lor_shifted b (g * 2 ^ 8) 16) by lia.
  replace (b * 2 ^ 16 + g * 2 ^ 8) with ((b * 2 ^ 8 + g) * 2 ^ 8) by lia.
  rewrite lor_shifted by lia. lia.
Qed.

(** The layout of a word [w] known to be the packing of three 8-bit
    channels. *)
Lemma packed_word_layout (r g b a w : Z) :
  0 <= r < 256 -> 0 <= g < 256 -> 0 <= b < 256 ->
  w = rgbToDword r g b ->
  Z.land w 255 = r /\
  Z.land (Z.shiftr w 8) 255 = g /\
  Z.land (Z.shiftr w 16) 255 = b /\
  Z.shiftr w 24 = 0 /\
  0 <= w < 2 ^ 32 /\
  (forall a' : Z, dword (toPixel r g b a') = w) /\
  convertPixels [r; g; b; a] = [mkPixel r g b a w].
Proof.
  intros Hr Hg Hb Hw.
  assert (Ha : forall a' : Z, dword (toPixel r g b a') = w)
    by (intros a'; rewrite Hw; reflexivity).
  assert (Hc : convertPixels [r; g; b; a] = [mkPixel r g b a w])
    by (rewrite Hw; reflexivity).
  rewrite rgbToDword_sum in Hw by assumption.
  change 255 with (Z.ones 8).
  rewrite !Z.land_ones, !Z.shiftr_div_pow2 by lia.
  change (2 ^ 8) with 256. change (2 ^ 16) with 65536.
  change (2 ^ 24) with 16777216. change (2 ^ 32) with 4294967296.
  repeat split; try assumption; rewrite Hw;
    Z.to_euclidean_division_equations; lia.
Qed.

(** C1. For 8-bit channel values [r], [g], [b] and any alpha [a], the
    packed word of the sample carries red in bits 0-7, green in bits
    8-15, blue in bits 16-23 and nothing in bits 24-31; a sample that
    differs only in alpha has the same packed word. *)
Theorem encode_layout (r g b a : Z) :
  0 <= r < 256 -> 0 <= g < 256 -> 0 <= b < 256 ->
  let w := dword (toPixel r g b a) in
  Z.land w 255 = r /\
  Z.land (Z.shiftr w 8) 255 = g /\
  Z.land (Z.shiftr w 16) 255 = b /\
  Z.shiftr w 24 = 0 /\
  0 <= w < 2 ^ 32 /\
  (forall a' : Z, dword (toPixel r g b a') = w) /\
  convertPixels [r; g; b; a] = [mkPixel r g b a w].
Proof.
  intros Hr Hg Hb w.
  apply (packed_word_layout r g b a w Hr Hg Hb). reflexivity.
Qed.

Lemma encode_layout_witness :
  Z.land (dword (toPixel 18 52 86 255)) 255 = 18 /\
  Z.shiftr (dword (toPixel 18 52 86 255)) 24 = 0.
Proof.
  destruct (encode_layout 18 52 86 255 ltac:(lia) ltac:(lia) ltac:(lia))
    as (H1 & _ & _ & H4 & _).
  exact (conj H1 H4).
Defined.

End PixelCodec.

(** ** Double-precision rounding *)

Section DoubleRounding.

Local Open Scope Q_scope.

Lemma pow2_pos (k : Z) : 0 < JS.pow2 k.
Proof. apply Qpower_0_lt. reflexivity. Qed.

Lemma pow2_add (a b : Z) : JS.pow2 (a + b) == JS.pow2 a * JS.pow2 b.
Proof. apply Qpower_plus. discriminate. Qed.

Lemma pow2_Z (k : Z) : (0 <= k)%Z -> JS.pow2 k == inject_Z (2 ^ k).
Proof. intros Hk. unfold JS.pow2. now rewrite Zpower_Qpower. Qed.

Lemma pow2_le (a b : Z) : (a <= b)%Z -> JS.pow2 a <= JS.pow2 b.
Proof. intros H. apply Qpower_le_compat_l; [exact H | discriminate]. Qed.

Lemma pow2_lt_inv (a b : Z) : JS.pow2 a < JS.pow2 b -> (a < b)%Z.
Proof.
  intros H. apply (Qpower_lt_compat_l_inv 2); [exact H | reflexivity].
Qed.

Lemma pow2_sub (a b : Z) : JS.pow2 (a - b) == JS.pow2 a / JS.pow2 b.
Proof.
  unfold Z.sub. rewrite pow2_add. unfold JS.pow2 at 2.
  rewrite Qpower_opp. reflexivity.
Qed.

(** The binade of a positive rational. *)
Lemma exponent_spec (q : Q) :
  0 < q -> JS.pow2 (JS.exponent q) <= q < JS.pow2 (JS.exponent q + 1).
Proof.
  intros Hq. destruct q as [a b].
  assert (Ha : (0 < a)%Z).
  { unfold Qlt in Hq. cbn in Hq. lia. }
  pose proof (Z.log2_spec a Ha) as [La Ua].
  pose proof (Z.log2_spec (Zpos b) (Pos2Z.is_pos b)) as [Lb Ub].
  pose proof (Z.log2_nonneg a) as Na.
  pose proof (Z.log2_nonneg (Zpos b)) as Nb.
  set (la := Z.log2 a) in *. set (lb := Z.log2 (Zpos b)) in *.
  assert (Hb : 0 < inject_Z (Zpos b)) by reflexivity.
  assert (Hlow : JS.pow2 (la - lb - 1) <= a # b).
  { replace (la - lb - 1)%Z with (la - (lb + 1))%Z by lia.
    rewrite pow2_sub, !pow2_Z, Qmake_Qdiv by lia.
    apply Qle_shift_div_l; [exact Hb|].
    unfold Qdiv. rewrite <- Qmult_assoc, (Qmult_comm (/ _)), Qmult_assoc.
    apply Qle_shift_div_r.
    - rewrite <- pow2_Z by lia. apply pow2_pos.
    - rewrite <- !inject_Z_mult, <- Zle_Qle.
      apply Z.mul_le_mono_nonneg; lia. }
  assert (Hhigh : a # b < JS.pow2 (la - lb + 1)).
  { replace (la - lb + 1)%Z with (la + 1 - lb)%Z by lia.
    rewrite pow2_sub, !pow2_Z, Qmake_Qdiv by lia.
    apply Qlt_shift_div_r; [exact Hb|].
    unfold Qdiv. rewrite <- Qmult_assoc, (Qmult_comm (/ _)), Qmult_assoc.
    apply Qlt_shift_div_l.
    - rewrite <- pow2_Z by lia. apply pow2_pos.
    - rewrite <- !inject_Z_mult, <- Zlt_Qlt.
      apply Z.le_lt_trans with (a * Z.pos b)%Z.
      * apply Z.mul_le_mono_nonneg_l; lia.
      * apply Z.mul_lt_mono_pos_r; lia. }
  unfold JS.exponent. cbn [Qnum Qden]. fold la lb.
  destruct (Qle_bool (JS.pow2 (la - lb)) (a # b)) eqn:E.
  - apply Qle_bool_iff in E. split; [exact E | exact Hhigh].
  - split; [exact Hlow|].
    replace (la - lb - 1 + 1)%Z with (la - lb)%Z by lia.
    apply Qnot_le_lt. intros H. apply Qle_bool_iff in H. congruence.
Qed.

Lemma roundHalfEven_cases (x : Q) :
  JS.roundHalfEven x = Qfloor x \/ JS.roundHalfEven x = (Qfloor x + 1)%Z.
Proof.
  unfold JS.roundHalfEven.
  destruct (x - inject_Z (Qfloor x) ?= 1 # 2); [destruct (Z.even _)|..];
    auto.
Qed.

Lemma roundHalfEven_near (x : Q) :
  inject_Z (JS.roundHalfEven x) - (1 # 2) <= x
  /\ x <= inject_Z (JS.roundHalfEven x) + (1 # 2).
Proof.
  unfold JS.roundHalfEven.
  pose proof (Qfloor_le x) as Hl. pose proof (Qlt_floor x) as Hu.
  rewrite inject_Z_plus in Hu. change (inject_Z 1) with 1 in Hu.
  destruct (Qcompare_spec (x - inject_Z (Qfloor x)) (1 # 2));
    [destruct (Z.even _)|..];
    rewrite ?inject_Z_plus; change (inject_Z 1) with 1; lra.
Qed.

Lemma roundHalfEven_comp (x y : Q) :
  x == y -> JS.roundHalfEven x = JS.roundHalfEven y.
Proof.
  intros H. unfold JS.roundHalfEven.
  rewrite (Qfloor_comp _ _ H).
  rewrite (Qcompare_comp (x - inject_Z (Qfloor y)) (y - inject_Z (Qfloor y))
             ltac:(rewrite H; reflexivity) (1 # 2) (1 # 2) (Qeq_refl _)).
  reflexivity.
Qed.

Lemma roundHalfEven_Z (z : Z) : JS.roundHalfEven (inject_Z z) = z.
Proof.
  unfold JS.roundHalfEven. rewrite Qfloor_Z.
  destruct (Qcompare_spec (inject_Z z - inject_Z z) (1 # 2));
    [exfalso; lra | reflexivity | exfalso; lra].
Qed.

Lemma roundHalfEven_mono (x y : Q) :
  x <= y -> (JS.roundHalfEven x <= JS.roundHalfEven y)%Z.
Proof.
  intros Hxy. pose proof (Qfloor_resp_le x y Hxy) as Hf.
  destruct (Z.eq_dec (Qfloor x) (Qfloor y)) as [E|NE].
  - unfold JS.roundHalfEven. rewrite E.
    destruct (Qcompare_spec (x - inject_Z (Qfloor y)) (1 # 2));
      destruct (Qcompare_spec (y - inject_Z (Qfloor y)) (1 # 2));
      try destruct (Z.even _); try lia; exfalso; lra.
  - destruct (roundHalfEven_cases x) as [-> | ->];
      destruct (roundHalfEven_cases y) as [-> | ->]; lia.
Qed.

(** The value [roundPos] returns: an integer significand between [2^52]
    and [2^53] times the unit in the last place of the binade. *)
Lemma roundPos_spec (q : Q) :
  0 < q ->
  let ulp := JS.pow2 (JS.exponent q - 52) in
  let n := JS.roundHalfEven (q / ulp) in
  JS.roundPos q == inject_Z n * ulp /\
  (2 ^ 52 <= n <= 2 ^ 53)%Z /\
  inject_Z n * ulp - (1 # 2) * ulp <= q /\
  q <= inject_Z n * ulp + (1 # 2) * ulp /\
  ulp * inject_Z (2 ^ 52) <= q.
Proof.
  intros Hq ulp n.
  destruct (exponent_spec q Hq) as [Hlo Hhi].
  assert (Hulp : 0 < ulp) by apply pow2_pos.
  assert (Hne : ~ ulp == 0) by lra.
  assert (He : JS.pow2 (JS.exponent q) == ulp * inject_Z (2 ^ 52)).
  { rewrite <- pow2_Z by lia. unfold ulp. rewrite <- pow2_add.
    now replace (JS.exponent q - 52 + 52)%Z with (JS.exponent q) by lia. }
  assert (He' : JS.pow2 (JS.exponent q + 1) == ulp * inject_Z (2 ^ 53)).
  { rewrite <- pow2_Z by lia. unfold ulp. rewrite <- pow2_add.
    now replace (JS.exponent q - 52 + 53)%Z with (JS.exponent q + 1)%Z
      by lia. }
  assert (Hm : q / ulp * ulp == q) by (field; exact Hne).
  split; [unfold JS.roundPos; apply Qred_correct|].
  split.
  - split.
    + rewrite <- (roundHalfEven_Z (2 ^ 52)). apply roundHalfEven_mono.
      apply Qle_shift_div_l; [exact Hulp|].
      rewrite Qmult_comm, <- He. exact Hlo.
    + rewrite <- (roundHalfEven_Z (2 ^ 53)). apply roundHalfEven_mono.
      apply Qle_shift_div_r; [exact Hulp|].
      rewrite Qmult_comm, <- He'. apply Qlt_le_weak, Hhi.
  - destruct (roundHalfEven_near (q / ulp)) as [Hn1 Hn2]. fold n in Hn1, Hn2.
    apply (Qmult_le_compat_r _ _ ulp) in Hn1; [|lra].
    apply (Qmult_le_compat_r _ _ ulp) in Hn2; [|lra].
    rewrite Hm in Hn1, Hn2.
    repeat split; lra.
Qed.

Local Notation "'u53'" := (1 # 9007199254740992).

(** Rounding a positive rational moves it by at most half a unit in the
    last place, a relative error of [2^-53]. *)
Lemma roundPos_error (q : Q) :
  0 < q -> q * (1 - u53) <= JS.roundPos q /\ JS.roundPos q <= q * (1 + u53).
Proof.
  intros Hq. destruct (roundPos_spec q Hq) as (-> & _ & H1 & H2 & H3).
  set (ulp := JS.pow2 (JS.exponent q - 52)) in *.
  set (P := inject_Z _ * ulp) in *.
  change (inject_Z (2 ^ 52)) with (4503599627370496 # 1) in H3.
  split; lra.
Qed.

Lemma roundPos_mono (x y : Q) :
  0 < x -> x <= y -> JS.roundPos x <= JS.roundPos y.
Proof.
  intros Hx Hxy. assert (Hy : 0 < y) by lra.
  destruct (exponent_spec x Hx) as [Lx Ux].
  destruct (exponent_spec y Hy) as [Ly Uy].
  destruct (roundPos_spec x Hx) as (-> & [_ Nx] & _).
  destruct (roundPos_spec y Hy) as (-> & [Ny _] & _).
  assert (Hle : (JS.exponent x < JS.exponent y + 1)%Z).
  { apply pow2_lt_inv. lra. }
  destruct (Z.eq_dec (JS.exponent x) (JS.exponent y)) as [E|NE].
  - rewrite E. apply Qmult_le_compat_r; [|apply Qlt_le_weak, pow2_pos].
    rewrite <- Zle_Qle. apply roundHalfEven_mono.
    apply Qmult_le_compat_r; [exact Hxy|].
    apply Qinv_le_0_compat, Qlt_le_weak, pow2_pos.
  - apply Qle_trans with (JS.pow2 (JS.exponent y)).
    + apply Qle_trans with (JS.pow2 (JS.exponent x + 1)).
      * replace (JS.exponent x + 1)%Z with (53 + (JS.exponent x - 52))%Z
          by lia.
        rewrite pow2_add, (pow2_Z 53) by lia.
        apply Qmult_le_compat_r; [|apply Qlt_le_weak, pow2_pos].
        rewrite <- Zle_Qle. exact Nx.
      * apply pow2_le. lia.
    + replace (JS.exponent y) with (52 + (JS.exponent y - 52))%Z at 1
        by lia.
      rewrite pow2_add, (pow2_Z 52) by lia.
      apply Qmult_le_compat_r; [|apply Qlt_le_weak, pow2_pos].
      rewrite <- Zle_Qle. exact Ny.
Qed.

(** [roundDouble] depends on the value of its argument only. *)
Lemma roundDouble_comp (x y : Q) :
  x == y -> JS.roundDouble x = JS.roundDouble y.
Proof.
  intros H. unfold JS.roundDouble. now rewrite (Qred_complete _ _ H).
Qed.

Lemma roundDouble_zero (x : Q) : x == 0 -> JS.roundDouble x = 0.
Proof. intros H. now rewrite (roundDouble_comp _ _ H). Qed.

Lemma roundDouble_positive (x : Q) :
  0 < x -> JS.roundDouble x = JS.roundPos (Qred x).
Proof.
  intros Hx. unfold JS.roundDouble.
  assert (H : 0 < Qred x) by (now rewrite Qred_correct).
  destruct (Qred x) as [[|n|n] d]; try reflexivity;
    unfold Qlt in H; cbn in H; lia.
Qed.

Lemma roundDouble_error (x : Q) :
  0 <= x ->
  x * (1 - u53) <= JS.roundDouble x /\ JS.roundDouble x <= x * (1 + u53).
Proof.
  intros Hx. destruct (Qle_lt_or_eq _ _ Hx) as [Hpos | Hz].
  - rewrite (roundDouble_positive x Hpos).
    assert (H : 0 < Qred x) by (now rewrite Qred_correct).
    destruct (roundPos_error _ H) as [H1 H2].
    pose proof (Qred_correct x) as E. split; lra.
  - rewrite roundDouble_zero by (symmetry; exact Hz).
    rewrite <- Hz. split; lra.
Qed.

Lemma roundDouble_nonneg (x : Q) : 0 <= x -> 0 <= JS.roundDouble x.
Proof.
  intros Hx. destruct (roundDouble_error x Hx) as [H _].
  apply Qle_trans with (x * (1 - u53)); [|exact H].
  apply Qmult_le_0_compat; [exact Hx | lra].
Qed.

(** Rounding is monotone. *)
Lemma roundDouble_mono (x y : Q) :
  0 <= x -> x <= y -> JS.roundDouble x <= JS.roundDouble y.
Proof.
  intros Hx Hxy. destruct (Qle_lt_or_eq _ _ Hx) as [Hpos | Hz].
  - rewrite (roundDouble_positive x Hpos).
    rewrite (roundDouble_positive y) by lra.
    apply roundPos_mono.
    + now rewrite Qred_correct.
    + now rewrite !Qred_correct.
  - rewrite (roundDouble_zero x) by (symmetry; exact Hz).
    apply roundDouble_nonneg. lra.
Qed.


(** Integers up to [2^53] are doubles: rounding leaves them alone. *)
Lemma roundPos_Z (z : Z) :
  (0 < z <= 2 ^ 53)%Z -> JS.roundPos (inject_Z z) == inject_Z z.
Proof.
  intros [Hz Hz53].
  destruct (Z.eq_dec z (2 ^ 53)) as [-> | Hne]; [vm_compute; reflexivity|].
  assert (Hq : 0 < inject_Z z).
  { change 0 with (inject_Z 0). rewrite <- Zlt_Qlt. exact Hz. }
  destruct (exponent_spec _ Hq) as [Lo _].
  destruct (roundPos_spec _ Hq) as (-> & _).
  set (e := JS.exponent (inject_Z z)) in *.
  assert (He : (e < 53)%Z).
  { apply pow2_lt_inv. rewrite (pow2_Z 53) by lia.
    apply Qle_lt_trans with (inject_Z z); [exact Lo|].
    rewrite <- Zlt_Qlt. lia. }
  assert (HV : JS.pow2 (52 - e) == / JS.pow2 (e - 52)).
  { replace (52 - e)%Z with (- (e - 52))%Z by lia. apply Qpower_opp. }
  assert (Hm : inject_Z z / JS.pow2 (e - 52)
               == inject_Z (z * 2 ^ (52 - e))).
  { rewrite inject_Z_mult, <- pow2_Z, HV by lia. reflexivity. }
  rewrite (roundHalfEven_comp _ _ Hm), roundHalfEven_Z.
  rewrite inject_Z_mult, <- pow2_Z, HV by lia.
  field. pose proof (pow2_pos (e - 52)). lra.
Qed.

Lemma roundDouble_opp (x : Q) : JS.roundDouble (- x) == - JS.roundDouble x.
Proof.
  unfold JS.roundDouble. rewrite Qred_opp.
  destruct (Qred x) as [[|n|n] d]; cbn [Qopp Qnum Z.opp]; try reflexivity.
  change (- (Z.neg n # d)) with (Z.pos n # d). 
  symmetry. apply Qopp_involutive.
Qed.

Lemma roundDouble_Z (z : Z) :
  (Z.abs z <= 2 ^ 53)%Z -> JS.roundDouble (inject_Z z) == inject_Z z.
Proof.
  assert (Hpos : forall k, (0 < k <= 2 ^ 53)%Z ->
                           JS.roundDouble (inject_Z k) == inject_Z k).
  { intros k Hk. rewrite roundDouble_positive.
    - rewrite Qcanon.Qred_identity by apply Z.gcd_1_r. now apply roundPos_Z.
    - change 0 with (inject_Z 0). rewrite <- Zlt_Qlt. lia. }
  intros Hz. destruct (Z.lt_trichotomy z 0) as [Hn | [-> | Hp]].
  - assert (E : inject_Z z == - inject_Z (- z)).
    { rewrite inject_Z_opp. symmetry. apply Qopp_involutive. }
    rewrite (roundDouble_comp _ _ E), roundDouble_opp, Hpos by lia.
    symmetry. exact E.
  - reflexivity.
  - apply Hpos. lia.
Qed.

End DoubleRounding.

(** ** Brightness scaling *)

Section Brightness.

Local Notation "'u53'" := (1 # 9007199254740992)%Q.

Lemma Math_round_Z (z : Z) : JS.Math_round (inject_Z z) = z.
Proof.
  unfold JS.Math_round.
  pose proof (Qfloor_le (inject_Z z + (1 # 2))) as Hl.
  pose proof (Qlt_floor (inject_Z z + (1 # 2))) as Hu.
  set (f := Qfloor _) in *.
  assert (H1 : (f <= z)%Z).
  { apply Z.lt_succ_r. rewrite Zlt_Qlt. unfold Z.succ.
    rewrite inject_Z_plus. change (inject_Z 1) with 1%Q. lra. }
  assert (H2 : (z < f + 1)%Z).
  { rewrite Zlt_Qlt. lra. }
  lia.
Qed.

Lemma Math_round_mono (x y : Q) :
  (x <= y)%Q -> JS.Math_round x <= JS.Math_round y.
Proof. intros H. apply Qfloor_resp_le. lra. Qed.

Lemma Math_round_comp (x y : Q) :
  (x == y)%Q -> JS.Math_round x = JS.Math_round y.
Proof. intros H. unfold JS.Math_round. apply Qfloor_comp. lra. Qed.

(** The scale factor [brightness / 100] as the source computes it. *)
Lemma fdiv_100 : JS.fdiv (inject_Z 100) 100 = 1%Q.
Proof. vm_compute. reflexivity. Qed.

Lemma fdiv_0 : JS.fdiv (inject_Z 0) 100 = 0%Q.
Proof. vm_compute. reflexivity. Qed.

Lemma fdiv_mono (p1 p2 : Z) :
  0 <= p1 <= p2 ->
  (0 <= JS.fdiv (inject_Z p1) 100 <= JS.fdiv (inject_Z p2) 100)%Q.
Proof.
  intros [H0 H12]. unfold JS.fdiv.
  assert (Q0 : (0 <= inject_Z p1)%Q).
  { change 0%Q with (inject_Z 0). now rewrite <- Zle_Qle. }
  assert (Q12 : (inject_Z p1 <= inject_Z p2)%Q) by (now rewrite <- Zle_Qle).
  assert (X0 : (0 <= inject_Z p1 / 100)%Q).
  { apply Qle_shift_div_l; [reflexivity | lra]. }
  split.
  - now apply roundDouble_nonneg.
  - apply roundDouble_mono; [exact X0|].
    apply Qmult_le_compat_r; [exact Q12 | discriminate].
Qed.

Lemma fmul_mono (c1 c2 : Z) (s1 s2 : Q) :
  0 <= c1 <= c2 -> (0 <= s1 <= s2)%Q ->
  (0 <= JS.fmul (inject_Z c1) s1 <= JS.fmul (inject_Z c2) s2)%Q.
Proof.
  intros [H0 H12] [S0 S12]. unfold JS.fmul.
  assert (Q0 : (0 <= inject_Z c1)%Q).
  { change 0%Q with (inject_Z 0). now rewrite <- Zle_Qle. }
  assert (Q12 : (inject_Z c1 <= inject_Z c2)%Q) by (now rewrite <- Zle_Qle).
  assert (P0 : (0 <= inject_Z c1 * s1)%Q) by (now apply Qmult_le_0_compat).
  split.
  - now apply roundDouble_nonneg.
  - apply roundDouble_mono; [exact P0|].
    apply Qmult_le_compat_nonneg; split; assumption.
Qed.

Lemma fmul_1 (c : Z) :
  Z.abs c <= 2 ^ 53 -> (JS.fmul (inject_Z c) 1 == inject_Z c)%Q.
Proof.
  intros Hc. unfold JS.fmul.
  rewrite (roundDouble_comp _ (inject_Z c)) by apply Qmult_1_r.
  now apply roundDouble_Z.
Qed.

Lemma scaleChannel_100 (c : Z) :
  Z.abs c <= 2 ^ 53 -> scaleChannel c 100 = c.
Proof.
  intros Hc. unfold scaleChannel. rewrite fdiv_100.
  rewrite (Math_round_comp _ _ (fmul_1 c Hc)). apply Math_round_Z.
Qed.

Lemma scaleChannel_0 (c : Z) : scaleChannel c 0 = 0.
Proof.
  unfold scaleChannel. rewrite fdiv_0. unfold JS.fmul.
  rewrite roundDouble_zero by apply Qmult_0_r. reflexivity.
Qed.

(** A larger channel or a larger percentage never gives a smaller
    result. *)
Lemma scaleChannel_mono (c1 c2 p1 p2 : Z) :
  0 <= c1 <= c2 -> 0 <= p1 <= p2 ->
  0 <= scaleChannel c1 p1 <= scaleChannel c2 p2.
Proof.
  intros Hc Hp. unfold scaleChannel.
  pose proof (fdiv_mono p1 p2 Hp) as Hs.
  pose proof (fmul_mono c1 c2 _ _ Hc Hs) as [Hy0 Hy].
  split.
  - change 0 with (JS.Math_round 0). now apply Math_round_mono.
  - now apply Math_round_mono.
Qed.

(** The double product stays within 1/400 of the exact one (the
    inequalities are scaled by 100). *)
Lemma fmul_fdiv_near (c p : Z) :
  0 <= c < 256 -> 0 <= p <= 12800 ->
  let y := JS.fmul (inject_Z c) (JS.fdiv (inject_Z p) 100) in
  (inject_Z (c * p) - (1 # 4) <= 100 * y
   /\ 100 * y <= inject_Z (c * p) + (1 # 4))%Q.
Proof.
  intros Hc Hp y. subst y. unfold JS.fmul, JS.fdiv.
  assert (QC : (0 <= inject_Z c <= 255)%Q).
  { change 0%Q with (inject_Z 0). change 255%Q with (inject_Z 255).
    rewrite <- !Zle_Qle. lia. }
  assert (QP : (0 <= inject_Z p <= 12800)%Q).
  { change 0%Q with (inject_Z 0). change 12800%Q with (inject_Z 12800).
    rewrite <- !Zle_Qle. lia. }
  set (x := (inject_Z p / 100)%Q).
  assert (HX : (x * 100 == inject_Z p)%Q) by (unfold x; field).
  assert (X0 : (0 <= x)%Q) by lra.
  destruct (roundDouble_error x X0) as [S1 S2].
  pose proof (roundDouble_nonneg x X0) as S0.
  set (s := JS.roundDouble x) in *.
  assert (Z0 : (0 <= inject_Z c * s)%Q)
    by (apply Qmult_le_0_compat; lra).
  destruct (roundDouble_error _ Z0) as [Y1 Y2].
  set (y := JS.roundDouble (inject_Z c * s)) in *.
  assert (T1 : (inject_Z c * (x * (1 - u53)) <= inject_Z c * s)%Q).
  { rewrite !(Qmult_comm (inject_Z c)).
    apply Qmult_le_compat_r; lra. }
  assert (T2 : (inject_Z c * s <= inject_Z c * (x * (1 + u53)))%Q).
  { rewrite !(Qmult_comm (inject_Z c)).
    apply Qmult_le_compat_r; lra. }
  assert (T3 : (inject_Z c * x <= 255 * 128)%Q).
  { apply Qmult_le_compat_nonneg; lra. }
  assert (T0 : (0 <= inject_Z c * x)%Q)
    by (apply Qmult_le_0_compat; lra).
  assert (HN : (inject_Z (c * p) == 100 * (inject_Z c * x))%Q).
  { rewrite inject_Z_mult. unfold x. field. }
  rewrite HN. split; lra.
Qed.

(** [Math.round] of the double product against the half-up rounding of
    the exact product: equal, except that an exact tie may come out one
    lower. *)
Lemma scaleChannel_near (c p : Z) :
  0 <= c < 256 -> 0 <= p <= 12800 ->
  (2 * c * p + 100) / 200 - 1 <= scaleChannel c p <= (2 * c * p + 100) / 200
  /\ ((2 * c * p + 100) mod 200 <> 0 ->
      scaleChannel c p = (2 * c * p + 100) / 200).
Proof.
  intros Hc Hp.
  destruct (fmul_fdiv_near c p Hc Hp) as [Y1 Y2].
  unfold scaleChannel, JS.Math_round.
  set (y := JS.fmul _ _) in *.
  pose proof (Qfloor_le (y + (1 # 2))) as Hl.
  pose proof (Qlt_floor (y + (1 # 2))) as Hu.
  set (f := Qfloor _) in *.
  set (n := c * p) in *.
  rewrite inject_Z_plus in Hu. change (inject_Z 1) with 1%Q in Hu.
  assert (H1 : 400 * f <= 4 * n + 201).
  { rewrite Zle_Qle, inject_Z_plus, !inject_Z_mult.
    change (inject_Z 400) with 400%Q. change (inject_Z 4) with 4%Q.
    change (inject_Z 201) with 201%Q. lra. }
  assert (H2 : 4 * n + 199 < 400 * (f + 1)).
  { rewrite Zlt_Qlt, inject_Z_plus, !inject_Z_mult, inject_Z_plus.
    change (inject_Z 400) with 400%Q. change (inject_Z 4) with 4%Q.
    change (inject_Z 199) with 199%Q. change (inject_Z 1) with 1%Q. lra. }
  replace (2 * c * p) with (2 * n) by (unfold n; lia).
  pose proof (Z.div_mod (2 * n + 100) 200 ltac:(lia)) as Hd.
  pose proof (Z.mod_pos_bound (2 * n + 100) 200 ltac:(lia)) as Hm.
  split; [|intros Hne]; lia.
Qed.

Lemma scaleChannel_range (c p : Z) :
  0 <= c < 256 -> 0 <= p <= 12800 -> 0 <= scaleChannel c p < 2 ^ 15.
Proof.
  intros Hc Hp.
  destruct (scaleChannel_mono c 255 p 12800 ltac:(lia) ltac:(lia)) as [H0 H1].
  assert (E : scaleChannel 255 12800 = 32640) by (vm_compute; reflexivity).
  lia.
Qed.

(** The fields of an unmasked packed word: each channel's bits from
    position 8 up land in the next field. *)
Lemma packed_fields (r g b : Z) :
  0 <= r < 2 ^ 15 -> 0 <= g < 2 ^ 15 -> 0 <= b < 2 ^ 15 ->
  let w := Z.lor (Z.lor (Z.shiftl b 16) (Z.shiftl g 8)) r in
  Z.land w 255 = Z.land r 255 /\
  Z.land (Z.shiftr w 8) 255 = Z.land (Z.lor g (Z.shiftr r 8)) 255 /\
  Z.land (Z.shiftr w 16) 255 = Z.land (Z.lor b (Z.shiftr g 8)) 255 /\
  Z.shiftr w 24 = Z.shiftr b 8.
Proof.
  intros Hr Hg Hb w. subst w.
  change 255 with (Z.ones 8).
  repeat split; apply Z.bits_inj'; intros n Hn;
    rewrite ?Z.land_spec, ?Z.shiftr_spec, ?Z.lor_spec, ?Z.shiftr_spec,
      ?Z.shiftl_spec by lia.
  - destruct (Z.lt_ge_cases n 8).
    + rewrite (Z.testbit_neg_r b), (Z.testbit_neg_r g) by lia. reflexivity.
    + rewrite Z.ones_spec_high by lia. now rewrite !andb_false_r.
  - destruct (Z.lt_ge_cases n 8).
    + rewrite (Z.testbit_neg_r b) by lia.
      replace (n + 8 - 8) with n by lia. reflexivity.
    + rewrite Z.ones_spec_high by lia. now rewrite !andb_false_r.
  - replace (n + 16 - 16) with n by lia.
    replace (n + 16 - 8) with (n + 8) by lia.
    rewrite (testbit_above r 15 (n + 16)) by lia.
    now rewrite orb_false_r.
  - replace (n + 24 - 16) with (n + 8) by lia.
    rewrite (testbit_above r 15 (n + 24)),
      (testbit_above g 15 (n + 24 - 8)) by lia.
    now rewrite !orb_false_r.
Qed.

Lemma applyBrightness_map (pd : PixelData) (brightness : Z) :
  applyBrightness pd brightness =
  map (fun p => scaledPixel p brightness) (pixels pd).
Proof. reflexivity. Qed.

(** Above 100 percent the result is the half-up rounding of the exact
    product, or one less at a tie, and never below the channel. *)
Lemma scaleChannel_brightened (c p : Z) :
  0 <= c < 256 -> 100 <= p <= 12800 -> brightened c p (scaleChannel c p).
Proof.
  intros Hc Hp. unfold brightened, halfUp, isTie.
  destruct (scaleChannel_near c p Hc ltac:(lia)) as [Hn He].
  split; [exact Hn | split; [exact He|]].
  destruct (scaleChannel_mono c c 100 p ltac:(lia) ltac:(lia)) as [_ H].
  rewrite scaleChannel_100 in H by lia. exact H.
Qed.

(** C7, as the code has it. For 8-bit samples and a brightness percent
    above 100 (up to 12800, where the 32-bit shift starts to wrap), each
    scaled channel is the result of [Math.round] on the double product,
    with no clamp: the half-up rounding of [c * percent / 100], or one
    less when that product is an exact tie, and never less than the
    channel itself.  The packed word is the OR of the shifted, unmasked
    scaled channels: the bits of a channel at 256 and above are kept and
    fall into the next field, and bits 24-31 of the word are the bits of
    the scaled blue channel from position 8 up. *)
Theorem brightness_overflow_unmasked
  (pd : PixelData) (brightness : Z) (p' : Pixel) :
  (forall p, In p (pixels pd) ->
             0 <= r p < 256 /\ 0 <= g p < 256 /\ 0 <= b p < 256) ->
  100 < brightness <= 12800 ->
  In p' (applyBrightness pd brightness) ->
  exists p, In p (pixels pd) /\
    brightened (r p) brightness (r p') /\
    brightened (g p) brightness (g p') /\
    brightened (b p) brightness (b p') /\
    a p' = a p /\
    dword p' = Z.lor (Z.lor (Z.shiftl (b p') 16) (Z.shiftl (g p') 8)) (r p') /\
    Z.land (dword p') 255 = Z.land (r p') 255 /\
    Z.land (Z.shiftr (dword p') 8) 255
      = Z.land (Z.lor (g p') (Z.shiftr (r p') 8)) 255 /\
    Z.land (Z.shiftr (dword p') 16) 255
      = Z.land (Z.lor (b p') (Z.shiftr (g p') 8)) 255 /\
    Z.shiftr (dword p') 24 = Z.shiftr (b p') 8.
Proof.
  intros H8 Hbr Hin.
  rewrite applyBrightness_map in Hin.
  apply in_map_iff in Hin. destruct Hin as (p & <- & Hp).
  exists p. destruct (H8 p Hp) as (Hr & Hg & Hb).
  pose proof (scaleChannel_range (r p) brightness Hr ltac:(lia)) as Rr.
  pose proof (scaleChannel_range (g p) brightness Hg ltac:(lia)) as Rg.
  pose proof (scaleChannel_range (b p) brightness Hb ltac:(lia)) as Rb.
  pose proof (packed_fields _ _ _ Rr Rg Rb) as (F0 & F1 & F2 & F3).
  cbn [scaledPixel r g b a dword].
  rewrite (rgbToDword_lor _ _ _ Rr Rg Rb).
  split; [exact Hp|].
  split; [apply scaleChannel_brightened; lia|].
  split; [apply scaleChannel_brightened; lia|].
  split; [apply scaleChannel_brightened; lia|].
  repeat split; assumption.
Qed.

Lemma brightness_overflow_unmasked_witness :
  exists p, In p [toPixel 0 0 255 255] /\
    Z.shiftr (dword (scaledPixel (toPixel 0 0 255 255) 200)) 24
      = Z.shiftr (b (scaledPixel (toPixel 0 0 255 255) 200)) 8.
Proof.
  destruct (brightness_overflow_unmasked
              (mkPixelData 1 1 [toPixel 0 0 255 255]) 200
              (scaledPixel (toPixel 0 0 255 255) 200))
    as (p & Hp & _ & _ & _ & _ & _ & _ & _ & _ & H).
  - intros p [<-|[]]. cbn. lia.
  - lia.
  - left. reflexivity.
  - exists p. split; [exact Hp | exact H].
Defined.

(** C7, as stated, fails: a full blue channel at 200 percent scales to
    510 and sets bit 24 of the packed word. *)
Lemma brightness_overflow_reaches_high_byte :
  map dword (applyBrightness (mkPixelData 1 1 [toPixel 0 0 255 255]) 200)
    = [33423360] /\
  Z.shiftr 33423360 24 = 1 /\
  ~ (forall p', In p' (applyBrightness
                         (mkPixelData 1 1 [toPixel 0 0 255 255]) 200) ->
                Z.shiftr (dword p') 24 = 0).
Proof.
  split; [vm_compute; reflexivity | split; [reflexivity |]].
  intros H. specialize (H (scaledPixel (toPixel 0 0 255 255) 200)).
  assert (Hin : In (scaledPixel (toPixel 0 0 255 255) 200)
                   (applyBrightness
                      (mkPixelData 1 1 [toPixel 0 0 255 255]) 200))
    by (left; reflexivity).
  apply H in Hin. vm_compute in Hin. discriminate Hin.
Qed.

End Brightness.

(** ** Crop geometry *)

Section CropGeometry.

Import SequenceHandler.

(** The source rectangle used for reprocessing does not depend on the
    crop offsets at all. *)
Lemma reprocessFrames_sourceRect_offset_free
  (frame : Frame) (tw th : Z) (mode : string) (ox oy ox' oy' : Z) :
  reprocessFrames_sourceRect frame tw th mode ox oy
  = reprocessFrames_sourceRect frame tw th mode ox' oy'.
Proof. reflexivity. Qed.

(** The rectangle the resize uses always lies inside the source. *)
Lemma processImageWithResize_sourceRect_in_bounds
  (image : Image) (tw th : Z) (mode : string) :
  0 <= img_width image -> 0 <= img_height image ->
  let rect := processImageWithResize_sourceRect image tw th mode in
  0 <= sx rect <= img_width image - sWidth rect /\
  0 <= sy rect <= img_height image - sHeight rect.
Proof.
  intros Hw Hh. unfold processImageWithResize_sourceRect.
  destruct (String.eqb mode "crop-top");
    [|destruct (String.eqb mode "crop-bottom");
      [|destruct (String.eqb mode "crop-center")]];
    cbn [sx sy sWidth sHeight];
    repeat split; try lia;
    try (apply Z.div_pos; lia);
    try (apply Z.div_le_upper_bound; lia).
Qed.

(** The preview overlay, by contrast, applies the offsets to the origin
    of the crop rectangle and clamps it into the source. *)
Lemma drawCropOverlay_region_offsets
  (fw fh : Z) (ow oh : JS.num) (mode : string) (ox oy : Z) :
  0 <= fw -> 0 <= fh ->
  mode = "crop-top"%string \/ mode = "crop-bottom"%string
    \/ mode = "crop-center"%string ->
  exists rect,
    drawCropOverlay_region fw fh ow oh mode ox oy = Some rect /\
    sWidth rect = Z.min (parsedOr ow fw) fw /\
    sHeight rect = Z.min (parsedOr oh fh) fh /\
    0 <= sx rect <= fw - sWidth rect /\
    0 <= sy rect <= fh - sHeight rect /\
    (mode = "crop-top"%string ->
       sx rect = Z.max 0 (Z.min ox (fw - sWidth rect)) /\
       sy rect = Z.max 0 (Z.min oy (fh - sHeight rect))) /\
    (mode = "crop-bottom"%string ->
       sx rect = Z.max 0 (Z.min ox (fw - sWidth rect)) /\
       sy rect = Z.max 0 (Z.min (Z.max 0 (fh - sHeight rect) + oy)
                                (fh - sHeight rect))) /\
    (mode = "crop-center"%string ->
       sx rect = Z.max 0 (Z.min ((fw - sWidth rect) / 2 + ox)
                                (fw - sWidth rect)) /\
       sy rect = Z.max 0 (Z.min ((fh - sHeight rect) / 2 + oy)
                                (fh - sHeight rect))).
Proof.
  intros Hw Hh [-> | [-> | ->]]; eexists; (split; [reflexivity|]);
    cbn [sx sy sWidth sHeight];
    repeat split; try lia; try discriminate.
Qed.

(** C2 on the code: with a 4x4 source, a 2x2 target, mode [crop-top] and
    offsets (1, 1), the rectangle used for the exported pixels starts at
    (0, 0), while the claim (and the preview overlay drawn over the 4x4
    frame, its two size inputs reading 2) put it at (1, 1). *)
Theorem reprocess_drops_crop_offset :
  reprocessFrames_sourceRect frame4x4 2 2 "crop-top" 1 1
    = mkSourceRect 0 0 2 2 /\
  drawCropOverlay_region 4 4 (JS.Num 2) (JS.Num 2) "crop-top" 1 1
    = Some (mkSourceRect 1 1 2 2) /\
  sx (reprocessFrames_sourceRect frame4x4 2 2 "crop-top" 1 1) <> 1.
Proof.
  repeat split; try reflexivity. cbn. lia.
Qed.

End CropGeometry.

(** ** Name sanitising *)

Section SanitizeNameFacts.

Variable toUpperCase : ustring -> ustring.

(** Upper-casing leaves a string of upper-case letters, digits and
    underscores as it is. *)
Hypothesis toUpperCase_name :
  forall s, Forall (fun c => isNameChar c = true) s -> toUpperCase s = s.

Lemma replaceNonNameChars_charset (s : ustring) :
  Forall (fun c => isNameChar c = true) (replaceNonNameChars s).
Proof.
  unfold replaceNonNameChars. apply Forall_map, Forall_forall.
  intros c _. destruct (isNameChar c) eqn:E; [exact E | reflexivity].
Qed.

Lemma replaceNonNameChars_fixed (s : ustring) :
  Forall (fun c => isNameChar c = true) s -> replaceNonNameChars s = s.
Proof.
  induction 1 as [|c s Hc _ IH]; [reflexivity|].
  unfold replaceNonNameChars in *. cbn [map]. rewrite Hc, IH. reflexivity.
Qed.

Lemma isNameChar_spec (c : N) :
  isNameChar c = true <->
  (65 <= c <= 90 \/ 48 <= c <= 57 \/ c = 95)%N.
Proof.
  unfold isNameChar.
  rewrite !orb_true_iff, !andb_true_iff, !N.leb_le, N.eqb_eq. tauto.
Qed.

(** C9. Every code unit of [sanitizeName s] is one of [A-Z], [0-9] or
    [_]: the result is the upper-cased string with every other code unit
    replaced by an underscore; and sanitising a sanitised name changes
    nothing. *)
Theorem sanitizeName_charset_idempotent (s : ustring) :
  sanitizeName toUpperCase s
    = map (fun c => if isNameChar c then c else 95%N) (toUpperCase s) /\
  Forall (fun c => (65 <= c <= 90 \/ 48 <= c <= 57 \/ c = 95)%N)
         (sanitizeName toUpperCase s) /\
  sanitizeName toUpperCase (sanitizeName toUpperCase s)
    = sanitizeName toUpperCase s.
Proof.
  split; [reflexivity|]. split.
  - eapply Forall_impl; [|apply replaceNonNameChars_charset].
    intros c Hc. apply isNameChar_spec, Hc.
  - unfold sanitizeName at 1.
    rewrite toUpperCase_name by apply replaceNonNameChars_charset.
    apply replaceNonNameChars_fixed, replaceNonNameChars_charset.
Qed.

End SanitizeNameFacts.

Lemma asciiToUpperCase_name (s : ustring) :
  Forall (fun c => isNameChar c = true) s -> asciiToUpperCase s = s.
Proof.
  induction 1 as [|c s Hc _ IH]; [reflexivity|].
  unfold asciiToUpperCase in *. cbn [map]. rewrite IH. f_equal.
  apply isNameChar_spec in Hc.
  destruct ((97 <=? c) && (c <=? 122))%N eqn:E; [|reflexivity].
  apply andb_true_iff in E. rewrite !N.leb_le in E. lia.
Qed.

(** "led-1a" sanitises to "LED_1A". *)
Lemma sanitizeName_charset_idempotent_witness :
  sanitizeName asciiToUpperCase [108; 101; 100; 45; 49; 97]%N
    = [76; 69; 68; 95; 49; 65]%N /\
  sanitizeName asciiToUpperCase
    (sanitizeName asciiToUpperCase [108; 101; 100; 45; 49; 97]%N)
    = sanitizeName asciiToUpperCase [108; 101; 100; 45; 49; 97]%N.
Proof.
  split; [reflexivity|].
  apply (sanitizeName_charset_idempotent asciiToUpperCase
           asciiToUpperCase_name [108; 101; 100; 45; 49; 97]%N).
Defined.

(** ** Playback controller *)

Import FrameManager.

Section Bounce.

Context {Frame : Type}.

(** C3, as the code has it. With exactly 3 frames, index 0 and direction
    +1 under the ping-pong discipline, the indices observed after each of
    6 successive ticks are 1, 2, 1, 0, 1, 2. *)
Theorem bounce_trace_three_frames (s : State Frame) :
  List.length (frames (fields s)) = 3%nat ->
  loopMode (fields s) = "pingpong"%string ->
  currentFrame (fields s) = JS.Num 0 ->
  direction (fields s) = 1 ->
  indexTrace 6 s
  = [JS.Num 1; JS.Num 2; JS.Num 1; JS.Num 0; JS.Num 1; JS.Num 2].
Proof.
  destruct s as [[fr cur f lm pl dir tm] e].
  cbn [fields fst frames loopMode currentFrame direction].
  intros Hlen -> -> ->.
  destruct fr as [|f1 [|f2 [|f3 [|f4 fr]]]]; try discriminate Hlen.
  reflexivity.
Qed.

End Bounce.

Lemma bounce_trace_three_frames_witness :
  indexTrace 6 bounce3
  = [JS.Num 1; JS.Num 2; JS.Num 1; JS.Num 0; JS.Num 1; JS.Num 2].
Proof.
  apply (bounce_trace_three_frames bounce3); reflexivity.
Defined.

(** C3, as stated, fails: the trace is not 1, 2, 2, 1, 0, 0. *)
Lemma bounce_trace_is_not_1_2_2_1_0_0 :
  List.length (frames (fields bounce3)) = 3%nat /\
  currentFrame (fields bounce3) = JS.Num 0 /\
  direction (fields bounce3) = 1 /\
  indexTrace 6 bounce3
    <> [JS.Num 1; JS.Num 2; JS.Num 2; JS.Num 1; JS.Num 0; JS.Num 0].
Proof.
  repeat split. vm_compute. discriminate.
Qed.

Section EmptySequence.

Context {Frame : Type}.

(** C10. On an empty sequence, with a numeric current index,
    [previousFrame] changes nothing at all, while [nextFrame] stores
    [NaN] as the current index and emits a frame-change notification that
    carries [NaN]; the index is then not within the sequence. *)
Theorem empty_sequence_navigation (s : State Frame) (k : Z) :
  frames (fields s) = [] ->
  currentFrame (fields s) = JS.Num k ->
  previousFrame s = s /\
  JS.rem (JS.add (currentFrame (fields s)) (JS.Num 1))
         (JS.Num (frameCount s)) = JS.NaN /\
  (JS.lt JS.NaN (JS.Num 0) || JS.ge JS.NaN (JS.Num (frameCount s))) = false /\
  currentFrame (fields (nextFrame s)) = JS.NaN /\
  emitted (env (nextFrame s))
    = emitted (env s) ++ [frameChange JS.NaN] /\
  ~ indexInRange (nextFrame s).
Proof.
  destruct s as [[fr cur f lm pl dir tm] e].
  cbn [fields fst frames currentFrame]. intros -> ->.
  assert (Hprev : previousFrame
                    (mkFields (@nil Frame) (JS.Num k) f lm pl dir tm, e)
                  = (mkFields (@nil Frame) (JS.Num k) f lm pl dir tm, e)).
  { unfold previousFrame, goToFrame, frameCount.
    cbn [fields fst frames currentFrame List.length Z.of_nat JS.add].
    destruct (JS.lt (JS.Num (k + -1)) (JS.Num 0)) eqn:E.
    - reflexivity.
    - cbn [JS.lt JS.ge JS.le] in *. rewrite E. cbn [orb].
      apply Z.ltb_ge in E.
      replace (0 <=? k + -1) with true by (symmetry; apply Z.leb_le; lia).
      reflexivity. }
  repeat split; try assumption; try reflexivity.
  intros (i & Hi & _). discriminate Hi.
Qed.

(** Once the index is [NaN], [previousFrame] passes the guard as well:
    it stores [NaN] again and emits another notification. *)
Lemma previousFrame_after_NaN (s : State Frame) :
  currentFrame (fields s) = JS.NaN ->
  previousFrame s = emit (frameChange JS.NaN) s.
Proof.
  destruct s as [[fr cur f lm pl dir tm] e].
  cbn [fields fst currentFrame]. intros ->. reflexivity.
Qed.

End EmptySequence.

Lemma empty_sequence_navigation_witness :
  previousFrame (@init unit) = init /\
  currentFrame (fields (nextFrame (@init unit))) = JS.NaN.
Proof.
  destruct (empty_sequence_navigation (@init unit) 0 eq_refl eq_refl)
    as (H1 & _ & _ & H4 & _).
  exact (conj H1 H4).
Defined.

Section Timers.

Context {Frame : Type}.
Implicit Types s : State Frame.

Ltac open_state s :=
  destruct s as [[fr cur f lm pl dir tm] [ts nh em]].

Ltac reduce_state :=
  cbn [fields env fst snd frames currentFrame fps loopMode playing
       direction animationTimer timers nextHandle emitted
       set_frames set_currentFrame set_fps set_loopMode set_playing
       set_direction set_animationTimer emit setInterval clearInterval
       negb handle timer_fps] in *.

Lemma timerInvariant_init : timerInvariant (@init Frame).
Proof. split; [reflexivity | reflexivity]. Qed.

(** Assignments to fields other than [playing] and [animationTimer], and
    emitted notifications, do not touch the invariant. *)
Lemma timerInvariant_set_frames s l :
  timerInvariant s -> timerInvariant (set_frames l s).
Proof. open_state s. exact (fun H => H). Qed.

Lemma timerInvariant_set_currentFrame s i :
  timerInvariant s -> timerInvariant (set_currentFrame i s).
Proof. open_state s. exact (fun H => H). Qed.

Lemma timerInvariant_set_direction s d :
  timerInvariant s -> timerInvariant (set_direction d s).
Proof. open_state s. exact (fun H => H). Qed.

Lemma timerInvariant_set_loopMode s m :
  timerInvariant s -> timerInvariant (set_loopMode m s).
Proof. open_state s. exact (fun H => H). Qed.

Lemma timerInvariant_emit s e :
  timerInvariant s -> timerInvariant (emit e s).
Proof. open_state s. exact (fun H => H). Qed.

Lemma timerInvariant_set_fps s n :
  timerInvariant s -> timerInvariant (set_fps n s).
Proof. open_state s. exact (fun H => H). Qed.

(** [stop] clears the one live interval. *)
Lemma timerInvariant_stop s :
  timerInvariant s ->
  timerInvariant (stop s) /\ playing (fields (stop s)) = false.
Proof.
  open_state s. unfold timerInvariant, stop. reduce_state.
  destruct pl; reduce_state; intros [Hn H].
  - destruct H as (h & f' & -> & -> & Hh). reduce_state.
    destruct (h =? 0) eqn:E; [apply Z.eqb_eq in E; lia|].
    reduce_state. cbn [filter handle]. rewrite Z.eqb_refl.
    cbn [negb]. repeat split; assumption.
  - repeat split; assumption.
Qed.

(** [play] registers an interval only when none is live. *)
Lemma timerInvariant_play s :
  timerInvariant s -> timerInvariant (play s).
Proof.
  open_state s. unfold timerInvariant, play.
  destruct (frameCount _ =? 0); [exact (fun H => H)|].
  reduce_state. destruct pl; [exact (fun H => H)|].
  reduce_state. intros [Hn ->]. split; [lia|].
  exists nh, f. cbn [app]. repeat split; lia.
Qed.

Lemma timerInvariant_setFrames s l :
  timerInvariant s -> timerInvariant (setFrames l s).
Proof.
  intros H. unfold setFrames.
  apply timerInvariant_stop, timerInvariant_set_currentFrame,
    timerInvariant_set_frames, H.
Qed.

Lemma timerInvariant_setFPS s n :
  timerInvariant s -> timerInvariant (setFPS n s).
Proof.
  intros H. unfold setFPS.
  destruct (playing (fields (set_fps n s))).
  - apply timerInvariant_play, timerInvariant_stop,
      timerInvariant_set_fps, H.
  - apply timerInvariant_set_fps, H.
Qed.

Lemma timerInvariant_setLoopMode s m :
  timerInvariant s -> timerInvariant (setLoopMode m s).
Proof.
  intros H.
  apply timerInvariant_set_direction, timerInvariant_set_loopMode, H.
Qed.

Lemma timerInvariant_advanceFrame s :
  timerInvariant s -> timerInvariant (advanceFrame s).
Proof.
  intros H. unfold advanceFrame. apply timerInvariant_emit.
  repeat match goal with
         | |- timerInvariant (if ?c then _ else _) => destruct c
         end;
    auto using timerInvariant_set_currentFrame, timerInvariant_set_direction.
  apply timerInvariant_stop, H.
Qed.

Lemma timerInvariant_goToFrame s i :
  timerInvariant s -> timerInvariant (goToFrame i s).
Proof.
  intros H. unfold goToFrame.
  destruct (_ || _); [exact H|].
  apply timerInvariant_emit, timerInvariant_set_currentFrame, H.
Qed.

Lemma timerInvariant_destroy s :
  timerInvariant s -> timerInvariant (destroy s).
Proof.
  intros H. apply timerInvariant_set_frames, timerInvariant_stop, H.
Qed.

(** Every public operation preserves the invariant. *)
Lemma timerInvariant_run (c : Call Frame) s :
  timerInvariant s -> timerInvariant (run c s).
Proof.
  intros H. destruct c; cbn [run].
  - apply timerInvariant_setFrames, H.
  - apply timerInvariant_setFPS, H.
  - apply timerInvariant_setLoopMode, H.
  - apply timerInvariant_play, H.
  - apply timerInvariant_stop, H.
  - apply timerInvariant_advanceFrame, H.
  - apply timerInvariant_goToFrame, H.
  - apply timerInvariant_goToFrame, H.
  - apply timerInvariant_goToFrame, H.
  - apply timerInvariant_destroy, H.
Qed.

Lemma reachable_timerInvariant s : reachable s -> timerInvariant s.
Proof.
  induction 1 as [|c s _ IH].
  - apply timerInvariant_init.
  - apply timerInvariant_run, IH.
Qed.

Lemma timerInvariant_count s :
  timerInvariant s -> (List.length (timers (env s)) <= 1)%nat.
Proof.
  intros [_ H]. destruct (playing (fields s)).
  - destruct H as (h & f & _ & -> & _). cbn. lia.
  - rewrite H. cbn. lia.
Qed.

(** [play] on a playing manager, or on one without frames, returns the
    state unchanged. *)
Lemma play_noop s :
  playing (fields s) = true \/ frames (fields s) = [] -> play s = s.
Proof.
  unfold play, frameCount. intros [H | H]; rewrite H.
  - destruct (_ =? 0); reflexivity.
  - reflexivity.
Qed.

(** C5. In every reachable state at most one interval is live (one
    exactly while playing, none while stopped); [play] on a manager that
    is playing or has no frames changes nothing, so registers nothing;
    and after any further public call there is still at most one. *)
Theorem one_timer_per_manager s :
  reachable s ->
  (List.length (timers (env s)) <= 1)%nat /\
  (playing (fields s) = false -> timers (env s) = []) /\
  (playing (fields s) = true ->
     exists h f, animationTimer (fields s) = Some h /\
                 timers (env s) = [mkTimer h f]) /\
  (playing (fields s) = true \/ frames (fields s) = [] ->
     play s = s /\ timers (env (play s)) = timers (env s)) /\
  (forall c : Call Frame,
     timerInvariant (run c s) /\
     (List.length (timers (env (run c s))) <= 1)%nat).
Proof.
  intros Hr. pose proof (reachable_timerInvariant s Hr) as Hinv.
  split; [apply timerInvariant_count, Hinv|].
  split; [|split; [|split]].
  - intros Hp. destruct Hinv as [_ H]. rewrite Hp in H. exact H.
  - intros Hp. destruct Hinv as [_ H]. rewrite Hp in H.
    destruct H as (h & f & H1 & H2 & _). exists h, f. split; assumption.
  - intros H. rewrite (play_noop s H). split; reflexivity.
  - intros c. pose proof (timerInvariant_run c s Hinv) as H.
    split; [exact H | apply timerInvariant_count, H].
Qed.

End Timers.

Lemma one_timer_per_manager_witness :
  (List.length (timers (env playing2)) <= 1)%nat /\
  play playing2 = playing2.
Proof.
  assert (Hr : reachable playing2).
  { apply (reachable_run call_play), (reachable_run (call_setFrames [tt; tt])),
      reachable_init. }
  destruct (one_timer_per_manager playing2 Hr) as (H1 & _ & _ & H4 & _).
  split; [exact H1|].
  apply H4. left. reflexivity.
Defined.

Section Once.

Context {Frame : Type}.
Implicit Types s : State Frame.

(** [stop] always leaves the manager stopped, at the same index. *)
Lemma stop_fields s :
  playing (fields (stop s)) = false /\
  currentFrame (fields (stop s)) = currentFrame (fields s).
Proof.
  destruct s as [[fr cur f lm pl dir tm] e]. unfold stop.
  cbn [fields fst playing negb].
  destruct pl; cbn [negb]; [|split; reflexivity].
  unfold set_playing, emit, fields, env. cbn [fst snd animationTimer].
  destruct tm as [h|]; [destruct (h =? 0)|]; split; reflexivity.
Qed.

(** Under the once discipline a tick below the last index only moves the
    index (and emits the notification). *)
Lemma once_tick_inside
  (fr : list Frame) (j f : Z) (pl : bool) (dir : Z) (tm : option Z)
  (e : Env) :
  j < Z.of_nat (List.length fr) - 1 ->
  advanceFrame (mkFields fr (JS.Num j) f "once" pl dir tm, e)
  = (mkFields fr (JS.Num (j + 1)%Z) f "once" pl dir tm,
     mkEnv (timers e) (nextHandle e)
           (emitted e ++ [frameChange (JS.Num (j + 1)%Z)])).
Proof.
  intros Hj. unfold advanceFrame, frameCount.
  cbn [fields env fst snd frames currentFrame loopMode String.eqb
       Ascii.eqb Bool.eqb JS.add JS.lt].
  replace (j <? Z.of_nat (List.length fr) + -1) with true
    by (symmetry; apply Z.ltb_lt; lia).
  reflexivity.
Qed.

(** At the last index (or beyond) a tick stops the manager and leaves the
    index alone. *)
Lemma once_tick_end
  (fr : list Frame) (j f : Z) (pl : bool) (dir : Z) (tm : option Z)
  (e : Env) :
  Z.of_nat (List.length fr) - 1 <= j ->
  advanceFrame (mkFields fr (JS.Num j) f "once" pl dir tm, e)
  = emit (frameChange (JS.Num j))
         (stop (mkFields fr (JS.Num j) f "once" pl dir tm, e)).
Proof.
  intros Hj. unfold advanceFrame, frameCount.
  cbn [fields env fst snd frames currentFrame loopMode String.eqb
       Ascii.eqb Bool.eqb JS.add JS.lt].
  replace (j <? Z.of_nat (List.length fr) + -1) with false
    by (symmetry; apply Z.ltb_ge; lia).
  f_equal. f_equal. unfold stop. cbn [fields fst playing negb].
  destruct pl; cbn [negb]; [|reflexivity].
  cbn [set_playing emit fields env fst snd animationTimer].
  destruct tm as [h|]; [destruct (h =? 0)|]; reflexivity.
Qed.

(** [k] ticks that stay below the last index: the index advances by [k],
    every other field and the interval table are untouched. *)
Lemma once_ticks_inside
  (fr : list Frame) (f : Z) (pl : bool) (dir : Z) (tm : option Z)
  (ts : list Timer) (nh : Z) (k : nat) :
  forall (j : Z) (em : list Event),
    j + Z.of_nat k <= Z.of_nat (List.length fr) - 1 ->
    exists em',
      ticks k (mkFields fr (JS.Num j) f "once" pl dir tm, mkEnv ts nh em)
      = (mkFields fr (JS.Num (j + Z.of_nat k)) f "once" pl dir tm,
         mkEnv ts nh em').
Proof.
  induction k as [|k IH]; intros j em Hk.
  - exists em. cbn [ticks]. rewrite Z.add_0_r. reflexivity.
  - cbn [ticks]. rewrite once_tick_inside by lia.
    cbn [timers nextHandle emitted].
    destruct (IH (j + 1) (em ++ [frameChange (JS.Num (j + 1)%Z)])
                ltac:(lia)) as (em' & E).
    exists em'. rewrite E. do 3 f_equal. lia.
Qed.

(** C4, as the code has it. Under the once discipline, started from
    index 0 over [N >= 1] frames: after any [k <= N-1] ticks the index is
    [k] and the manager is still playing with its interval live (so after
    exactly [N-1] ticks the index is [N-1] and the manager is still
    playing); the [N]-th tick stops it with the index still [N-1] and no
    interval left.  From that state [play()] is not a no-op: the manager
    is playing again on a fresh interval, and the next tick stops it
    again without moving the index. *)
Theorem once_runs_to_end_then_stops (s : State Frame) (N : nat) :
  List.length (frames (fields s)) = N -> (1 <= N)%nat ->
  loopMode (fields s) = "once"%string ->
  currentFrame (fields s) = JS.Num 0 ->
  playing (fields s) = false ->
  timers (env s) = [] -> 0 < nextHandle (env s) ->
  let s0 := play s in
  let h := nextHandle (env s) in
  let live := [mkTimer h (fps (fields s))] in
  (forall k : nat, (k <= N - 1)%nat ->
     playing (fields (ticks k s0)) = true /\
     currentFrame (fields (ticks k s0)) = JS.Num (Z.of_nat k) /\
     timers (env (ticks k s0)) = live) /\
  let sN := ticks N s0 in
  playing (fields sN) = false /\
  currentFrame (fields sN) = JS.Num (Z.of_nat N - 1) /\
  timers (env sN) = [] /\
  play sN <> sN /\
  playing (fields (play sN)) = true /\
  timers (env (play sN)) = [mkTimer (h + 1) (fps (fields s))] /\
  playing (fields (advanceFrame (play sN))) = false /\
  currentFrame (fields (advanceFrame (play sN))) = JS.Num (Z.of_nat N - 1).
Proof.
  destruct s as [[fr cur f lm pl dir tm] [ts nh em]].
  cbn [fields env fst snd frames loopMode currentFrame playing timers
       nextHandle fps].
  intros Hlen HN -> -> -> -> Hnh.
  assert (Hfc : (Z.of_nat (List.length fr) =? 0) = false)
    by (apply Z.eqb_neq; lia).
  set (e0 := mkEnv [mkTimer nh f] (nh + 1) (em ++ [playStateChange true])).
  assert (Hplay :
    play (mkFields fr (JS.Num 0) f "once" false dir tm, mkEnv [] nh em)
    = (mkFields fr (JS.Num 0) f "once" true dir (Some nh), e0)).
  { unfold play, frameCount. cbn [fields fst frames]. rewrite Hfc.
    reflexivity. }
  rewrite Hplay. cbv zeta.
  assert (Hin : forall k : nat, (k <= N - 1)%nat ->
    exists em',
      ticks k (mkFields fr (JS.Num 0) f "once" true dir (Some nh), e0)
      = (mkFields fr (JS.Num (Z.of_nat k)) f "once" true dir (Some nh),
         mkEnv [mkTimer nh f] (nh + 1) em')).
  { intros k Hk. unfold e0.
    destruct (once_ticks_inside fr f true dir (Some nh) [mkTimer nh f]
                (nh + 1) k 0 (em ++ [playStateChange true]) ltac:(lia))
      as (em' & E).
    exists em'. rewrite E. reflexivity. }
  split.
  { intros k Hk. destruct (Hin k Hk) as (em' & ->).
    repeat split. }
  (* the N-th tick *)
  destruct (Hin (N - 1)%nat (le_n _)) as (em1 & E1).
  assert (HsN : exists em2,
    ticks N (mkFields fr (JS.Num 0) f "once" true dir (Some nh), e0)
    = (mkFields fr (JS.Num (Z.of_nat N - 1)) f "once" false dir None,
       mkEnv [] (nh + 1) em2)).
  { assert (Hsplit : forall (n : nat) (t : State Frame),
               ticks (S n) t = advanceFrame (ticks n t)).
    { induction n as [|n IHn]; intros t; [reflexivity|].
      change (ticks (S (S n)) t) with (ticks (S n) (advanceFrame t)).
      rewrite IHn. reflexivity. }
    assert (HN' : ticks N (mkFields fr (JS.Num 0) f "once" true dir
                                    (Some nh), e0)
                  = advanceFrame
                      (ticks (N - 1) (mkFields fr (JS.Num 0) f "once" true
                                               dir (Some nh), e0))).
    { rewrite <- Hsplit. f_equal. lia. }
    rewrite HN', E1, once_tick_end by lia.
    unfold stop. cbn [fields fst playing negb set_playing emit env snd
                      animationTimer timers nextHandle emitted].
    replace (nh =? 0) with false by (symmetry; apply Z.eqb_neq; lia).
    unfold clearInterval, set_animationTimer, emit, set_playing, fields, env.
    cbn [fst snd timers nextHandle emitted filter handle frames
         currentFrame fps loopMode playing direction].
    rewrite Z.eqb_refl. cbn [negb].
    replace (Z.of_nat (N - 1)) with (Z.of_nat N - 1) by lia.
    eexists. reflexivity. }
  destruct HsN as (em2 & ->).
  assert (Hplay2 :
    play (mkFields fr (JS.Num (Z.of_nat N - 1)) f "once" false dir None,
          mkEnv [] (nh + 1) em2)
    = (mkFields fr (JS.Num (Z.of_nat N - 1)) f "once" true dir
                (Some (nh + 1)),
       mkEnv [mkTimer (nh + 1) f] (nh + 1 + 1)
             (em2 ++ [playStateChange true]))).
  { unfold play, frameCount. cbn [fields fst frames]. rewrite Hfc.
    reflexivity. }
  rewrite Hplay2, once_tick_end by lia.
  repeat split; try discriminate.
  - apply (stop_fields (mkFields fr (JS.Num (Z.of_nat N - 1)) f "once" true
                                 dir (Some (nh + 1)), _)).
  - apply (stop_fields (mkFields fr (JS.Num (Z.of_nat N - 1)) f "once" true
                                 dir (Some (nh + 1)), _)).
Qed.

End Once.

Lemma once_runs_to_end_then_stops_witness :
  playing (fields (ticks 2 (play (once_stopped 3)))) = true /\
  currentFrame (fields (ticks 2 (play (once_stopped 3)))) = JS.Num 2 /\
  playing (fields (ticks 3 (play (once_stopped 3)))) = false /\
  playing (fields (play (ticks 3 (play (once_stopped 3))))) = true.
Proof.
  destruct (once_runs_to_end_then_stops (once_stopped 3) 3
              eq_refl ltac:(lia) eq_refl eq_refl eq_refl eq_refl eq_refl)
    as (Hk & Hstop & _ & _ & _ & Hplay & _).
  destruct (Hk 2%nat ltac:(lia)) as (Hp & Hc & _).
  repeat split; assumption.
Defined.

(** C4, as stated, fails on both counts: with two frames the manager is
    still playing after [N - 1 = 1] tick, and once it has stopped at the
    end, [play()] makes it play again on a new interval. *)
Lemma once_not_stopped_after_N_minus_1_ticks :
  playing (fields (ticks 1 (play (once_stopped 2)))) = true /\
  currentFrame (fields (ticks 1 (play (once_stopped 2)))) = JS.Num 1 /\
  playing (fields (ticks 2 (play (once_stopped 2)))) = false /\
  play (ticks 2 (play (once_stopped 2))) <> ticks 2 (play (once_stopped 2)) /\
  playing (fields (play (ticks 2 (play (once_stopped 2))))) = true /\
  List.length (timers (env (play (ticks 2 (play (once_stopped 2))))))
    = 1%nat.
Proof.
  repeat split. vm_compute. discriminate.
Qed.

(** ** Frame ingestion *)

Import SequenceHandler.

Lemma framesOfFiles_decoded (i : Z) (file : File) (rest : list File)
  (img : Image) :
  decoded file = Some img ->
  framesOfFiles i (file :: rest)
  = mkFrame i (name file) img (processImage img) (processImage img)
    :: framesOfFiles (i + 1) rest.
Proof. intros H. simpl. rewrite H. reflexivity. Qed.

Section Ingestion.

Variable localeCompare : string -> string -> Z.

(** From the second frame on, the loop pushes the frames that match the
    recorded size and throws at the first one that does not. *)
Lemma loadLoop_until_mismatch
  (w hh : Z) (f : File) (img : Image) (post : list File) :
  decoded f = Some img ->
  img_width img <> w \/ img_height img <> hh ->
  forall (pre : list File) (i : Z) (h : Handler),
    0 < i ->
    frameWidth h = Some w -> frameHeight h = Some hh ->
    Forall (decodesTo w hh) pre ->
    loadLoop i (pre ++ f :: post) h
    = (set_frames (frames h ++ framesOfFiles i pre) h,
       Thrown (DimensionMismatch (i + Z.of_nat (List.length pre) + 1)
                 (img_width img) (img_height img) (Some w) (Some hh))).
Proof.
  intros Hf Hbad. induction pre as [|p pre IH]; intros i h Hi Hw Hh Hpre.
  - cbn [app loadLoop framesOfFiles List.length Z.of_nat].
    unfold bind, loadImageFromFile, get. rewrite Hf. unfold ret.
    replace (i =? 0) with false by (symmetry; apply Z.eqb_neq; lia).
    rewrite Hw, Hh. unfold differs.
    assert (Hd : negb (img_width img =? w) || negb (img_height img =? hh)
                 = true).
    { apply orb_true_iff.
      destruct Hbad as [H|H]; [left|right];
        apply negb_true_iff, Z.eqb_neq, H. }
    rewrite Hd. unfold throw. rewrite app_nil_r, Z.add_0_r.
    destruct h; reflexivity.
  - inversion Hpre as [|? ? (pimg & Hp & Hpw & Hph) Hrest]; subst.
    rewrite (framesOfFiles_decoded i p pre pimg Hp).
    cbn [app loadLoop List.length].
    unfold bind, modify, get, loadImageFromFile. rewrite Hp. unfold ret.
    replace (i =? 0) with false by (symmetry; apply Z.eqb_neq; lia).
    rewrite Hw, Hh. unfold differs. rewrite !Z.eqb_refl. cbn [negb orb].
    rewrite IH by (try assumption; lia).
    cbn [frames set_frames frameWidth frameHeight frameManager snackbar].
    rewrite <- app_assoc. cbn [app].
    do 3 f_equal. lia.
Qed.

(** C6, as the code has it. When the sorted batch starts with frames
    that decode to the size of its first frame and then has a frame of
    another size, ingestion throws at that frame and reports the error;
    the frames after it are never loaded and the playback controller is
    left as it was, but the frames that came before it stay in the
    handler's frame list, together with the size of the first one. *)
Theorem loadFrames_mismatch_keeps_prefix
  (files : list File) (h : Handler)
  (first : File) (pre : list File) (f : File) (post : list File)
  (w hh : Z) (img : Image) :
  sortFiles localeCompare files = first :: pre ++ f :: post ->
  Forall (decodesTo w hh) (first :: pre) ->
  decoded f = Some img ->
  img_width img <> w \/ img_height img <> hh ->
  let h' := loadFrames localeCompare files h in
  let e := DimensionMismatch (Z.of_nat (List.length pre) + 2)
             (img_width img) (img_height img) (Some w) (Some hh) in
  failed localeCompare files h = Some e /\
  frames h' = framesOfFiles 0 (first :: pre) /\
  List.length (frames h') = S (List.length pre) /\
  frameWidth h' = Some w /\ frameHeight h' = Some hh /\
  frameManager h' = frameManager h /\
  snackbar h' = snackbar h ++ [snackError e].
Proof.
  intros Hsort Hgood Hf Hbad.
  inversion Hgood as [|? ? (fimg & Hfirst & Hfw & Hfh) Hpre]; subst.
  assert (Htry :
    loadFrames_try localeCompare files h
    = (mkHandler (framesOfFiles 0 (first :: pre))
                 (Some (img_width fimg)) (Some (img_height fimg))
                 (frameManager h) (snackbar h),
       Thrown (DimensionMismatch (Z.of_nat (List.length pre) + 2)
                 (img_width img) (img_height img)
                 (Some (img_width fimg)) (Some (img_height fimg))))).
  { unfold loadFrames_try. rewrite Hsort.
    rewrite (framesOfFiles_decoded 0 first pre fimg Hfirst).
    cbn [loadLoop]. unfold bind, modify, get, loadImageFromFile.
    rewrite Hfirst. unfold ret. cbn [Z.eqb].
    rewrite (loadLoop_until_mismatch (img_width fimg) (img_height fimg)
               f img post Hf Hbad pre (0 + 1)) by (try reflexivity; auto; lia).
    cbn [frames set_frames set_dimensions frameWidth frameHeight
         frameManager snackbar app].
    do 3 f_equal. lia. }
  unfold loadFrames, failed. rewrite Htry.
  cbn [showSnackbar frames frameWidth frameHeight frameManager snackbar].
  repeat split.
  rewrite (framesOfFiles_decoded 0 first pre fimg Hfirst).
  cbn [List.length]. f_equal.
  clear - Hpre. generalize (0 + 1).
  induction Hpre as [|p pre (pimg & Hp & _) _ IH]; intros i;
    [reflexivity|].
  rewrite (framesOfFiles_decoded i p pre pimg Hp).
  cbn [List.length]. f_equal. apply IH.
Qed.

End Ingestion.

Lemma loadFrames_mismatch_keeps_prefix_witness :
  frames (loadFrames compareNames [fileB; fileA] SequenceHandler.init)
  = framesOfFiles 0 [fileA] /\
  frameManager (loadFrames compareNames [fileB; fileA] SequenceHandler.init)
  = frameManager SequenceHandler.init.
Proof.
  destruct (loadFrames_mismatch_keeps_prefix compareNames
              [fileB; fileA] SequenceHandler.init fileA [] fileB []
              2 2 (mkImage 3 3 (repeat 7 36)))
    as (_ & H2 & _ & _ & _ & H6 & _).
  - reflexivity.
  - constructor; [|constructor].
    exists (mkImage 2 2 (repeat 0 16)). repeat split.
  - reflexivity.
  - left. cbn. lia.
  - split; assumption.
Defined.

(** C6, as stated, fails: after the aborted batch of a 2x2 and a 3x3
    frame, the handler's frame list holds the 2x2 frame of that batch. *)
Lemma loadFrames_mismatch_keeps_first_frame :
  failed compareNames [fileA; fileB] SequenceHandler.init
  = Some (DimensionMismatch 2 3 3 (Some 2) (Some 2)) /\
  map filename
      (frames (loadFrames compareNames [fileA; fileB] SequenceHandler.init))
  = ["a_001.png"%string] /\
  frames (loadFrames compareNames [fileA; fileB] SequenceHandler.init)
  <> [].
Proof.
  repeat split. vm_compute. discriminate.
Qed.

(** ** Identifier generation *)

Import AnimationExporter.

Section Guid.

Local Open Scope string_scope.

(** A draw in [0, 1) scaled by 16 and truncated is one of 0..15. *)
Lemma draw_range (q : Q) :
  (0 <= q)%Q /\ (q < 1)%Q ->
  0 <= JS.bor (JS.truncate (q * 16)) 0 < 16.
Proof.
  destruct q as [n d]. unfold Qle, Qlt. cbn [Qnum Qden]. intros [H0 H1].
  assert (Ht : JS.truncate ((n # d) * 16) = (n * 16) / Z.pos d).
  { unfold JS.truncate.
    assert (Hle : Qle_bool 0 ((n # d) * 16) = true).
    { apply Qle_bool_iff. unfold Qle, Qmult. cbn [Qnum Qden]. lia. }
    rewrite Hle. unfold Qfloor, Qmult. cbn [Qnum Qden].
    rewrite Pos.mul_1_r. reflexivity. }
  rewrite Ht.
  assert (Hr : 0 <= n * 16 / Z.pos d < 16).
  { split; [apply Z.div_pos; lia | apply Z.div_lt_upper_bound; lia]. }
  unfold JS.bor. rewrite toInt32_small by lia.
  change (JS.toInt32 0) with 0. rewrite Z.lor_0_r. exact Hr.
Qed.

(** An [x] is replaced by one lowercase hexadecimal digit. *)
Lemma guidDigit_x (q : Q) :
  (0 <= q)%Q /\ (q < 1)%Q ->
  exists c, guidDigit "x" q = String c "" /\ isLowerHex c.
Proof.
  intros Hq. pose proof (draw_range q Hq) as Hr.
  unfold guidDigit. cbn [Ascii.eqb Bool.eqb].
  remember (JS.bor (JS.truncate (q * 16)) 0) as r eqn:Er. clear Er.
  assert (Hcases : r = 0 \/ r = 1 \/ r = 2 \/ r = 3 \/ r = 4 \/ r = 5 \/
                   r = 6 \/ r = 7 \/ r = 8 \/ r = 9 \/ r = 10 \/ r = 11 \/
                   r = 12 \/ r = 13 \/ r = 14 \/ r = 15) by lia.
  unfold isLowerHex.
  repeat (destruct Hcases as [Hc | Hcases];
          [rewrite Hc; eexists; split; [reflexivity | cbn; tauto]|]).
  rewrite Hcases; eexists; split; [reflexivity | cbn; tauto].
Qed.

(** A [y] is replaced by one of the digits 8, 9, a, b. *)
Lemma guidDigit_y (q : Q) :
  (0 <= q)%Q /\ (q < 1)%Q ->
  exists c, guidDigit "y" q = String c "" /\ isVariantDigit c.
Proof.
  intros Hq. pose proof (draw_range q Hq) as Hr.
  unfold guidDigit. cbn [Ascii.eqb Bool.eqb].
  remember (JS.bor (JS.truncate (q * 16)) 0) as r eqn:Er. clear Er.
  assert (Hcases : r = 0 \/ r = 1 \/ r = 2 \/ r = 3 \/ r = 4 \/ r = 5 \/
                   r = 6 \/ r = 7 \/ r = 8 \/ r = 9 \/ r = 10 \/ r = 11 \/
                   r = 12 \/ r = 13 \/ r = 14 \/ r = 15) by lia.
  unfold isVariantDigit.
  repeat (destruct Hcases as [Hc | Hcases];
          [rewrite Hc; eexists; split; [reflexivity | cbn; tauto]|]).
  rewrite Hcases; eexists; split; [reflexivity | cbn; tauto].
Qed.

(** C8, as the code has it. Whatever the draws in [0, 1), the generated
    identifier has 38 characters: an opening brace, a 36-character body
    and a closing brace.  The body has dashes at positions 8, 13, 18 and
    23, the digit 4 at position 14, one of 8, 9, a, b at position 19 and
    lowercase hexadecimal digits everywhere else. *)
Theorem generateGUID_shape (random : nat -> Q) :
  (forall n, (0 <= random n)%Q /\ (random n < 1)%Q) ->
  exists u : string,
    generateGUID random = "{" ++ u ++ "}" /\
    String.length u = 36%nat /\
    String.length (generateGUID random) = 38%nat /\
    (forall i, In i [8; 13; 18; 23]%nat -> String.get i u = Some "-"%char) /\
    String.get 14 u = Some "4"%char /\
    (exists c, String.get 19 u = Some c /\ isVariantDigit c) /\
    (forall i, (i < 36)%nat -> ~ In i [8; 13; 14; 18; 19; 23]%nat ->
               exists c, String.get i u = Some c /\ isLowerHex c).
Proof.
  intros Hdraw. unfold generateGUID, guidTemplate.
  cbn [replaceXY Ascii.eqb Bool.eqb orb].
  repeat match goal with
         | |- context [guidDigit "x" (random ?n)] =>
             let c := fresh "c" in
             let E := fresh "E" in
             let Hc := fresh "Hc" in
             destruct (guidDigit_x (random n) (Hdraw n)) as (c & E & Hc);
             rewrite E; clear E
         end.
  destruct (guidDigit_y (random 15%nat) (Hdraw 15%nat)) as (v & E & Hv).
  rewrite E; clear E.
  cbn [String.append].
  eexists (String _ (String _ (String _ (String _ (String _ (String _
          (String _ (String _ (String _ (String _ (String _ (String _
          (String _ (String _ (String _ (String _ (String _ (String _
          (String _ (String _ (String _ (String _ (String _ (String _
          (String _ (String _ (String _ (String _ (String _ (String _
          (String _ (String _ (String _ (String _ (String _ (String _
          EmptyString)))))))))))))))))))))))))))))))))))).
  split; [cbn [String.append]; reflexivity|].
  split; [reflexivity|]. split; [reflexivity|].
  split.
  { intros i [<-|[<-|[<-|[<-|[]]]]]; reflexivity. }
  split; [reflexivity|].
  split; [exists v; split; [reflexivity | exact Hv]|].
  intros i Hi Hnot.
  do 36 (destruct i as [|i];
         [first [ exfalso; apply Hnot; cbn; tauto
                | eexists; split; [reflexivity | assumption] ] |]).
  lia.
Qed.

Lemma generateGUID_shape_witness :
  exists u : string,
    generateGUID (fun _ => 1 # 2) = "{" ++ u ++ "}" /\
    String.length u = 36%nat.
Proof.
  destruct (generateGUID_shape (fun _ => 1 # 2)) as (u & H1 & H2 & _).
  - intros n. split; [discriminate | reflexivity].
  - exists u. split; assumption.
Defined.

(** C8, as stated, fails: the identifier has 38 characters, not 36; it
    starts with a brace. *)
Lemma generateGUID_is_not_36_characters :
  generateGUID (fun _ => 0%Q) = "{00000000-0000-4000-8000-000000000000}" /\
  String.length (generateGUID (fun _ => 0%Q)) <> 36%nat.
Proof.
  split; [reflexivity|]. vm_compute. discriminate.
Qed.

End Guid.

(* ===================================================================== *)
(** * Further properties of the image processor *)
(* ===================================================================== *)

Section PixelArrays.

Lemma convertPixels_length (data : list Z) :
  List.length (convertPixels data) = Nat.div (List.length data) 4.
Proof.
  revert data. fix IH 1.
  intros [|r0 [|g0 [|b0 [|a0 rest]]]]; try reflexivity.
  cbn [convertPixels List.length]. rewrite IH.
  change (S (S (S (S (List.length rest)))))
    with (4 + List.length rest)%nat.
  replace (4 + List.length rest)%nat
    with (List.length rest + 1 * 4)%nat by lia.
  rewrite Nat.div_add by lia. lia.
Qed.

Lemma convertPixels_nth (data : list Z) :
  forall i : nat, (i < Nat.div (List.length data) 4)%nat ->
    nth_error (convertPixels data) i
    = Some (toPixel (nth (4 * i) data 0) (nth (4 * i + 1) data 0)
                    (nth (4 * i + 2) data 0) (nth (4 * i + 3) data 0)).
Proof.
  revert data. fix IH 1.
  intros [|r0 [|g0 [|b0 [|a0 rest]]]] i Hi;
    try (cbn in Hi; lia).
  destruct i as [|i].
  - reflexivity.
  - cbn [convertPixels nth_error].
    replace (4 * S i)%nat with (S (S (S (S (4 * i))))) by lia.
    cbn [nth Nat.add].
    rewrite IH.
    + replace (S (S (S (S (4 * i + 1))))) with (4 + (4 * i + 1))%nat by lia.
      reflexivity.
    + cbn [List.length] in Hi.
      change (S (S (S (S (List.length rest)))))
        with (4 + List.length rest)%nat in Hi.
      replace (4 + List.length rest)%nat
        with (List.length rest + 1 * 4)%nat in Hi by lia.
      rewrite Nat.div_add in Hi by lia. lia.
Qed.

(** X1. [convertToPixelArray] turns a flat RGBA array into one pixel per
    group of four bytes, in order: pixel [i] carries bytes [4i .. 4i+3]
    and the packed word of its first three; for an image whose data holds
    [4 * width * height] bytes the result has [width * height] pixels. *)
Theorem convertToPixelArray_pixels (imageData : ImageData) :
  Z.of_nat (List.length (data imageData))
    = 4 * (id_width imageData * id_height imageData) ->
  let pd := convertToPixelArray imageData in
  width pd = id_width imageData /\ height pd = id_height imageData /\
  Z.of_nat (List.length (pixels pd)) = width pd * height pd /\
  (forall i : nat, (i < List.length (pixels pd))%nat ->
     nth_error (pixels pd) i
     = Some (toPixel (nth (4 * i) (data imageData) 0)
                     (nth (4 * i + 1) (data imageData) 0)
                     (nth (4 * i + 2) (data imageData) 0)
                     (nth (4 * i + 3) (data imageData) 0))).
Proof.
  intros Hlen. cbn [convertToPixelArray width height pixels].
  rewrite convertPixels_length.
  repeat split.
  - rewrite Nat2Z.inj_div, Hlen. cbn [Z.of_nat].
    rewrite Z.mul_comm, Z.div_mul by lia. reflexivity.
  - intros i Hi. apply convertPixels_nth, Hi.
Qed.

Lemma convertToPixelArray_pixels_witness :
  Z.of_nat (List.length
              (pixels (convertToPixelArray
                         (mkImageData 2 1 [1; 2; 3; 255; 4; 5; 6; 255]))))
  = 2 * 1.
Proof.
  destruct (convertToPixelArray_pixels
              (mkImageData 2 1 [1; 2; 3; 255; 4; 5; 6; 255]) eq_refl)
    as (_ & _ & H & _).
  exact H.
Defined.

(** Every pixel built from image data carries the packed word of its own
    channels. *)
Lemma convertPixels_consistent (data : list Z) :
  Forall (fun p => dword p = rgbToDword (r p) (g p) (b p))
         (convertPixels data).
Proof.
  revert data. fix IH 1.
  intros [|r0 [|g0 [|b0 [|a0 rest]]]]; try constructor.
  - reflexivity.
  - apply IH.
Qed.

(** The channels of the pixels built from image data are entries of
    the data. *)
Lemma convertPixels_channels (P : Z -> Prop) (data : list Z) :
  Forall P data ->
  Forall (fun p => P (r p) /\ P (g p) /\ P (b p)) (convertPixels data).
Proof.
  revert data. fix IH 1.
  intros [|r0 [|g0 [|b0 [|a0 rest]]]] H; try constructor.
  - inversion H as [|? ? Hr H1]; subst.
    inversion H1 as [|? ? Hg H2]; subst.
    inversion H2 as [|? ? Hb H3]; subst.
    cbn [toPixel r g b]. auto.
  - apply IH.
    inversion H as [|? ? _ H1]; subst.
    inversion H1 as [|? ? _ H2]; subst.
    inversion H2 as [|? ? _ H3]; subst.
    inversion H3; subst. assumption.
Qed.

(** X2. At 100 percent [applyBrightness] returns the pixels of a
    converted image unchanged, channel values and packed words alike.
    The entries of the image data are numbers, that is, integers a double
    holds exactly; the bytes of a canvas are far inside that range. *)
Theorem applyBrightness_100 (imageData : ImageData) :
  Forall (fun v => Z.abs v <= 2 ^ 53) (data imageData) ->
  applyBrightness (convertToPixelArray imageData) 100
  = pixels (convertToPixelArray imageData).
Proof.
  intros Hd.
  rewrite applyBrightness_map. cbn [convertToPixelArray pixels].
  pose proof (convertPixels_consistent (data imageData)) as H.
  pose proof (convertPixels_channels _ _ Hd) as Hc.
  induction H as [|p l Hp _ IH]; [reflexivity|].
  inversion Hc as [|? ? (Hr & Hg & Hb) Hc']; subst.
  cbn [map]. rewrite (IH Hc'). f_equal.
  destruct p as [pr pg pb pa pw]. cbn [r g b dword] in Hp, Hr, Hg, Hb.
  unfold scaledPixel. cbn [r g b a].
  rewrite !scaleChannel_100 by assumption.
  rewrite Hp. reflexivity.
Qed.

Lemma applyBrightness_100_witness :
  applyBrightness (convertToPixelArray (mkImageData 1 1 [18; 52; 86; 255]))
                  100
  = pixels (convertToPixelArray (mkImageData 1 1 [18; 52; 86; 255])).
Proof.
  apply (applyBrightness_100 (mkImageData 1 1 [18; 52; 86; 255])).
  cbn [data]. repeat constructor; cbn; lia.
Defined.

(** X3. At 0 percent every pixel becomes black with a zero packed word;
    only its alpha value is kept. *)
Theorem applyBrightness_0 (pd : PixelData) :
  applyBrightness pd 0 = map (fun p => mkPixel 0 0 0 (a p) 0) (pixels pd).
Proof.
  rewrite applyBrightness_map. apply map_ext. intros p.
  unfold scaledPixel. rewrite !scaleChannel_0. reflexivity.
Qed.

Lemma scaleChannel_dim (c p : Z) :
  0 <= c <= 2 ^ 53 -> 0 <= p <= 100 -> 0 <= scaleChannel c p <= c.
Proof.
  intros Hc Hp.
  destruct (scaleChannel_mono c c p 100 ltac:(lia) ltac:(lia)) as [H0 H1].
  rewrite scaleChannel_100 in H1 by lia. lia.
Qed.

(** X4. Within the documented range, 0 to 100 percent, nothing can
    overflow: on 8-bit pixels every scaled channel stays between 0 and
    its original value, alpha is kept, and the packed word is the
    non-overlapping [r + 256 g + 65536 b] of the scaled channels, below
    [2^24]. *)
Theorem applyBrightness_dimming
  (pd : PixelData) (brightness : Z) (i : nat) (p p' : Pixel) :
  0 <= brightness <= 100 ->
  0 <= r p < 256 -> 0 <= g p < 256 -> 0 <= b p < 256 ->
  nth_error (pixels pd) i = Some p ->
  nth_error (applyBrightness pd brightness) i = Some p' ->
  0 <= r p' <= r p /\ 0 <= g p' <= g p /\ 0 <= b p' <= b p /\
  a p' = a p /\
  dword p' = r p' + 256 * g p' + 65536 * b p' /\
  0 <= dword p' < 2 ^ 24.
Proof.
  intros Hbr Hr Hg Hb Hp Hp'.
  rewrite applyBrightness_map, nth_error_map, Hp in Hp'.
  cbn [option_map] in Hp'. injection Hp' as <-.
  pose proof (scaleChannel_dim (r p) brightness ltac:(lia) Hbr) as Rr.
  pose proof (scaleChannel_dim (g p) brightness ltac:(lia) Hbr) as Rg.
  pose proof (scaleChannel_dim (b p) brightness ltac:(lia) Hbr) as Rb.
  unfold scaledPixel. cbn [r g b a dword].
  rewrite rgbToDword_sum by lia.
  repeat split; lia.
Qed.

Lemma applyBrightness_dimming_witness :
  dword (scaledPixel (toPixel 200 100 50 255) 50) = 100 + 256 * 50 + 65536 * 25.
Proof.
  destruct (applyBrightness_dimming
              (mkPixelData 1 1 [toPixel 200 100 50 255]) 50 0
              (toPixel 200 100 50 255)
              (scaledPixel (toPixel 200 100 50 255) 50)
              ltac:(lia) ltac:(cbn; lia) ltac:(cbn; lia) ltac:(cbn; lia)
              eq_refl eq_refl)
    as (_ & _ & _ & _ & H & _).
  exact H.
Defined.

(** X5. Scaling keeps the order of intensities, roundings included: a
    brighter channel stays at least as bright, and a higher percentage
    never darkens a non-negative channel. *)
Theorem scaleChannel_monotone (c1 c2 p1 p2 : Z) :
  0 <= c1 <= c2 -> 0 <= p1 <= p2 ->
  scaleChannel c1 p1 <= scaleChannel c2 p1 /\
  scaleChannel c1 p1 <= scaleChannel c1 p2.
Proof.
  intros Hc Hp. split.
  - apply (scaleChannel_mono c1 c2 p1 p1); lia.
  - apply (scaleChannel_mono c1 c1 p1 p2); lia.
Qed.

Lemma scaleChannel_monotone_witness :
  scaleChannel 10 50 <= scaleChannel 20 50 /\
  scaleChannel 10 50 <= scaleChannel 10 80.
Proof.
  apply (scaleChannel_monotone 10 20 50 80); lia.
Defined.

(** For a whole multiple of 100 percent both roundings are exact. *)
Lemma scaleChannel_whole (c k : Z) :
  Z.abs k <= 2 ^ 53 -> Z.abs (c * k) <= 2 ^ 53 ->
  scaleChannel c (100 * k) = c * k.
Proof.
  intros Hk Hck. unfold scaleChannel, JS.fdiv, JS.fmul.
  assert (E1 : (inject_Z (100 * k) / 100 == inject_Z k)%Q).
  { rewrite inject_Z_mult. change (inject_Z 100) with 100%Q. field. }
  rewrite (roundDouble_comp _ _ E1).
  assert (E2 : (inject_Z c * JS.roundDouble (inject_Z k)
                == inject_Z (c * k))%Q).
  { rewrite (roundDouble_Z k Hk), inject_Z_mult. reflexivity. }
  rewrite (roundDouble_comp _ _ E2).
  rewrite (Math_round_comp _ _ (roundDouble_Z (c * k) Hck)).
  apply Math_round_Z.
Qed.

(** X26. What [Math.round(channel * (brightness / 100))] returns for an
    8-bit channel and a percentage up to 12800, where the quotient and
    the product are doubles: the half-up rounding of the exact product
    [channel * brightness / 100], except that it may be one less when
    the exact product lies halfway between two integers (50 at 113
    percent is 56.5 and comes out as 56); for a whole multiple of 100
    percent it is the exact product. *)
Theorem scaleChannel_rounding (c p : Z) :
  0 <= c < 256 -> 0 <= p <= 12800 ->
  halfUp c p - 1 <= scaleChannel c p <= halfUp c p /\
  (~ isTie c p -> scaleChannel c p = halfUp c p) /\
  (forall k, p = 100 * k -> scaleChannel c p = c * k) /\
  (isTie 50 113 /\ halfUp 50 113 = 57 /\ scaleChannel 50 113 = 56).
Proof.
  intros Hc Hp.
  destruct (scaleChannel_near c p Hc Hp) as [Hn He].
  split; [exact Hn | split; [exact He | split]].
  - intros k ->. apply scaleChannel_whole; [lia|].
    assert (0 <= c * k <= 255 * 128); [|lia].
    split; [apply Z.mul_nonneg_nonneg; lia|].
    apply Z.mul_le_mono_nonneg; lia.
  - repeat split; vm_compute; reflexivity.
Qed.

Lemma scaleChannel_rounding_witness :
  halfUp 45 70 - 1 <= scaleChannel 45 70 <= halfUp 45 70.
Proof.
  destruct (scaleChannel_rounding 45 70 ltac:(lia) ltac:(lia)) as (H & _).
  exact H.
Defined.

End PixelArrays.

Section CropPlacement.

Import SequenceHandler.

(** X6. For a source image and a target of non-negative size, the
    rectangle chosen by [processImageWithResize] is a rectangle inside
    the image in every mode: its width and height are not negative, its
    origin is not negative and its far corner does not pass the image.
    The three crop modes take [min(target, source)] in each direction:
    [crop-top] from the top-left corner, [crop-bottom] flush with the
    bottom edge, [crop-center] with margins that differ by at most one
    pixel; every other mode takes the whole image. *)
Theorem sourceRect_placement
  (image : Image) (tw th : Z) (mode : string) :
  0 <= img_width image -> 0 <= img_height image -> 0 <= tw -> 0 <= th ->
  let rect := processImageWithResize_sourceRect image tw th mode in
  let iw := img_width image in
  let ih := img_height image in
  (0 <= sWidth rect /\ 0 <= sHeight rect /\
   0 <= sx rect /\ sx rect + sWidth rect <= iw /\
   0 <= sy rect /\ sy rect + sHeight rect <= ih) /\
  (mode = "crop-top"%string ->
     sx rect = 0 /\ sy rect = 0 /\
     sWidth rect = Z.min tw iw /\ sHeight rect = Z.min th ih) /\
  (mode = "crop-bottom"%string ->
     sx rect = 0 /\ sy rect + sHeight rect = ih /\
     sWidth rect = Z.min tw iw /\ sHeight rect = Z.min th ih) /\
  (mode = "crop-center"%string ->
     0 <= (iw - sWidth rect - sx rect) - sx rect <= 1 /\
     0 <= (ih - sHeight rect - sy rect) - sy rect <= 1 /\
     sWidth rect = Z.min tw iw /\ sHeight rect = Z.min th ih) /\
  (mode <> "crop-top"%string -> mode <> "crop-bottom"%string ->
   mode <> "crop-center"%string ->
     rect = mkSourceRect 0 0 iw ih).
Proof.
  intros Hw Hh Htw Hth rect iw ih.
  split.
  { pose proof (processImageWithResize_sourceRect_in_bounds
                  image tw th mode Hw Hh) as Hin.
    cbv zeta in Hin. fold rect iw ih in Hin.
    assert (Hs : 0 <= sWidth rect /\ 0 <= sHeight rect); [|lia].
    subst rect iw ih. unfold processImageWithResize_sourceRect.
    destruct (String.eqb mode "crop-top");
      [|destruct (String.eqb mode "crop-bottom");
        [|destruct (String.eqb mode "crop-center")]];
      cbn [sWidth sHeight]; lia. }
  subst rect iw ih. unfold processImageWithResize_sourceRect.
  split; [|split; [|split]].
  1-3: intros ->; cbn [String.eqb Ascii.eqb Bool.eqb sx sy sWidth sHeight];
    repeat split; try lia;
    try (Z.to_euclidean_division_equations; lia).
  intros H1 H2 H3.
  apply String.eqb_neq in H1, H2, H3. rewrite H1, H2, H3. reflexivity.
Qed.

Lemma sourceRect_placement_witness :
  sy (processImageWithResize_sourceRect image4x4 4 1 "crop-bottom")
  + sHeight (processImageWithResize_sourceRect image4x4 4 1 "crop-bottom")
  = 4.
Proof.
  destruct (sourceRect_placement image4x4 4 1 "crop-bottom"
              ltac:(cbn; lia) ltac:(cbn; lia) ltac:(lia) ltac:(lia))
    as (_ & _ & Hb & _).
  destruct (Hb eq_refl) as (_ & H & _).
  exact H.
Defined.

(** X7. The region the preview overlay marks in a crop mode, for a
    frame of non-negative size and size inputs that parse to nothing
    negative: it is a rectangle inside the frame (no negative size, no
    negative origin, far corner within the frame) whatever the offsets
    are, its size is [min(target, frame)] where an input that is empty,
    not a number or 0 counts as the frame's own size, and in that case
    it spans the frame in that direction.  Once [reprocessFrames] has
    stored the target size as the frame size, the overlay it draws is
    the rectangle of the target size at the origin, in each of the crop
    modes and for every offset. *)
Theorem overlay_region_in_frame
  (fw fh : Z) (ow oh : JS.num) (mode : string) (ox oy : Z) :
  0 <= fw -> 0 <= fh ->
  (forall z, ow = JS.Num z -> 0 <= z) ->
  (forall z, oh = JS.Num z -> 0 <= z) ->
  mode = "crop-top"%string \/ mode = "crop-bottom"%string
    \/ mode = "crop-center"%string ->
  (exists rect,
     drawCropOverlay_region fw fh ow oh mode ox oy = Some rect /\
     sWidth rect = Z.min (parsedOr ow fw) fw /\
     sHeight rect = Z.min (parsedOr oh fh) fh /\
     0 <= sWidth rect /\ 0 <= sHeight rect /\
     0 <= sx rect /\ sx rect + sWidth rect <= fw /\
     0 <= sy rect /\ sy rect + sHeight rect <= fh /\
     (ow = JS.NaN \/ ow = JS.Num 0 -> sx rect = 0 /\ sWidth rect = fw) /\
     (oh = JS.NaN \/ oh = JS.Num 0 -> sy rect = 0 /\ sHeight rect = fh)) /\
  (forall tw th : Z,
     reprocessFrames_overlay tw th mode ox oy
     = Some (mkSourceRect 0 0 tw th)).
Proof.
  intros Hw Hh How Hoh Hmode.
  assert (Htw : 0 <= parsedOr ow fw).
  { destruct ow as [z|]; cbn [parsedOr]; [|exact Hw].
    destruct (z =? 0); [exact Hw | apply (How z eq_refl)]. }
  assert (Hth : 0 <= parsedOr oh fh).
  { destruct oh as [z|]; cbn [parsedOr]; [|exact Hh].
    destruct (z =? 0); [exact Hh | apply (Hoh z eq_refl)]. }
  assert (Fw : ow = JS.NaN \/ ow = JS.Num 0 -> parsedOr ow fw = fw).
  { intros [-> | ->]; reflexivity. }
  assert (Fh : oh = JS.NaN \/ oh = JS.Num 0 -> parsedOr oh fh = fh).
  { intros [-> | ->]; reflexivity. }
  split.
  - destruct (drawCropOverlay_region_offsets fw fh ow oh mode ox oy
                Hw Hh Hmode)
      as (rect & Hr & Sw & Sh & Bx & By & _).
    exists rect. split; [exact Hr|].
    split; [exact Sw|]. split; [exact Sh|].
    do 6 (split; [lia|]).
    split; intros Hf; [specialize (Fw Hf) | specialize (Fh Hf)]; lia.
  - intros tw th. unfold reprocessFrames_overlay, drawCropOverlay_region.
    assert (Pw : parsedOr (JS.Num tw) tw = tw).
    { cbn [parsedOr]. destruct (tw =? 0); reflexivity. }
    assert (Ph : parsedOr (JS.Num th) th = th).
    { cbn [parsedOr]. destruct (th =? 0); reflexivity. }
    rewrite Pw, Ph.
    destruct Hmode as [-> | [-> | ->]];
      cbn [String.eqb Ascii.eqb Bool.eqb sx sy sWidth sHeight];
      rewrite ?Z.min_id, ?Z.sub_diag; cbn [Z.div Z.max Z.add];
      f_equal; f_equal; lia.
Qed.

Lemma overlay_region_in_frame_witness :
  exists rect,
    drawCropOverlay_region 4 4 (JS.Num 2) JS.NaN "crop-center" 5 5
    = Some rect /\
    sx rect + sWidth rect <= 4 /\ sHeight rect = 4.
Proof.
  destruct (overlay_region_in_frame 4 4 (JS.Num 2) JS.NaN "crop-center" 5 5
              ltac:(lia) ltac:(lia)
              ltac:(intros z [= <-]; lia) ltac:(intros z; discriminate)
              (or_intror (or_intror eq_refl)))
    as ((rect & Hr & _ & _ & _ & _ & _ & Hx & _ & _ & _ & Hy) & _).
  exists rect. split; [exact Hr|]. split; [exact Hx|].
  apply (Hy (or_introl eq_refl)).
Defined.

End CropPlacement.

(* ===================================================================== *)
(** * Further properties of the playback controller *)
(* ===================================================================== *)

Import FrameManager.

Section Navigation.

Context {Frame : Type}.
Implicit Types s : State Frame.

Lemma navigable_view s s' :
  navView s' = navView s -> navigable s -> navigable s'.
Proof.
  unfold navView, navigable, indexInRange, frameCount.
  intros [= -> -> ->]. exact (fun H => H).
Qed.

Lemma emit_view s (ev : Event) : navView (emit ev s) = navView s.
Proof. destruct s as [[] ?]. reflexivity. Qed.

Lemma stop_view s : navView (stop s) = navView s.
Proof.
  destruct s as [[fr cur f lm pl dir tm] e]. unfold stop.
  cbn [fields fst playing negb].
  destruct pl; cbn [negb]; [|reflexivity].
  unfold set_playing, emit, fields, env. cbn [fst snd animationTimer].
  destruct tm as [h|]; [destruct (h =? 0)|]; reflexivity.
Qed.

Lemma play_view s : navView (play s) = navView s.
Proof.
  destruct s as [[fr cur f lm pl dir tm] e]. unfold play.
  destruct (frameCount _ =? 0); [reflexivity|].
  cbn [fields fst playing]. destruct pl; reflexivity.
Qed.

(** One tick keeps a navigable sequence navigable, in every loop
    mode. *)
Lemma navigable_advanceFrame s : navigable s -> navigable (advanceFrame s).
Proof.
  destruct s as [[fr cur f lm pl dir tm] e].
  intros (Hn & (i & Hi & Hr) & Hd).
  unfold frameCount in *. cbn [fields fst frames currentFrame direction] in *.
  subst cur. set (N := Z.of_nat (List.length fr)) in *.
  unfold advanceFrame, frameCount.
  cbn [fields fst frames currentFrame loopMode direction]. fold N.
  eapply navigable_view; [apply emit_view|].
  destruct (String.eqb lm "loop").
  { cbn [JS.add JS.rem].
    replace (N =? 0) with false by (symmetry; apply Z.eqb_neq; lia).
    pose proof (Z.rem_bound_pos (i + 1) N ltac:(lia) ltac:(lia)).
    repeat split; try assumption.
    eexists; split; [reflexivity|]. unfold frameCount.
    cbn [fields fst frames set_currentFrame]. fold N. lia. }
  destruct (String.eqb lm "once").
  { cbn [JS.add JS.lt].
    destruct (i <? N + -1) eqn:E.
    - apply Z.ltb_lt in E.
      repeat split; try assumption.
      eexists; split; [reflexivity|]. unfold frameCount.
      cbn [fields fst frames set_currentFrame]. fold N. lia.
    - apply (navigable_view (mkFields fr (JS.Num i) f lm pl dir tm, e));
        [apply stop_view|].
      repeat split; try assumption.
      exists i; split; [reflexivity|]. unfold frameCount.
      cbn [fields fst frames]. fold N. lia. }
  destruct (String.eqb lm "pingpong").
  { cbn [JS.add JS.ge JS.le].
    destruct (N + -1 <=? i + dir) eqn:E1; [|destruct (i + dir <=? 0) eqn:E2].
    - repeat split; try assumption; [|right; reflexivity].
      eexists; split; [reflexivity|]. unfold frameCount.
      cbn [fields fst frames set_currentFrame set_direction]. fold N. lia.
    - repeat split; try assumption; [|left; reflexivity].
      eexists; split; [reflexivity|]. unfold frameCount.
      cbn [fields fst frames set_currentFrame set_direction]. fold N. lia.
    - apply Z.leb_gt in E1, E2.
      repeat split; try assumption.
      eexists; split; [reflexivity|]. unfold frameCount.
      cbn [fields fst frames set_currentFrame]. fold N. lia. }
  repeat split; try assumption.
  exists i; split; [reflexivity|]. unfold frameCount.
  cbn [fields fst frames]. fold N. lia.
Qed.

(** Jumping to a number keeps a navigable sequence navigable, whether
    the jump is accepted or ignored. *)
Lemma navigable_goToFrame s (j : Z) :
  navigable s -> navigable (goToFrame (JS.Num j) s).
Proof.
  destruct s as [[fr cur f lm pl dir tm] e].
  intros (Hn & Hidx & Hd). unfold goToFrame, frameCount in *.
  cbn [fields fst frames direction JS.lt JS.ge JS.le] in *.
  destruct (j <? 0) eqn:E1; cbn [orb];
    [repeat split; assumption|].
  destruct (Z.of_nat (List.length fr) <=? j) eqn:E2;
    [repeat split; assumption|].
  apply Z.ltb_ge in E1. apply Z.leb_gt in E2.
  repeat split; try assumption.
  exists j. split; [reflexivity|]. unfold frameCount.
  cbn [fields fst frames set_currentFrame emit]. lia.
Qed.

Lemma nextFrame_numeric s :
  navigable s ->
  exists j, nextFrame s = goToFrame (JS.Num j) s.
Proof.
  destruct s as [[fr cur f lm pl dir tm] e].
  intros (Hn & (i & Hi & _) & _). unfold frameCount in Hn.
  cbn [fields fst frames currentFrame] in *. subst cur.
  unfold nextFrame, frameCount. cbn [fields fst frames currentFrame JS.add JS.rem].
  replace (Z.of_nat (List.length fr) =? 0) with false
    by (symmetry; apply Z.eqb_neq; lia).
  eexists. reflexivity.
Qed.

Lemma previousFrame_numeric s :
  navigable s ->
  exists j, previousFrame s = goToFrame (JS.Num j) s.
Proof.
  destruct s as [[fr cur f lm pl dir tm] e].
  intros (_ & (i & Hi & _) & _).
  cbn [fields fst currentFrame] in *. subst cur.
  unfold previousFrame. cbn [fields fst currentFrame JS.add JS.lt].
  destruct (i + -1 <? 0); eexists; reflexivity.
Qed.

(** X8. On a sequence that has frames, with the index inside it, every
    public call other than emptying the sequence or jumping to a
    non-number leaves the index inside the sequence and the direction a
    unit step: ticks in any loop mode, navigation, jumps (accepted or
    ignored), play, stop and the setters. *)
Theorem navigable_preserved (c : Call Frame) s :
  navigable s -> keepsSequence c -> navigable (run c s).
Proof.
  intros Hs Hc. destruct c as [l|n|m| | | |idx| | |]; cbn [run keepsSequence] in *.
  - (* setFrames *)
    apply (navigable_view (set_currentFrame (JS.Num 0) (set_frames l s)));
      [apply stop_view|].
    destruct s as [[fr cur f lm pl dir tm] e].
    destruct Hs as (_ & _ & Hd).
    unfold navigable, indexInRange, frameCount.
    cbn [fields fst frames currentFrame direction set_currentFrame
         set_frames] in *.
    assert (0 < Z.of_nat (List.length l)) by (destruct l; [congruence | cbn; lia]).
    repeat split; try assumption.
    exists 0. split; [reflexivity | lia].
  - (* setFPS *)
    unfold setFPS.
    assert (Hs' : navigable (set_fps n s))
      by (revert Hs; apply navigable_view; destruct s as [[] ?]; reflexivity).
    destruct (playing (fields (set_fps n s))); [|exact Hs'].
    apply (navigable_view (stop (set_fps n s))); [apply play_view|].
    apply (navigable_view (set_fps n s)); [apply stop_view | exact Hs'].
  - (* setLoopMode *)
    destruct s as [[fr cur f lm pl dir tm] e].
    destruct Hs as (Hn & Hidx & _).
    repeat split; try assumption. left. reflexivity.
  - revert Hs. apply navigable_view, play_view.
  - revert Hs. apply navigable_view, stop_view.
  - apply navigable_advanceFrame, Hs.
  - destruct idx as [j|]; [|contradiction].
    apply navigable_goToFrame, Hs.
  - destruct (nextFrame_numeric s Hs) as (j & ->).
    apply navigable_goToFrame, Hs.
  - destruct (previousFrame_numeric s Hs) as (j & ->).
    apply navigable_goToFrame, Hs.
  - contradiction.
Qed.

End Navigation.

Lemma navigable_preserved_witness :
  navigable (run call_advanceFrame bounce3).
Proof.
  apply (navigable_preserved call_advanceFrame bounce3).
  - split; [reflexivity|]. split.
    + exists 0. split; [reflexivity | cbn; lia].
    + left. reflexivity.
  - exact I.
Defined.

Section LoopModes.

Context {Frame : Type}.
Implicit Types s : State Frame.

Lemma ticks_add (a b : nat) s : ticks (a + b) s = ticks b (ticks a s).
Proof.
  revert s. induction a as [|a IH]; intros s; [reflexivity|].
  cbn [Nat.add ticks]. apply IH.
Qed.

(** One tick of the loop discipline. *)
Lemma loop_tick
  (fr : list Frame) (i f : Z) (pl : bool) (dir : Z) (tm : option Z)
  (e : Env) :
  0 <= i -> 0 < Z.of_nat (List.length fr) ->
  advanceFrame (mkFields fr (JS.Num i) f "loop" pl dir tm, e)
  = (mkFields fr (JS.Num ((i + 1) mod Z.of_nat (List.length fr)))
              f "loop" pl dir tm,
     mkEnv (timers e) (nextHandle e)
           (emitted e ++ [frameChange
                            (JS.Num ((i + 1) mod Z.of_nat (List.length fr)))])).
Proof.
  intros Hi HN. unfold advanceFrame, frameCount.
  cbn [fields env fst snd frames currentFrame loopMode String.eqb
       Ascii.eqb Bool.eqb JS.add JS.rem].
  replace (Z.of_nat (List.length fr) =? 0) with false
    by (symmetry; apply Z.eqb_neq; lia).
  rewrite Z.rem_mod_nonneg by lia. reflexivity.
Qed.

Lemma loop_ticks
  (fr : list Frame) (f : Z) (pl : bool) (dir : Z) (tm : option Z)
  (ts : list Timer) (nh : Z) (k : nat) :
  forall (i : Z) (em : list Event),
    0 <= i < Z.of_nat (List.length fr) ->
    exists em',
      ticks k (mkFields fr (JS.Num i) f "loop" pl dir tm, mkEnv ts nh em)
      = (mkFields fr (JS.Num ((i + Z.of_nat k) mod Z.of_nat (List.length fr)))
                  f "loop" pl dir tm,
         mkEnv ts nh em').
Proof.
  induction k as [|k IH]; intros i em Hi.
  - exists em. cbn [ticks Z.of_nat]. rewrite Z.add_0_r, Z.mod_small by lia.
    reflexivity.
  - cbn [ticks]. rewrite loop_tick by lia. cbn [timers nextHandle emitted].
    destruct (IH ((i + 1) mod Z.of_nat (List.length fr))
                (em ++ [frameChange
                          (JS.Num ((i + 1) mod Z.of_nat (List.length fr)))]))
      as (em' & E).
    { apply Z.mod_pos_bound. lia. }
    exists em'. rewrite E. do 3 f_equal.
    rewrite Z.add_mod_idemp_l by lia. f_equal. lia.
Qed.

(** X9. Under the loop discipline on [N >= 1] frames, [k] ticks move
    the index from [i] to [(i + k) mod N] and touch neither the play
    state nor the interval; after [N] ticks the index is back where it
    was. *)
Theorem loop_wraps_around s (i : Z) (k : nat) :
  loopMode (fields s) = "loop"%string ->
  currentFrame (fields s) = JS.Num i ->
  0 <= i < frameCount s ->
  currentFrame (fields (ticks k s))
    = JS.Num ((i + Z.of_nat k) mod frameCount s) /\
  playing (fields (ticks k s)) = playing (fields s) /\
  timers (env (ticks k s)) = timers (env s) /\
  currentFrame (fields (ticks (List.length (frames (fields s))) s))
    = JS.Num i.
Proof.
  destruct s as [[fr cur f lm pl dir tm] [ts nh em]]. unfold frameCount.
  cbn [fields env fst snd frames loopMode currentFrame playing timers].
  intros -> -> Hi.
  destruct (loop_ticks fr f pl dir tm ts nh k i em Hi) as (em1 & ->).
  destruct (loop_ticks fr f pl dir tm ts nh (List.length fr) i em Hi)
    as (em2 & ->).
  cbn [fields env fst snd currentFrame playing timers].
  repeat split.
  rewrite <- (Z.mul_1_l (Z.of_nat (List.length fr))) at 1.
  rewrite Z.mod_add, Z.mod_small by lia. reflexivity.
Qed.

(** One tick of the ping-pong discipline, forwards. *)
Lemma pingpong_tick_forward
  (fr : list Frame) (j f : Z) (pl : bool) (tm : option Z) (e : Env) :
  0 <= j ->
  advanceFrame (mkFields fr (JS.Num j) f "pingpong" pl 1 tm, e)
  = (if Z.of_nat (List.length fr) - 1 <=? j + 1
     then mkFields fr (JS.Num (Z.of_nat (List.length fr) - 1))
                   f "pingpong" pl (-1) tm
     else mkFields fr (JS.Num (j + 1)) f "pingpong" pl 1 tm,
     mkEnv (timers e) (nextHandle e)
           (emitted e ++
            [frameChange
               (JS.Num (if Z.of_nat (List.length fr) - 1 <=? j + 1
                        then Z.of_nat (List.length fr) - 1 else j + 1))])).
Proof.
  intros Hj. unfold advanceFrame, frameCount.
  cbn [fields env fst snd frames currentFrame loopMode direction String.eqb
       Ascii.eqb Bool.eqb JS.add JS.ge JS.le].
  replace (Z.of_nat (List.length fr) + -1)
    with (Z.of_nat (List.length fr) - 1) by lia.
  destruct (Z.of_nat (List.length fr) - 1 <=? j + 1) eqn:E; [reflexivity|].
  replace (j + 1 <=? 0) with false by (symmetry; apply Z.leb_gt; lia).
  reflexivity.
Qed.

(** One tick of the ping-pong discipline, backwards, on two frames or
    more. *)
Lemma pingpong_tick_backward
  (fr : list Frame) (j f : Z) (pl : bool) (tm : option Z) (e : Env) :
  0 <= j <= Z.of_nat (List.length fr) - 1 ->
  2 <= Z.of_nat (List.length fr) ->
  advanceFrame (mkFields fr (JS.Num j) f "pingpong" pl (-1) tm, e)
  = (if j - 1 <=? 0
     then mkFields fr (JS.Num 0) f "pingpong" pl 1 tm
     else mkFields fr (JS.Num (j - 1)) f "pingpong" pl (-1) tm,
     mkEnv (timers e) (nextHandle e)
           (emitted e ++
            [frameChange (JS.Num (if j - 1 <=? 0 then 0 else j - 1))])).
Proof.
  intros Hj HN. unfold advanceFrame, frameCount.
  cbn [fields env fst snd frames currentFrame loopMode direction String.eqb
       Ascii.eqb Bool.eqb JS.add JS.ge JS.le].
  replace (j + -1) with (j - 1) by lia.
  replace (Z.of_nat (List.length fr) + -1 <=? j - 1) with false
    by (symmetry; apply Z.leb_gt; lia).
  destruct (j - 1 <=? 0); reflexivity.
Qed.

(** The forward sweep: from index [j] the index climbs one per tick. *)
Lemma pingpong_climb
  (fr : list Frame) (f : Z) (pl : bool) (tm : option Z)
  (ts : list Timer) (nh : Z) (k : nat) :
  forall (j : Z) (em : list Event),
    0 <= j -> j + Z.of_nat k < Z.of_nat (List.length fr) - 1 ->
    exists em',
      ticks k (mkFields fr (JS.Num j) f "pingpong" pl 1 tm, mkEnv ts nh em)
      = (mkFields fr (JS.Num (j + Z.of_nat k)) f "pingpong" pl 1 tm,
         mkEnv ts nh em').
Proof.
  induction k as [|k IH]; intros j em Hj Hk.
  - exists em. cbn [ticks Z.of_nat]. rewrite Z.add_0_r. reflexivity.
  - cbn [ticks]. rewrite pingpong_tick_forward by lia.
    replace (Z.of_nat (List.length fr) - 1 <=? j + 1) with false
      by (symmetry; apply Z.leb_gt; lia).
    cbn [timers nextHandle emitted].
    destruct (IH (j + 1) (em ++ [frameChange (JS.Num (j + 1))])
                ltac:(lia) ltac:(lia)) as (em' & E).
    exists em'. rewrite E. do 3 f_equal. lia.
Qed.

(** The backward sweep: down to index 1 the index falls one per tick. *)
Lemma pingpong_descend
  (fr : list Frame) (f : Z) (pl : bool) (tm : option Z)
  (ts : list Timer) (nh : Z) (k : nat) :
  forall (j : Z) (em : list Event),
    j <= Z.of_nat (List.length fr) - 1 -> 0 < j - Z.of_nat k ->
    exists em',
      ticks k (mkFields fr (JS.Num j) f "pingpong" pl (-1) tm, mkEnv ts nh em)
      = (mkFields fr (JS.Num (j - Z.of_nat k)) f "pingpong" pl (-1) tm,
         mkEnv ts nh em').
Proof.
  induction k as [|k IH]; intros j em Hj Hk.
  - exists em. cbn [ticks Z.of_nat]. rewrite Z.sub_0_r. reflexivity.
  - cbn [ticks]. rewrite pingpong_tick_backward by lia.
    replace (j - 1 <=? 0) with false by (symmetry; apply Z.leb_gt; lia).
    cbn [timers nextHandle emitted].
    destruct (IH (j - 1) (em ++ [frameChange (JS.Num (j - 1))])
                ltac:(lia) ltac:(lia)) as (em' & E).
    exists em'. rewrite E. do 3 f_equal. lia.
Qed.

(** From the first frame the forward sweep reaches the last one in
    [N - 1] ticks and turns round there. *)
Lemma pingpong_to_top
  (fr : list Frame) (f : Z) (pl : bool) (tm : option Z)
  (ts : list Timer) (nh : Z) (em : list Event) :
  2 <= Z.of_nat (List.length fr) ->
  exists em',
    ticks (List.length fr - 1)
          (mkFields fr (JS.Num 0) f "pingpong" pl 1 tm, mkEnv ts nh em)
    = (mkFields fr (JS.Num (Z.of_nat (List.length fr) - 1))
                f "pingpong" pl (-1) tm,
       mkEnv ts nh em').
Proof.
  intros HN.
  replace (List.length fr - 1)%nat with ((List.length fr - 2) + 1)%nat by lia.
  rewrite ticks_add.
  destruct (pingpong_climb fr f pl tm ts nh (List.length fr - 2) 0 em
              ltac:(lia) ltac:(lia)) as (em1 & ->).
  cbn [ticks]. rewrite pingpong_tick_forward by lia.
  replace (Z.of_nat (List.length fr) - 1
           <=? 0 + Z.of_nat (List.length fr - 2) + 1)
    with true by (symmetry; apply Z.leb_le; lia).
  eexists. reflexivity.
Qed.

(** From the last frame the backward sweep reaches the first one in
    [N - 1] ticks and turns round again. *)
Lemma pingpong_to_bottom
  (fr : list Frame) (f : Z) (pl : bool) (tm : option Z)
  (ts : list Timer) (nh : Z) (em : list Event) :
  2 <= Z.of_nat (List.length fr) ->
  exists em',
    ticks (List.length fr - 1)
          (mkFields fr (JS.Num (Z.of_nat (List.length fr) - 1))
                    f "pingpong" pl (-1) tm, mkEnv ts nh em)
    = (mkFields fr (JS.Num 0) f "pingpong" pl 1 tm, mkEnv ts nh em').
Proof.
  intros HN.
  replace (List.length fr - 1)%nat with ((List.length fr - 2) + 1)%nat by lia.
  rewrite ticks_add.
  destruct (pingpong_descend fr f pl tm ts nh (List.length fr - 2)
              (Z.of_nat (List.length fr) - 1) em
              ltac:(lia) ltac:(lia)) as (em1 & ->).
  cbn [ticks]. rewrite pingpong_tick_backward by lia.
  replace (Z.of_nat (List.length fr) - 1 - Z.of_nat (List.length fr - 2) - 1
           <=? 0)
    with true by (symmetry; apply Z.leb_le; lia).
  eexists. reflexivity.
Qed.

(** X10. Under the ping-pong discipline on [N >= 2] frames, starting at
    index 0 with direction +1: the index after [k <= N-1] ticks is [k];
    after [N-1+k] ticks it is [N-1-k]; and after [2(N-1)] ticks the
    manager is back at index 0 with direction +1.  Play state and
    interval are never touched. *)
Theorem pingpong_sweep s (N : nat) :
  List.length (frames (fields s)) = N -> (2 <= N)%nat ->
  loopMode (fields s) = "pingpong"%string ->
  currentFrame (fields s) = JS.Num 0 ->
  direction (fields s) = 1 ->
  (forall k : nat, (k <= N - 1)%nat ->
     currentFrame (fields (ticks k s)) = JS.Num (Z.of_nat k)) /\
  (forall k : nat, (k <= N - 1)%nat ->
     currentFrame (fields (ticks (N - 1 + k) s))
       = JS.Num (Z.of_nat N - 1 - Z.of_nat k)) /\
  currentFrame (fields (ticks (2 * (N - 1)) s)) = JS.Num 0 /\
  direction (fields (ticks (2 * (N - 1)) s)) = 1 /\
  playing (fields (ticks (2 * (N - 1)) s)) = playing (fields s) /\
  timers (env (ticks (2 * (N - 1)) s)) = timers (env s).
Proof.
  destruct s as [[fr cur f lm pl dir tm] [ts nh em]].
  cbn [fields env fst snd frames loopMode currentFrame direction playing
       timers].
  intros <- HN -> -> ->.
  assert (HN' : 2 <= Z.of_nat (List.length fr)) by lia.
  destruct (pingpong_to_top fr f pl tm ts nh em HN') as (emT & Htop).
  destruct (pingpong_to_bottom fr f pl tm ts nh emT HN') as (emB & Hbot).
  split; [|split].
  - intros k Hk.
    destruct (Nat.eq_dec k (List.length fr - 1)) as [->|Hne].
    + rewrite Htop. cbn [fields fst currentFrame]. f_equal. lia.
    + destruct (pingpong_climb fr f pl tm ts nh k 0 em ltac:(lia) ltac:(lia))
        as (em1 & ->).
      reflexivity.
  - intros k Hk. rewrite ticks_add, Htop.
    destruct (Nat.eq_dec k (List.length fr - 1)) as [->|Hne].
    + rewrite Hbot. cbn [fields fst currentFrame]. f_equal. lia.
    + destruct (pingpong_descend fr f pl tm ts nh k
                  (Z.of_nat (List.length fr) - 1) emT ltac:(lia) ltac:(lia))
        as (em1 & ->).
      reflexivity.
  - replace (2 * (List.length fr - 1))%nat
      with ((List.length fr - 1) + (List.length fr - 1))%nat by lia.
    rewrite ticks_add, Htop, Hbot. repeat split.
Qed.

End LoopModes.

Lemma loop_wraps_around_witness :
  currentFrame (fields (ticks 3 (@setFrames unit [tt; tt; tt] init)))
  = JS.Num 0.
Proof.
  destruct (loop_wraps_around (@setFrames unit [tt; tt; tt] init) 0 3
              eq_refl eq_refl ltac:(cbn; lia)) as (_ & _ & _ & H).
  exact H.
Defined.

Lemma pingpong_sweep_witness :
  currentFrame (fields (ticks 4 bounce3)) = JS.Num 0 /\
  direction (fields (ticks 4 bounce3)) = 1.
Proof.
  destruct (pingpong_sweep bounce3 3 eq_refl ltac:(lia) eq_refl eq_refl
              eq_refl) as (_ & _ & H1 & H2 & _).
  exact (conj H1 H2).
Defined.

Section ManualNavigation.

Context {Frame : Type}.
Implicit Types s : State Frame.

(** A jump to an index inside the sequence is accepted: it stores the
    index and emits one notification. *)
Lemma goToFrame_accept
  (fr : list Frame) (cur : JS.num) (f : Z) (lm : string) (pl : bool)
  (dir : Z) (tm : option Z) (e : Env) (j : Z) :
  0 <= j < Z.of_nat (List.length fr) ->
  goToFrame (JS.Num j) (mkFields fr cur f lm pl dir tm, e)
  = (mkFields fr (JS.Num j) f lm pl dir tm,
     mkEnv (timers e) (nextHandle e) (emitted e ++ [frameChange (JS.Num j)])).
Proof.
  intros Hj. unfold goToFrame, frameCount.
  cbn [fields fst frames JS.lt JS.ge JS.le].
  replace (j <? 0) with false by (symmetry; apply Z.ltb_ge; lia).
  replace (Z.of_nat (List.length fr) <=? j) with false
    by (symmetry; apply Z.leb_gt; lia).
  reflexivity.
Qed.

Lemma nextFrame_step
  (fr : list Frame) (i f : Z) (lm : string) (pl : bool)
  (dir : Z) (tm : option Z) (e : Env) :
  0 <= i < Z.of_nat (List.length fr) ->
  nextFrame (mkFields fr (JS.Num i) f lm pl dir tm, e)
  = (mkFields fr (JS.Num ((i + 1) mod Z.of_nat (List.length fr)))
              f lm pl dir tm,
     mkEnv (timers e) (nextHandle e)
           (emitted e ++
            [frameChange (JS.Num ((i + 1) mod Z.of_nat (List.length fr)))])).
Proof.
  intros Hi. unfold nextFrame, frameCount.
  cbn [fields fst frames currentFrame JS.add JS.rem].
  replace (Z.of_nat (List.length fr) =? 0) with false
    by (symmetry; apply Z.eqb_neq; lia).
  rewrite Z.rem_mod_nonneg by lia.
  apply goToFrame_accept. apply Z.mod_pos_bound. lia.
Qed.

Lemma previousFrame_step
  (fr : list Frame) (i f : Z) (lm : string) (pl : bool)
  (dir : Z) (tm : option Z) (e : Env) :
  0 <= i < Z.of_nat (List.length fr) ->
  previousFrame (mkFields fr (JS.Num i) f lm pl dir tm, e)
  = (mkFields fr (JS.Num ((i - 1) mod Z.of_nat (List.length fr)))
              f lm pl dir tm,
     mkEnv (timers e) (nextHandle e)
           (emitted e ++
            [frameChange (JS.Num ((i - 1) mod Z.of_nat (List.length fr)))])).
Proof.
  intros Hi. unfold previousFrame, frameCount.
  cbn [fields fst frames currentFrame JS.add JS.lt].
  replace (i + -1) with (i - 1) by lia.
  destruct (i - 1 <? 0) eqn:E.
  - apply Z.ltb_lt in E. assert (i = 0) by lia. subst i.
    replace ((0 - 1) mod Z.of_nat (List.length fr))
      with (Z.of_nat (List.length fr) - 1).
    + apply goToFrame_accept. lia.
    + apply Z.mod_unique with (q := -1); lia.
  - apply Z.ltb_ge in E. rewrite Z.mod_small by lia.
    apply goToFrame_accept. lia.
Qed.

(** X11. On a sequence of [N >= 1] frames with the index [i] inside it,
    [nextFrame] moves to [(i + 1) mod N] and [previousFrame] to
    [(i - 1) mod N]; each appends exactly one notification to those
    already sent, the [frameChange] of the index it moved to; they undo
    each other and neither touches the play state or the interval. *)
Theorem next_previous_inverse s (i : Z) :
  currentFrame (fields s) = JS.Num i -> 0 <= i < frameCount s ->
  currentFrame (fields (nextFrame s)) = JS.Num ((i + 1) mod frameCount s) /\
  currentFrame (fields (previousFrame s))
    = JS.Num ((i - 1) mod frameCount s) /\
  fields (previousFrame (nextFrame s)) = fields s /\
  fields (nextFrame (previousFrame s)) = fields s /\
  timers (env (nextFrame s)) = timers (env s) /\
  timers (env (previousFrame s)) = timers (env s) /\
  emitted (env (nextFrame s))
    = emitted (env s) ++ [frameChange (currentFrame (fields (nextFrame s)))]
  /\
  emitted (env (previousFrame s))
    = emitted (env s)
      ++ [frameChange (currentFrame (fields (previousFrame s)))].
Proof.
  destruct s as [[fr cur f lm pl dir tm] [ts nh em]]. unfold frameCount.
  cbn [fields env fst snd frames currentFrame]. intros -> Hi.
  set (N := Z.of_nat (List.length fr)) in *.
  assert (Hn : 0 <= (i + 1) mod N < N) by (apply Z.mod_pos_bound; lia).
  assert (Hp : 0 <= (i - 1) mod N < N) by (apply Z.mod_pos_bound; lia).
  repeat (first [ rewrite nextFrame_step by assumption
                | rewrite previousFrame_step by assumption ];
          cbn [timers nextHandle emitted]).
  cbn [fields env fst snd currentFrame timers emitted]. fold N.
  repeat split.
  - do 2 f_equal. rewrite Zminus_mod_idemp_l.
    replace (i + 1 - 1) with i by lia. apply Z.mod_small, Hi.
  - do 2 f_equal. rewrite Zplus_mod_idemp_l.
    replace (i - 1 + 1) with i by lia. apply Z.mod_small, Hi.
Qed.

End ManualNavigation.

Lemma next_previous_inverse_witness :
  fields (previousFrame (nextFrame bounce3)) = fields bounce3.
Proof.
  destruct (next_previous_inverse bounce3 0 eq_refl ltac:(cbn; lia))
    as (_ & _ & H & _).
  exact H.
Defined.

Section PlayState.

Context {Frame : Type}.
Implicit Types s : State Frame.

(** [stop] on a playing manager whose interval is the live one. *)
Lemma stop_playing_state
  (fr : list Frame) (cur : JS.num) (f : Z) (lm : string) (dir h f' nh : Z)
  (em : list Event) :
  h <> 0 ->
  stop (mkFields fr cur f lm true dir (Some h),
        mkEnv [mkTimer h f'] nh em)
  = (mkFields fr cur f lm false dir None,
     mkEnv [] nh (em ++ [playStateChange false])).
Proof.
  intros Hh. unfold stop. cbn [fields fst playing negb].
  unfold set_playing, emit, fields, env.
  cbn [fst snd animationTimer].
  replace (h =? 0) with false by (symmetry; apply Z.eqb_neq; lia).
  unfold clearInterval, set_animationTimer, fields, env.
  cbn [fst snd timers nextHandle emitted filter handle frames
       currentFrame fps loopMode playing direction].
  rewrite Z.eqb_refl. reflexivity.
Qed.

(** [play] on a stopped manager that has frames. *)
Lemma play_stopped_state
  (fr : list Frame) (cur : JS.num) (f : Z) (lm : string) (dir : Z)
  (tm : option Z) (ts : list Timer) (nh : Z) (em : list Event) :
  fr <> [] ->
  play (mkFields fr cur f lm false dir tm, mkEnv ts nh em)
  = (mkFields fr cur f lm true dir (Some nh),
     mkEnv (ts ++ [mkTimer nh f]) (nh + 1) (em ++ [playStateChange true])).
Proof.
  intros Hfr. unfold play, frameCount. cbn [fields fst frames playing].
  replace (Z.of_nat (List.length fr) =? 0) with false
    by (symmetry; apply Z.eqb_neq; destruct fr; [congruence | cbn; lia]).
  reflexivity.
Qed.

Lemma playingHasFrames_stop s : playingHasFrames (stop s).
Proof.
  intros H. rewrite (proj1 (stop_fields s)) in H. discriminate H.
Qed.

Lemma playingHasFrames_play s :
  playingHasFrames s -> playingHasFrames (play s).
Proof.
  destruct s as [[fr cur f lm pl dir tm] e].
  unfold playingHasFrames, play, frameCount.
  cbn [fields fst frames playing].
  destruct (Z.of_nat (List.length fr) =? 0) eqn:E; [exact (fun H => H)|].
  destruct pl; [exact (fun H => H)|].
  intros _ _. apply Z.eqb_neq in E.
  unfold setInterval, set_animationTimer, emit, set_playing, fields, env.
  cbn [fst snd frames]. lia.
Qed.

Lemma playingHasFrames_advanceFrame s :
  playingHasFrames s -> playingHasFrames (advanceFrame s).
Proof.
  destruct s as [[fr cur f lm pl dir tm] e].
  unfold playingHasFrames, advanceFrame, frameCount.
  cbn [fields fst frames playing loopMode currentFrame direction].
  intros H.
  destruct (String.eqb lm "loop"); [exact H|].
  destruct (String.eqb lm "once").
  { destruct (JS.lt _ _); [exact H|].
    pose proof (stop_fields (mkFields fr cur f lm pl dir tm, e)) as [Hs _].
    intros Hp. cbn [emit fields fst] in Hp. rewrite Hs in Hp.
    discriminate Hp. }
  destruct (String.eqb lm "pingpong"); [|exact H].
  destruct (JS.ge _ _); [exact H|]. destruct (JS.le _ _); exact H.
Qed.

Lemma playingHasFrames_goToFrame s idx :
  playingHasFrames s -> playingHasFrames (goToFrame idx s).
Proof.
  destruct s as [[fr cur f lm pl dir tm] e].
  unfold playingHasFrames, goToFrame, frameCount.
  cbn [fields fst frames playing]. intros H.
  destruct (_ || _); exact H.
Qed.

Lemma playingHasFrames_run (c : Call Frame) s :
  playingHasFrames s -> playingHasFrames (run c s).
Proof.
  intros H. destruct c; cbn [run].
  - apply playingHasFrames_stop.
  - unfold setFPS. destruct (playing (fields (set_fps n s))) eqn:E.
    + apply playingHasFrames_play, playingHasFrames_stop.
    + destruct s as [[] ?]. exact H.
  - destruct s as [[] ?]. exact H.
  - apply playingHasFrames_play, H.
  - apply playingHasFrames_stop.
  - apply playingHasFrames_advanceFrame, H.
  - apply playingHasFrames_goToFrame, H.
  - apply playingHasFrames_goToFrame, H.
  - apply playingHasFrames_goToFrame, H.
  - intros Hp. unfold destroy in Hp.
    pose proof (stop_fields s) as [Hs _].
    destruct (stop s) as [[] ?]. cbn in Hp, Hs. congruence.
Qed.

Lemma reachable_playingHasFrames s : reachable s -> playingHasFrames s.
Proof.
  induction 1 as [|c s _ IH].
  - intros H. discriminate H.
  - apply playingHasFrames_run, IH.
Qed.

(** X12. Changing the frame rate of a playing manager restarts it: the
    old interval is cleared and exactly one new interval, at the new
    rate, is live; the frame index is not reset.  On a stopped manager
    only the stored rate changes. *)
Theorem setFPS_restarts s (n : Z) :
  reachable s ->
  fps (fields (setFPS n s)) = n /\
  currentFrame (fields (setFPS n s)) = currentFrame (fields s) /\
  playing (fields (setFPS n s)) = playing (fields s) /\
  (playing (fields s) = true ->
     timers (env (setFPS n s)) = [mkTimer (nextHandle (env s)) n] /\
     animationTimer (fields (setFPS n s)) = Some (nextHandle (env s))) /\
  (playing (fields s) = false ->
     setFPS n s = set_fps n s /\ timers (env (setFPS n s)) = []).
Proof.
  intros Hr.
  pose proof (reachable_timerInvariant s Hr) as [Hnh Hinv].
  pose proof (reachable_playingHasFrames s Hr) as Hfr.
  destruct s as [[fr cur f lm pl dir tm] [ts nh em]].
  unfold playingHasFrames, frameCount in Hfr.
  cbn [fields env fst snd frames playing timers nextHandle animationTimer
       currentFrame] in *.
  unfold setFPS, set_fps.
  cbn [fields env fst snd frames currentFrame fps loopMode playing
       direction animationTimer].
  destruct pl.
  - destruct Hinv as (h & f' & -> & -> & Hh).
    specialize (Hfr eq_refl).
    rewrite stop_playing_state by lia.
    rewrite play_stopped_state by (intros ->; cbn in Hfr; lia).
    cbn [fields env fst snd fps currentFrame playing timers animationTimer
         app].
    split; [reflexivity|]. split; [reflexivity|]. split; [reflexivity|].
    split; [intros _; split; reflexivity|].
    intros H; discriminate H.
  - cbn [fields env fst snd fps currentFrame playing timers].
    split; [reflexivity|]. split; [reflexivity|]. split; [reflexivity|].
    split; [intros H; discriminate H|].
    intros _. split; [reflexivity | exact Hinv].
Qed.

(** X13. [setFrames] installs the new sequence with the index at 0 and
    the manager stopped with no live interval; rate, loop mode and
    direction are kept.  It emits a play-state notification only if the
    manager was playing and never a frame-change notification. *)
Theorem setFrames_resets s (l : list Frame) :
  reachable s ->
  let s' := setFrames l s in
  frames (fields s') = l /\
  currentFrame (fields s') = JS.Num 0 /\
  playing (fields s') = false /\
  timers (env s') = [] /\
  fps (fields s') = fps (fields s) /\
  loopMode (fields s') = loopMode (fields s) /\
  direction (fields s') = direction (fields s) /\
  emitted (env s')
    = emitted (env s)
      ++ (if playing (fields s) then [playStateChange false] else []).
Proof.
  intros Hr.
  pose proof (reachable_timerInvariant s Hr) as [Hnh Hinv].
  destruct s as [[fr cur f lm pl dir tm] [ts nh em]].
  cbn [fields env fst snd playing timers nextHandle animationTimer] in *.
  unfold setFrames, set_currentFrame, set_frames.
  cbn [fields env fst snd frames currentFrame fps loopMode playing
       direction animationTimer emitted].
  destruct pl.
  - destruct Hinv as (h & f' & -> & -> & Hh).
    rewrite stop_playing_state by lia.
    cbn [fields env fst snd frames currentFrame fps loopMode playing
         direction timers emitted].
    repeat split.
  - unfold stop. cbn [fields env fst snd frames currentFrame fps loopMode
                      playing direction timers emitted negb].
    rewrite app_nil_r. repeat split. exact Hinv.
Qed.

(** X14. Every tick ends by emitting exactly one frame-change
    notification, carrying the index the tick leaves behind; the only
    other notification a tick can emit is the play-state change of a
    playing manager that the once discipline stops at the end. *)
Theorem advanceFrame_notifies s :
  let ended :=
    String.eqb (loopMode (fields s)) "once"
    && negb (JS.lt (currentFrame (fields s))
                   (JS.add (JS.Num (frameCount s)) (JS.Num (-1))))
    && playing (fields s) in
  emitted (env (advanceFrame s))
  = emitted (env s)
    ++ (if ended then [playStateChange false] else [])
    ++ [frameChange (currentFrame (fields (advanceFrame s)))].
Proof.
  destruct s as [[fr cur f lm pl dir tm] [ts nh em]].
  unfold advanceFrame, frameCount.
  cbn [fields env fst snd frames currentFrame loopMode playing direction].
  destruct (String.eqb_spec lm "loop") as [->|_]; [reflexivity|].
  destruct (String.eqb lm "once"); cbn [andb negb].
  - destruct (JS.lt _ _); cbn [andb negb]; [reflexivity|].
    unfold stop. cbn [fields fst playing].
    destruct pl; cbn [negb]; [|reflexivity].
    unfold set_playing, emit, fields, env.
    cbn [fst snd animationTimer timers nextHandle emitted].
    destruct tm as [h|]; [destruct (h =? 0)|];
      cbn [fst snd emitted currentFrame clearInterval set_animationTimer
           fields env];
      rewrite <- app_assoc; reflexivity.
  - destruct (String.eqb lm "pingpong"); [|reflexivity].
    destruct (JS.ge _ _); [reflexivity|].
    destruct (JS.le _ _); reflexivity.
Qed.

End PlayState.

Lemma setFPS_restarts_witness :
  timers (env (setFPS 12 playing2)) = [mkTimer 2 12] /\
  currentFrame (fields (setFPS 12 playing2)) = JS.Num 0.
Proof.
  assert (Hr : reachable playing2).
  { apply (reachable_run call_play), (reachable_run (call_setFrames [tt; tt])),
      reachable_init. }
  destruct (setFPS_restarts playing2 12 Hr) as (_ & Hc & _ & Hp & _).
  destruct (Hp eq_refl) as (Ht & _).
  exact (conj Ht Hc).
Defined.

Lemma setFrames_resets_witness :
  playing (fields (setFrames [tt] playing2)) = false /\
  timers (env (setFrames [tt] playing2)) = [].
Proof.
  assert (Hr : reachable playing2).
  { apply (reachable_run call_play), (reachable_run (call_setFrames [tt; tt])),
      reachable_init. }
  destruct (setFrames_resets playing2 [tt] Hr) as (_ & _ & Hp & Ht & _).
  exact (conj Hp Ht).
Defined.

(* ===================================================================== *)
(** * Further properties of frame ingestion *)
(* ===================================================================== *)

Import SequenceHandler.

Section FramesOfFiles.

Lemma framesOfFiles_length (w hh : Z) (l : list File) :
  Forall (decodesTo w hh) l ->
  forall i, List.length (framesOfFiles i l) = List.length l.
Proof.
  induction 1 as [|p l (img & Hp & _) _ IH]; intros i; [reflexivity|].
  rewrite (framesOfFiles_decoded i p l img Hp). cbn [List.length].
  f_equal. apply IH.
Qed.

Lemma framesOfFiles_nth (w hh : Z) (l : list File) :
  Forall (decodesTo w hh) l ->
  forall (i : Z) (k : nat) (fr : Frame),
    nth_error (framesOfFiles i l) k = Some fr ->
    index fr = i + Z.of_nat k /\
    img_width (image fr) = w /\ img_height (image fr) = hh /\
    pixelData fr = processImage (image fr) /\
    originalPixelData fr = processImage (image fr) /\
    exists file, nth_error l k = Some file /\
                 filename fr = name file /\ decoded file = Some (image fr).
Proof.
  induction 1 as [|p l (img & Hp & Hw & Hh) _ IH]; intros i k fr Hk.
  - destruct k; discriminate Hk.
  - rewrite (framesOfFiles_decoded i p l img Hp) in Hk.
    destruct k as [|k].
    + injection Hk as <-. cbn [index image pixelData originalPixelData
                               filename nth_error Z.of_nat].
      repeat split; try assumption; try lia.
      exists p. repeat split. exact Hp.
    + cbn [nth_error] in Hk. destruct (IH (i + 1) k fr Hk)
        as (Hi & Hw' & Hh' & Hpd & Hop & file & Hf & Hn & Hd).
      repeat split; try assumption; try lia.
      exists file. repeat split; assumption.
Qed.

End FramesOfFiles.

Section IngestionInGeneral.

Variable localeCompare : string -> string -> Z.

(** From the second frame on: the loop pushes the frames of a prefix of
    the files, all of the recorded size, and returns only when that
    prefix is the whole list. *)
Lemma loadLoop_prefix (w hh : Z) (files : list File) :
  forall (i : Z) (h : Handler),
    0 < i -> frameWidth h = Some w -> frameHeight h = Some hh ->
    exists (n : nat) (o : Outcome unit),
      loadLoop i files h
      = (set_frames (frames h ++ framesOfFiles i (firstn n files)) h, o) /\
      Forall (decodesTo w hh) (firstn n files) /\
      (n <= List.length files)%nat /\
      (forall u, o = Returned u -> n = List.length files).
Proof.
  induction files as [|p files IH]; intros i h Hi Hw Hh.
  - exists 0%nat, (Returned tt). cbn [loadLoop firstn framesOfFiles].
    rewrite app_nil_r. unfold ret.
    repeat split; [destruct h; reflexivity | constructor | lia].
  - cbn [loadLoop]. unfold bind, loadImageFromFile.
    destruct (decoded p) as [img|] eqn:Hp.
    + unfold ret, get. cbn iota.
      replace (i =? 0) with false by (symmetry; apply Z.eqb_neq; lia).
      rewrite Hw, Hh. unfold differs.
      destruct (negb (img_width img =? w) || negb (img_height img =? hh))
        eqn:Hd.
      * exists 0%nat, (Thrown (DimensionMismatch (i + 1) (img_width img)
                                 (img_height img) (Some w) (Some hh))).
        unfold throw. cbn [firstn framesOfFiles]. rewrite app_nil_r.
        repeat split; [destruct h; reflexivity | constructor | lia
                      | discriminate].
      * apply orb_false_iff in Hd. destruct Hd as [Hdw Hdh].
        apply negb_false_iff, Z.eqb_eq in Hdw, Hdh.
        unfold modify.
        destruct (IH (i + 1)
                    (set_frames
                       (frames h ++
                        [mkFrame i (name p) img (processImage img)
                                 (processImage img)]) h)
                    ltac:(lia) Hw Hh) as (n & o & E & Hall & Hn & Hret).
        exists (S n), o. rewrite E.
        cbn [firstn frames set_frames frameWidth frameHeight frameManager
             snackbar].
        rewrite (framesOfFiles_decoded i p (firstn n files) img Hp).
        rewrite <- app_assoc. cbn [app List.length].
        repeat split; try lia.
        -- constructor; [|exact Hall]. exists img. repeat split; assumption.
        -- intros u Hu. f_equal. apply (Hret u Hu).
    + exists 0%nat, (Thrown (LoadFailed (name p))). unfold throw.
      cbn [firstn framesOfFiles]. rewrite app_nil_r.
      repeat split; [destruct h; reflexivity | constructor | cbn; lia
                    | discriminate].
Qed.

(** The whole [try] block: the frames kept are those of a prefix of the
    sorted batch, all of one size, which is the recorded size. *)
Lemma loadFrames_try_prefix (files : list File) (h : Handler) :
  exists (n : nat) (w hh : Z) (h1 : Handler) (o : Outcome unit),
    loadFrames_try localeCompare files h = (h1, o) /\
    frames h1 = framesOfFiles 0 (firstn n (sortFiles localeCompare files)) /\
    Forall (decodesTo w hh) (firstn n (sortFiles localeCompare files)) /\
    (n <= List.length files)%nat /\
    (n <> 0%nat -> frameWidth h1 = Some w /\ frameHeight h1 = Some hh) /\
    snackbar h1
      = snackbar h ++ match o with
                      | Returned _ => [snackLoaded (Z.of_nat n)]
                      | Thrown _ => []
                      end /\
    frameManager h1
      = match o with
        | Returned _ =>
            FrameManager.goToFrame (JS.Num 0)
              (FrameManager.setFrames (frames h1) (frameManager h))
        | Thrown _ => frameManager h
        end /\
    (forall u, o = Returned u -> n = List.length files /\ n <> 0%nat).
Proof.
  assert (Hlen : List.length (sortFiles localeCompare files)
                 = List.length files).
  { unfold sortFiles. induction files as [|f files IH]; [reflexivity|].
    cbn [fold_right List.length]. rewrite <- IH.
    generalize (fold_right (insertFile localeCompare) [] files).
    intros l. induction l as [|x l IHl]; [reflexivity|].
    cbn [insertFile]. destruct (_ <=? 0); cbn [List.length]; [reflexivity|].
    rewrite IHl. reflexivity. }
  unfold loadFrames_try. rewrite <- Hlen.
  destruct (sortFiles localeCompare files) as [|first rest].
  - exists 0%nat, 0, 0, (set_frames [] h), (Thrown TypeError).
    cbn [firstn framesOfFiles]. repeat split; try constructor; try lia;
      try discriminate.
    cbn [set_frames snackbar]. rewrite app_nil_r. reflexivity.
  - cbn [loadLoop]. unfold bind, modify, get, loadImageFromFile.
    destruct (decoded first) as [img|] eqn:Hp.
    + unfold ret. cbn [Z.eqb].
      destruct (loadLoop_prefix (img_width img) (img_height img) rest (0 + 1)
                  (set_frames
                     (frames (set_dimensions (img_width img) (img_height img)
                                             (set_frames [] h)) ++
                      [mkFrame 0 (name first) img (processImage img)
                               (processImage img)])
                     (set_dimensions (img_width img) (img_height img)
                                     (set_frames [] h)))
                  ltac:(lia) eq_refl eq_refl)
        as (n & o & E & Hall & Hn & Hret).
      rewrite E.
      cbn [frames set_frames set_dimensions frameWidth frameHeight
           frameManager snackbar app].
      assert (Hfirst : Forall (decodesTo (img_width img) (img_height img))
                              (first :: firstn n rest)).
      { constructor; [|exact Hall]. exists img. repeat split. exact Hp. }
      destruct o as [[]|e].
      * specialize (Hret tt eq_refl). subst n.
        exists (S (List.length rest)), (img_width img), (img_height img).
        eexists. exists (Returned tt). split; [reflexivity|].
        cbn [frames set_frameManager showSnackbar frameWidth frameHeight
             frameManager snackbar firstn List.length].
        rewrite (framesOfFiles_decoded 0 first _ img Hp).
        repeat split; try assumption; try lia; try discriminate.
      * exists (S n), (img_width img), (img_height img).
        eexists. exists (Thrown e). split; [reflexivity|].
        cbn [frames frameWidth frameHeight frameManager snackbar firstn
             List.length].
        rewrite (framesOfFiles_decoded 0 first _ img Hp).
        repeat split; try assumption; try lia; try discriminate.
        rewrite app_nil_r. reflexivity.
    + exists 0%nat, 0, 0, (set_frames [] h), (Thrown (LoadFailed (name first))).
      unfold throw. cbn [firstn framesOfFiles].
      repeat split; try constructor; try (cbn; lia); try discriminate.
      cbn [set_frames snackbar]. rewrite app_nil_r. reflexivity.
Qed.

End IngestionInGeneral.

Section IngestionTheorems.

Variable localeCompare : string -> string -> Z.

Lemma nth_error_firstn_some {A : Type} (n : nat) (l : list A) :
  forall (k : nat) (x : A),
    nth_error (firstn n l) k = Some x -> nth_error l k = Some x.
Proof.
  revert l. induction n as [|n IH]; intros l k x H.
  - destruct k; discriminate H.
  - destruct l as [|y l]; [destruct k; discriminate H|].
    destruct k as [|k]; [exact H|]. cbn [firstn nth_error] in *.
    apply IH, H.
Qed.

(** X15. Whatever the batch and however [loadFrames] ends, the frames
    it leaves in the handler are built from the first files of the
    sorted batch, in order: frame [k] has index [k], the name and image
    of the [k]-th file and the pixel data of that image, and every frame
    has the recorded [frameWidth] x [frameHeight].  The playback
    controller receives the frames only when no error was thrown; on any
    error it is left as it was and the error is reported. *)
Theorem loadFrames_frames_invariant (files : list File) (h : Handler) :
  let h' := loadFrames localeCompare files h in
  (forall (k : nat) (fr : Frame),
     nth_error (frames h') k = Some fr ->
     index fr = Z.of_nat k /\
     frameWidth h' = Some (img_width (image fr)) /\
     frameHeight h' = Some (img_height (image fr)) /\
     pixelData fr = processImage (image fr) /\
     exists file,
       nth_error (sortFiles localeCompare files) k = Some file /\
       filename fr = name file /\ decoded file = Some (image fr)) /\
  (List.length (frames h') <= List.length files)%nat /\
  match failed localeCompare files h with
  | None =>
      List.length (frames h') = List.length files /\ files <> [] /\
      frameManager h'
        = FrameManager.goToFrame (JS.Num 0)
            (FrameManager.setFrames (frames h') (frameManager h)) /\
      snackbar h'
        = snackbar h ++ [snackLoaded (Z.of_nat (List.length files))]
  | Some e =>
      frameManager h' = frameManager h /\
      snackbar h' = snackbar h ++ [snackError e]
  end.
Proof.
  destruct (loadFrames_try_prefix localeCompare files h)
    as (n & w & hh & h1 & o & E & Hfr & Hall & Hn & Hdim & Hsn & Hfm & Hret).
  unfold loadFrames, failed. rewrite E.
  pose proof (framesOfFiles_length w hh _ Hall 0) as Hlen.
  rewrite <- Hfr in Hlen.
  assert (Hle : (List.length (frames h1) <= List.length files)%nat).
  { rewrite Hlen, length_firstn. lia. }
  assert (Hframes : forall (k : nat) (fr : Frame),
            nth_error (frames h1) k = Some fr ->
            index fr = Z.of_nat k /\
            frameWidth h1 = Some (img_width (image fr)) /\
            frameHeight h1 = Some (img_height (image fr)) /\
            pixelData fr = processImage (image fr) /\
            exists file,
              nth_error (sortFiles localeCompare files) k = Some file /\
              filename fr = name file /\ decoded file = Some (image fr)).
  { intros k fr Hk. rewrite Hfr in Hk.
    destruct (framesOfFiles_nth w hh _ Hall 0 k fr Hk)
      as (Hi & Hw & Hh & Hpd & _ & file & Hf & Hnm & Hd).
    assert (Hn0 : n <> 0%nat).
    { intros ->. cbn [firstn framesOfFiles] in Hk.
      destruct k; discriminate Hk. }
    destruct (Hdim Hn0) as (Hfw & Hfh).
    repeat split; try assumption; try lia.
    - rewrite Hfw, Hw. reflexivity.
    - rewrite Hfh, Hh. reflexivity.
    - exists file. repeat split; try assumption.
      apply (nth_error_firstn_some n), Hf. }
  destruct o as [u|e].
  - destruct (Hret u eq_refl) as (Hnl & Hn0).
    split; [exact Hframes|]. split; [exact Hle|].
    repeat split.
    + rewrite Hlen, length_firstn. subst n.
      assert (List.length (sortFiles localeCompare files) = List.length files).
      { clear. unfold sortFiles. induction files as [|f files IH];
          [reflexivity|].
        cbn [fold_right List.length]. rewrite <- IH.
        generalize (fold_right (insertFile localeCompare) [] files).
        intros l. induction l as [|x l IHl]; [reflexivity|].
        cbn [insertFile]. destruct (_ <=? 0); cbn [List.length];
          [reflexivity|].
        rewrite IHl. reflexivity. }
      lia.
    + intros ->. apply Hn0. cbn in Hnl. exact Hnl.
    + exact Hfm.
    + rewrite Hsn, Hnl. reflexivity.
  - cbn [showSnackbar frames frameWidth frameHeight frameManager snackbar].
    split; [exact Hframes|]. split; [exact Hle|].
    split; [exact Hfm|]. rewrite Hsn, app_nil_r. reflexivity.
Qed.

(** When every file matches, the loop returns with all the frames. *)
Lemma loadLoop_all_match (w hh : Z) (files : list File) :
  Forall (decodesTo w hh) files ->
  forall (i : Z) (h : Handler),
    0 < i -> frameWidth h = Some w -> frameHeight h = Some hh ->
    loadLoop i files h
    = (set_frames (frames h ++ framesOfFiles i files) h, Returned tt).
Proof.
  induction 1 as [|p files (img & Hp & Hw & Hh) _ IH]; intros i h Hi Hfw Hfh.
  - cbn [loadLoop framesOfFiles]. rewrite app_nil_r. unfold ret.
    destruct h; reflexivity.
  - rewrite (framesOfFiles_decoded i p files img Hp).
    cbn [loadLoop]. unfold bind, modify, get, loadImageFromFile.
    rewrite Hp. unfold ret.
    replace (i =? 0) with false by (symmetry; apply Z.eqb_neq; lia).
    rewrite Hfw, Hfh. unfold differs. rewrite Hw, Hh, !Z.eqb_refl.
    cbn [negb orb].
    rewrite IH by (try assumption; lia).
    cbn [frames set_frames frameWidth frameHeight frameManager snackbar].
    rewrite <- app_assoc. reflexivity.
Qed.

(** X16. A non-empty batch whose files all decode to one size is
    ingested whole: no error, one frame per file in sorted order, the
    size recorded, and the playback controller (in any reachable state
    before) holds the new frames, stopped at index 0 with no live
    interval, its last notification being the frame change to 0. *)
Theorem loadFrames_success
  (files : list File) (h : Handler) (w hh : Z) :
  files <> [] ->
  Forall (decodesTo w hh) (sortFiles localeCompare files) ->
  FrameManager.reachable (frameManager h) ->
  let h' := loadFrames localeCompare files h in
  let fm' := frameManager h' in
  failed localeCompare files h = None /\
  frames h' = framesOfFiles 0 (sortFiles localeCompare files) /\
  List.length (frames h') = List.length files /\
  frameWidth h' = Some w /\ frameHeight h' = Some hh /\
  FrameManager.frames (FrameManager.fields fm') = frames h' /\
  FrameManager.currentFrame (FrameManager.fields fm') = JS.Num 0 /\
  FrameManager.playing (FrameManager.fields fm') = false /\
  FrameManager.timers (FrameManager.env fm') = [] /\
  (exists pre, FrameManager.emitted (FrameManager.env fm')
               = pre ++ [FrameManager.frameChange (JS.Num 0)]).
Proof.
  intros Hne Hall Hreach.
  pose proof (loadFrames_frames_invariant files h) as Hinv.
  assert (Htry :
    loadFrames_try localeCompare files h
    = (showSnackbar (snackLoaded (Z.of_nat (List.length
                                              (sortFiles localeCompare files))))
         (set_frameManager
            (FrameManager.goToFrame (JS.Num 0)
               (FrameManager.setFrames
                  (framesOfFiles 0 (sortFiles localeCompare files))
                  (frameManager h)))
            (mkHandler (framesOfFiles 0 (sortFiles localeCompare files))
                       (Some w) (Some hh) (frameManager h) (snackbar h))),
       Returned tt)).
  { unfold loadFrames_try.
    destruct (sortFiles localeCompare files) as [|first rest] eqn:Es.
    - exfalso. apply Hne.
      destruct files as [|f files]; [reflexivity|].
      unfold sortFiles in Es. cbn [fold_right] in Es.
      destruct (fold_right (insertFile localeCompare) [] files);
        cbn [insertFile] in Es; [discriminate Es|].
      destruct (_ <=? 0); discriminate Es.
    - inversion Hall as [|? ? (img & Hp & Hw & Hh) Hrest]; subst.
      rewrite (framesOfFiles_decoded 0 first rest img Hp).
      cbn [loadLoop]. unfold bind, modify, get, loadImageFromFile.
      rewrite Hp. unfold ret. cbn [Z.eqb].
      rewrite (loadLoop_all_match (img_width img) (img_height img) rest Hrest
                 (0 + 1)) by (try reflexivity; lia).
      cbn [frames set_frames set_dimensions frameWidth frameHeight
           frameManager snackbar app].
      reflexivity. }
  unfold loadFrames, failed in *. rewrite Htry in *.
  cbn [showSnackbar set_frameManager frames frameWidth frameHeight
       frameManager snackbar] in *.
  destruct Hinv as (_ & _ & Hlen & _).
  destruct (setFrames_resets (frameManager h)
              (framesOfFiles 0 (sortFiles localeCompare files)) Hreach)
    as (Hf & Hc & Hp & Ht & _).
  destruct (FrameManager.setFrames
              (framesOfFiles 0 (sortFiles localeCompare files))
              (frameManager h)) as [[fr cur f lm pl dir tm] [ts nh em]].
  cbn [FrameManager.fields FrameManager.env fst snd FrameManager.frames
       FrameManager.currentFrame FrameManager.playing FrameManager.timers]
    in Hf, Hc, Hp, Ht.
  subst fr cur pl ts.
  rewrite goToFrame_accept.
  - cbn [FrameManager.fields FrameManager.env fst snd FrameManager.frames
         FrameManager.currentFrame FrameManager.playing FrameManager.timers
         FrameManager.emitted].
    repeat split; try assumption. eexists. reflexivity.
  - rewrite Hlen. destruct files; [congruence | cbn; lia].
Qed.

End IngestionTheorems.

Lemma loadFrames_success_witness :
  List.length
    (frames (loadFrames compareNames [fileA; fileA] SequenceHandler.init))
  = 2%nat.
Proof.
  destruct (loadFrames_success compareNames [fileA; fileA]
              SequenceHandler.init 2 2)
    as (_ & _ & H & _).
  - discriminate.
  - repeat constructor; exists (mkImage 2 2 (repeat 0 16)); repeat split.
  - apply FrameManager.reachable_init.
  - exact H.
Defined.

Section Sorting.

Variable localeCompare : string -> string -> Z.

Lemma insertFile_perm (f : File) (l : list File) :
  Permutation (insertFile localeCompare f l) (f :: l).
Proof.
  induction l as [|x l IH]; [apply Permutation_refl|].
  cbn [insertFile]. destruct (_ <=? 0); [apply Permutation_refl|].
  apply perm_trans with (x :: f :: l); [|apply perm_swap].
  apply perm_skip, IH.
Qed.

Lemma sortFiles_perm (files : list File) :
  Permutation (sortFiles localeCompare files) files.
Proof.
  unfold sortFiles. induction files as [|f files IH]; [apply perm_nil|].
  cbn [fold_right].
  apply perm_trans with (f :: fold_right (insertFile localeCompare) [] files).
  - apply insertFile_perm.
  - apply perm_skip, IH.
Qed.

Hypothesis compare_total :
  forall a b, localeCompare a b <= 0 \/ localeCompare b a <= 0.
Hypothesis compare_trans :
  forall a b c, localeCompare a b <= 0 -> localeCompare b c <= 0 ->
                localeCompare a c <= 0.

Lemma insertFile_sorted (f : File) (l : list File) :
  StronglySorted (nameOrder localeCompare) l ->
  StronglySorted (nameOrder localeCompare) (insertFile localeCompare f l).
Proof.
  induction 1 as [|x l Hs IH Hx].
  - cbn [insertFile]. repeat constructor.
  - cbn [insertFile]. destruct (localeCompare (name f) (name x) <=? 0) eqn:E.
    + apply Z.leb_le in E. constructor; [constructor; assumption|].
      constructor; [exact E|].
      eapply Forall_impl; [|exact Hx].
      intros y Hy. unfold nameOrder in *. eapply compare_trans; eassumption.
    + apply Z.leb_gt in E. constructor; [exact IH|].
      apply (Permutation_Forall (x := f :: l)).
      * apply Permutation_sym, insertFile_perm.
      * constructor; [|exact Hx]. unfold nameOrder.
        destruct (compare_total (name f) (name x)); [lia | assumption].
Qed.

(** X17. Sorting the batch loses and duplicates no file, and for a
    comparator that is total and transitive the result is in
    non-decreasing order of names. *)
Theorem sortFiles_sorts (files : list File) :
  Permutation (sortFiles localeCompare files) files /\
  List.length (sortFiles localeCompare files) = List.length files /\
  StronglySorted (nameOrder localeCompare) (sortFiles localeCompare files).
Proof.
  split; [apply sortFiles_perm|].
  split; [apply Permutation_length, sortFiles_perm|].
  unfold sortFiles. induction files as [|f files IH]; [constructor|].
  cbn [fold_right]. apply insertFile_sorted, IH.
Qed.

End Sorting.

Lemma sortFiles_sorts_witness :
  Permutation (sortFiles compareLengths [fileB; fileA]) [fileB; fileA] /\
  StronglySorted (nameOrder compareLengths)
                 (sortFiles compareLengths [fileB; fileA]).
Proof.
  destruct (sortFiles_sorts compareLengths) with (files := [fileB; fileA])
    as (H1 & _ & H3).
  - intros a b. unfold compareLengths. lia.
  - intros a b c. unfold compareLengths. lia.
  - exact (conj H1 H3).
Defined.

Section IngestionEdges.

Variable localeCompare : string -> string -> Z.

(** X18. A batch that is empty, or whose first file (in sorted order)
    cannot be decoded, loads nothing: the handler's frame list is left
    empty, the recorded size and the playback controller are untouched,
    and the error reported is a [TypeError] for the empty batch and the
    load failure of that file otherwise. *)
Theorem loadFrames_nothing_loaded (files : list File) (h : Handler) :
  match hd_error (sortFiles localeCompare files) with
  | None => True
  | Some first => decoded first = None
  end ->
  let h' := loadFrames localeCompare files h in
  frames h' = [] /\
  frameWidth h' = frameWidth h /\ frameHeight h' = frameHeight h /\
  frameManager h' = frameManager h /\
  failed localeCompare files h
    = Some match hd_error (sortFiles localeCompare files) with
           | None => TypeError
           | Some first => LoadFailed (name first)
           end /\
  snackbar h'
    = snackbar h
      ++ [snackError match hd_error (sortFiles localeCompare files) with
                     | None => TypeError
                     | Some first => LoadFailed (name first)
                     end].
Proof.
  unfold loadFrames, failed, loadFrames_try.
  destruct (sortFiles localeCompare files) as [|first rest];
    cbn [hd_error]; intros H.
  - repeat split.
  - cbn [loadLoop]. unfold bind, modify, get, loadImageFromFile.
    rewrite H. repeat split.
Qed.

End IngestionEdges.

Lemma loadFrames_nothing_loaded_witness :
  frames (loadFrames compareNames [] SequenceHandler.init) = [] /\
  failed compareNames [] SequenceHandler.init = Some TypeError.
Proof.
  destruct (loadFrames_nothing_loaded compareNames [] SequenceHandler.init I)
    as (H1 & _ & _ & _ & H5 & _).
  exact (conj H1 H5).
Defined.

Section Toggle.

(** X19. With a controller in a reachable state that has frames,
    [togglePlayback] flips the play state, keeping at most one interval
    live (one after starting, none after stopping) and leaving the frames
    and the index alone; with no frames it leaves a stopped controller
    stopped. *)
Theorem togglePlayback_flips (h : Handler) :
  FrameManager.reachable (frameManager h) ->
  let fm := frameManager h in
  let fm' := frameManager (togglePlayback h) in
  frames (togglePlayback h) = frames h /\
  navView fm' = navView fm /\
  timerInvariant fm' /\
  (0 < FrameManager.frameCount fm ->
     FrameManager.isPlaying fm' = negb (FrameManager.isPlaying fm)) /\
  (FrameManager.frameCount fm = 0 ->
     FrameManager.isPlaying fm' = false /\ FrameManager.isPlaying fm = false).
Proof.
  intros Hr fm fm'. subst fm fm'.
  pose proof (reachable_timerInvariant _ Hr) as Hinv.
  pose proof (reachable_playingHasFrames _ Hr) as Hfr.
  unfold togglePlayback, FrameManager.isPlaying in *.
  unfold playingHasFrames in Hfr.
  destruct (FrameManager.playing (FrameManager.fields (frameManager h)))
    eqn:Hp; cbn [set_frameManager frames frameManager].
  - pose proof (stop_fields (frameManager h)) as [Hs _].
    split; [reflexivity|]. split; [apply stop_view|].
    split; [apply timerInvariant_stop, Hinv|].
    split; [intros _; rewrite Hs; reflexivity|].
    intros H0. specialize (Hfr eq_refl). lia.
  - split; [reflexivity|]. split; [apply play_view|].
    split; [apply timerInvariant_play, Hinv|].
    unfold FrameManager.play.
    split.
    + intros Hn.
      replace (FrameManager.frameCount (frameManager h) =? 0) with false
        by (symmetry; apply Z.eqb_neq; lia).
      rewrite Hp. destruct (frameManager h) as [[] []]. reflexivity.
    + intros ->. cbn [Z.eqb]. rewrite Hp. split; reflexivity.
Qed.

End Toggle.

Lemma togglePlayback_flips_witness :
  FrameManager.isPlaying
    (frameManager
       (togglePlayback
          (loadFrames compareNames [fileA] SequenceHandler.init)))
  = true.
Proof.
  assert (Hr : FrameManager.reachable
                 (frameManager
                    (loadFrames compareNames [fileA] SequenceHandler.init))).
  { apply (FrameManager.reachable_run (FrameManager.call_goToFrame (JS.Num 0))),
      (FrameManager.reachable_run
         (FrameManager.call_setFrames (framesOfFiles 0 [fileA]))),
      FrameManager.reachable_init. }
  destruct (togglePlayback_flips
              (loadFrames compareNames [fileA] SequenceHandler.init) Hr)
    as (_ & _ & _ & H & _).
  apply H. cbn. lia.
Defined.

(* ===================================================================== *)
(** * Further properties of the exporter *)
(* ===================================================================== *)

Import AnimationExporter.

Section HexTokens.

Local Open Scope string_scope.

Lemma allChars_app (test : ascii -> bool) (s1 s2 : string) :
  allChars test (s1 ++ s2) = allChars test s1 && allChars test s2.
Proof.
  induction s1 as [|c s1 IH]; [reflexivity|].
  cbn [String.append allChars]. rewrite IH, andb_assoc. reflexivity.
Qed.

Lemma string_length_app (s1 s2 : string) :
  String.length (s1 ++ s2) = (String.length s1 + String.length s2)%nat.
Proof.
  induction s1 as [|c s1 IH]; [reflexivity|].
  cbn [String.append String.length]. rewrite IH. reflexivity.
Qed.

(** The digits written for a positive number are lowercase hexadecimal
    digits. *)
Lemma of_pos_chars :
  forall (p : positive) (rest : string),
    allChars isLowerHexChar rest = true ->
    allChars isLowerHexChar (HexString.Raw.of_pos p rest) = true.
Proof.
  fix IH 1. intros p rest H.
  do 4 try destruct p as [p|p|];
    cbn [HexString.Raw.of_pos];
    try (apply IH; cbn [allChars]; rewrite H; reflexivity);
    cbn [allChars]; rewrite H; reflexivity.
Qed.

(** A number below [16^n] is written with at most [n] digits. *)
Lemma of_pos_length :
  forall (p : positive) (rest : string) (n : nat),
    Z.pos p < 16 ^ Z.of_nat n ->
    (String.length (HexString.Raw.of_pos p rest)
     <= n + String.length rest)%nat.
Proof.
  fix IH 1. intros p rest n Hp.
  destruct n as [|n]; [cbn in Hp; lia|].
  rewrite Nat2Z.inj_succ, Z.pow_succ_r in Hp by lia.
  assert (Hx : 0 < 16 ^ Z.of_nat n) by (apply Z.pow_pos_nonneg; lia).
  do 4 try destruct p as [p|p|];
    cbn [HexString.Raw.of_pos String.length];
    try lia;
    (etransitivity; [apply (IH p _ n); lia|]; cbn [String.length]; lia).
Qed.

Lemma repeatString_zero (k : nat) :
  String.length (JS.repeatString "0" k) = k /\
  allChars isUpperHexChar (JS.toUpperCaseAscii (JS.repeatString "0" k)) = true /\
  JS.toUpperCaseAscii (JS.repeatString "0" k) = JS.repeatString "0" k.
Proof.
  induction k as [|k (IH1 & IH2 & IH3)]; [repeat split|].
  cbn [JS.repeatString String.append String.length JS.toUpperCaseAscii
       allChars].
  rewrite IH1, IH2, IH3. repeat split.
Qed.

Lemma substring_all (s : string) :
  String.substring 0 (String.length s) s = s.
Proof.
  induction s as [|c s IH]; [reflexivity|].
  cbn [String.length String.substring]. rewrite IH. reflexivity.
Qed.

(** Padding with zeros: the missing length, filled with zeros. *)
Lemma padStart_zero (n : nat) (s : string) :
  JS.padStart n "0" s = JS.repeatString "0" (n - String.length s) ++ s.
Proof.
  unfold JS.padStart.
  pose proof (repeatString_zero (n - String.length s)) as (Hl & _).
  rewrite <- Hl at 1. rewrite substring_all. reflexivity.
Qed.

Lemma toUpperCaseAscii_app (s1 s2 : string) :
  JS.toUpperCaseAscii (s1 ++ s2)
  = JS.toUpperCaseAscii s1 ++ JS.toUpperCaseAscii s2.
Proof.
  induction s1 as [|c s1 IH]; [reflexivity|].
  cbn [String.append JS.toUpperCaseAscii]. rewrite IH. reflexivity.
Qed.

Lemma toUpperCaseAscii_length (s : string) :
  String.length (JS.toUpperCaseAscii s) = String.length s.
Proof.
  induction s as [|c s IH]; [reflexivity|].
  cbn [JS.toUpperCaseAscii String.length]. rewrite IH. reflexivity.
Qed.

Lemma upperChar_hex (c : ascii) :
  isLowerHexChar c = true -> isUpperHexChar (JS.upperChar c) = true.
Proof.
  destruct c as [[] [] [] [] [] [] [] []]; vm_compute;
    intros H; first [reflexivity | discriminate H].
Qed.

Lemma toUpperCaseAscii_hex (s : string) :
  allChars isLowerHexChar s = true ->
  allChars isUpperHexChar (JS.toUpperCaseAscii s) = true.
Proof.
  induction s as [|c s IH]; [reflexivity|].
  cbn [allChars JS.toUpperCaseAscii]. intros H.
  apply andb_true_iff in H. destruct H as [Hc Hs].
  rewrite (upperChar_hex c Hc), (IH Hs). reflexivity.
Qed.

Lemma upperChar_digit (c : ascii) :
  HexString.ascii_to_digit (JS.upperChar c) = HexString.ascii_to_digit c.
Proof.
  destruct c as [[] [] [] [] [] [] [] []]; vm_compute; reflexivity.
Qed.

Lemma to_N_upper (s : string) :
  forall acc : N,
    HexString.Raw.to_N (JS.toUpperCaseAscii s) acc = HexString.Raw.to_N s acc.
Proof.
  induction s as [|c s IH]; intros acc; [reflexivity|].
  cbn [JS.toUpperCaseAscii HexString.Raw.to_N].
  rewrite upperChar_digit. apply IH.
Qed.

Lemma to_N_zeros (k : nat) (s : string) :
  HexString.Raw.to_N (JS.repeatString "0" k ++ s) 0
  = HexString.Raw.to_N s 0.
Proof.
  induction k as [|k IH]; [reflexivity|].
  cbn [JS.repeatString String.append HexString.Raw.to_N]. exact IH.
Qed.

Lemma toString16_chars (w : Z) :
  0 <= w -> allChars isLowerHexChar (JS.toString16 w) = true.
Proof.
  intros Hw. destruct w as [|p|p]; [reflexivity | | lia].
  apply of_pos_chars. reflexivity.
Qed.

Lemma toString16_length (w : Z) (n : nat) :
  0 <= w < 16 ^ Z.of_nat (S n) ->
  (String.length (JS.toString16 w) <= S n)%nat.
Proof.
  intros Hw. destruct w as [|p|p]; [cbn; lia | | lia].
  pose proof (of_pos_length p "" (S n) (proj2 Hw)) as H.
  cbn [JS.toString16 String.length] in *. lia.
Qed.

(** X20. The text of a packed word in [0, 2^32) is exactly eight
    characters, each one of 0-9 or A-F; for a word below [2^24] (every
    word packed from 8-bit channels) the first two are zeros. *)
Theorem hexToken_shape (w : Z) :
  0 <= w < 2 ^ 32 ->
  String.length (hexToken w) = 8%nat /\
  allChars isUpperHexChar (hexToken w) = true /\
  (w < 2 ^ 24 -> exists rest, hexToken w = "00" ++ rest).
Proof.
  intros Hw. unfold hexToken. rewrite padStart_zero.
  pose proof (toString16_length w 7 ltac:(cbn; lia)) as Hlen.
  pose proof (toString16_chars w ltac:(lia)) as Hch.
  pose proof (repeatString_zero (8 - String.length (JS.toString16 w)))
    as (Hz1 & Hz2 & Hz3).
  rewrite toUpperCaseAscii_app.
  repeat split.
  - rewrite string_length_app, !toUpperCaseAscii_length, Hz1. lia.
  - rewrite allChars_app, Hz2, (toUpperCaseAscii_hex _ Hch). reflexivity.
  - intros H24.
    pose proof (toString16_length w 5 ltac:(cbn; lia)) as Hlen6.
    rewrite Hz3.
    destruct (8 - String.length (JS.toString16 w))%nat as [|[|k]] eqn:E;
      try lia.
    cbn [JS.repeatString String.append]. eexists. reflexivity.
Qed.

Lemma hexToken_shape_witness :
  String.length (hexToken 33423360) = 8%nat /\
  allChars isUpperHexChar (hexToken 33423360) = true.
Proof.
  destruct (hexToken_shape 33423360 ltac:(lia)) as (H1 & H2 & _).
  exact (conj H1 H2).
Defined.

(** X21. Reading the text of a non-negative packed word back as a
    hexadecimal numeral gives the word again, so different words never
    share a text. *)
Theorem hexToken_round_trip (w w' : Z) :
  0 <= w -> 0 <= w' ->
  Z.of_N (HexString.Raw.to_N (hexToken w) 0) = w /\
  (hexToken w = hexToken w' -> w = w').
Proof.
  assert (Hrt : forall v, 0 <= v ->
            Z.of_N (HexString.Raw.to_N (hexToken v) 0) = v).
  { intros v Hv. unfold hexToken.
    rewrite to_N_upper, padStart_zero, to_N_zeros.
    destruct v as [|p|p]; [reflexivity | | lia].
    cbn [JS.toString16]. rewrite HexString.Raw.to_N_of_pos. reflexivity. }
  intros Hw Hw'. split; [apply Hrt, Hw|].
  intros E. rewrite <- (Hrt w Hw), <- (Hrt w' Hw'), E. reflexivity.
Qed.

Lemma hexToken_round_trip_witness :
  Z.of_N (HexString.Raw.to_N (hexToken 197121) 0) = 197121.
Proof.
  destruct (hexToken_round_trip 197121 0 ltac:(lia) ltac:(lia)) as (H & _).
  exact H.
Defined.

End HexTokens.

Section ArrayLayout.

Lemma countChar_app (c : ascii) (s1 s2 : string) :
  countChar c (s1 ++ s2) = (countChar c s1 + countChar c s2)%nat.
Proof.
  induction s1 as [|d s1 IH]; [reflexivity|].
  cbn [String.append countChar]. rewrite IH. lia.
Qed.

Lemma countChar_absent (test : ascii -> bool) (c : ascii) (s : string) :
  test c = false -> allChars test s = true -> countChar c s = 0%nat.
Proof.
  intros Hc. induction s as [|d s IH]; [reflexivity|].
  cbn [allChars countChar]. intros H.
  apply andb_true_iff in H. destruct H as [Hd Hs].
  destruct (Ascii.eqb_spec c d) as [->|_]; [congruence|].
  rewrite (IH Hs). reflexivity.
Qed.

Lemma of_pos_token_chars :
  forall (p : positive) (rest : string),
    allChars isTokenChar rest = true ->
    allChars isTokenChar (HexString.Raw.of_pos p rest) = true.
Proof.
  fix IH 1. intros p rest H.
  do 4 try destruct p as [p|p|];
    cbn [HexString.Raw.of_pos];
    try (apply IH; cbn [allChars]; rewrite H; reflexivity);
    cbn [allChars]; rewrite H; reflexivity.
Qed.

Lemma upperChar_token (c : ascii) :
  isTokenChar c = true -> isTokenChar (JS.upperChar c) = true.
Proof.
  destruct c as [[] [] [] [] [] [] [] []]; vm_compute;
    intros H; first [reflexivity | discriminate H].
Qed.

Lemma hexToken_token_chars (w : Z) : allChars isTokenChar (hexToken w) = true.
Proof.
  unfold hexToken. rewrite padStart_zero, toUpperCaseAscii_app.
  rewrite allChars_app. apply andb_true_iff. split.
  - generalize (8 - String.length (JS.toString16 w))%nat. intros k.
    induction k as [|k IH]; [reflexivity|].
    cbn [JS.repeatString String.append JS.toUpperCaseAscii allChars].
    rewrite IH. reflexivity.
  - assert (H : allChars isTokenChar (JS.toString16 w) = true).
    { destruct w as [|p|p]; [reflexivity | |].
      - apply of_pos_token_chars. reflexivity.
      - cbn [JS.toString16 allChars].
        rewrite of_pos_token_chars by reflexivity. reflexivity. }
    revert H. generalize (JS.toString16 w). intros s.
    induction s as [|c s IH]; [reflexivity|].
    cbn [allChars JS.toUpperCaseAscii]. intros H.
    apply andb_true_iff in H. destruct H as [Hc Hs].
    rewrite (upperChar_token c Hc), (IH Hs). reflexivity.
Qed.

Lemma hexToken_no_separator (w : Z) :
  countChar lineFeed (hexToken w) = 0%nat /\
  countChar comma (hexToken w) = 0%nat /\
  countChar hash (hexToken w) = 0%nat.
Proof.
  repeat split;
    apply (countChar_absent isTokenChar); try reflexivity;
    apply hexToken_token_chars.
Qed.

(** Stepping a row counter: the quotient grows exactly at the multiples. *)
Lemma div_succ (j w : Z) :
  0 <= j -> 0 < w ->
  (j + 1) / w = j / w + (if (j + 1) mod w =? 0 then 1 else 0).
Proof.
  intros Hj Hw.
  destruct ((j + 1) mod w =? 0) eqn:E.
  - apply Z.eqb_eq in E. Z.to_euclidean_division_equations. nia.
  - apply Z.eqb_neq in E. Z.to_euclidean_division_equations. nia.
Qed.

Lemma row_break (j w : Z) :
  0 <= j -> 0 < w ->
  JS.eqb (JS.rem (JS.Num (j + 1)) (JS.Num w)) (JS.Num 0)
  = ((j + 1) mod w =? 0).
Proof.
  intros Hj Hw. cbn [JS.rem JS.eqb].
  replace (w =? 0) with false by (symmetry; apply Z.eqb_neq; lia).
  rewrite Z.rem_mod_nonneg by lia. reflexivity.
Qed.

(** The separators in the fixed pieces of the loop body. *)
Lemma piece_counts :
  (countChar lineFeed "    16#" = 0 /\ countChar comma "    16#" = 0
   /\ countChar hash "    16#" = 1)%nat /\
  (countChar lineFeed "        16#" = 0 /\ countChar comma "        16#" = 0
   /\ countChar hash "        16#" = 1)%nat /\
  (countChar lineFeed "," = 0 /\ countChar comma "," = 1
   /\ countChar hash "," = 0)%nat /\
  (countChar lineFeed newline = 1 /\ countChar comma newline = 0
   /\ countChar hash newline = 0)%nat /\
  (forall c, countChar c "" = 0)%nat.
Proof. repeat split. Qed.

(** Counts over the rest of the loop, from index [j] on. *)
Lemma pixelLines_counts (width : Z) (pixels : list Pixel) :
  0 < width ->
  forall j len : Z,
    0 <= j -> len = j + Z.of_nat (List.length pixels) ->
    Z.of_nat (countChar lineFeed (pixelLines width len j pixels))
      = len / width - j / width /\
    countChar comma (pixelLines width len j pixels)
      = (List.length pixels - 1)%nat /\
    countChar hash (pixelLines width len j pixels) = List.length pixels.
Proof.
  intros Hw. induction pixels as [|p rest IH]; intros j len Hj Hlen.
  - cbn [pixelLines countChar List.length Z.of_nat] in *.
    subst len. rewrite Z.add_0_r. repeat split. lia.
  - cbn [pixelLines]. cbn [List.length] in Hlen.
    destruct (IH (j + 1) len ltac:(lia) ltac:(lia)) as (IH1 & IH2 & IH3).
    destruct (hexToken_no_separator (dword p)) as (T1 & T2 & T3).
    destruct piece_counts
      as ((A1 & A2 & A3) & _ & (C1 & C2 & C3) & (N1 & N2 & N3) & E0).
    rewrite !countChar_app, T1, T2, T3, IH2, IH3, A1, A2, A3.
    rewrite row_break by lia.
    pose proof (div_succ j width Hj Hw) as Hdiv.
    cbn [List.length].
    destruct (j <? len - 1) eqn:E;
      [apply Z.ltb_lt in E | apply Z.ltb_ge in E];
      destruct ((j + 1) mod width =? 0);
      rewrite ?C1, ?C2, ?C3, ?N1, ?N2, ?N3, ?E0;
      repeat split; lia.
Qed.

Lemma pixelLinesGVL_counts (pixels : list Pixel) :
  forall j len : Z,
    0 <= j -> len = j + Z.of_nat (List.length pixels) ->
    Z.of_nat (countChar lineFeed (pixelLinesGVL len j pixels))
      = (if (0 <? Z.of_nat (List.length pixels))
         then (len - 1) / 4 - j / 4 else 0) /\
    countChar comma (pixelLinesGVL len j pixels)
      = (List.length pixels - 1)%nat /\
    countChar hash (pixelLinesGVL len j pixels) = List.length pixels.
Proof.
  induction pixels as [|p rest IH]; intros j len Hj Hlen.
  - repeat split.
  - cbn [pixelLinesGVL]. cbn [List.length] in Hlen.
    destruct (IH (j + 1) len ltac:(lia) ltac:(lia)) as (IH1 & IH2 & IH3).
    destruct (hexToken_no_separator (dword p)) as (T1 & T2 & T3).
    destruct piece_counts
      as (_ & (A1 & A2 & A3) & (C1 & C2 & C3) & (N1 & N2 & N3) & E0).
    rewrite !countChar_app, T1, T2, T3, IH2, IH3, A1, A2, A3.
    rewrite row_break by lia.
    pose proof (div_succ j 4 Hj ltac:(lia)) as Hdiv.
    replace (0 <? Z.of_nat (List.length (p :: rest))) with true
      by (symmetry; apply Z.ltb_lt; cbn [List.length]; lia).
    cbn [List.length].
    destruct (j <? len - 1) eqn:E;
      [apply Z.ltb_lt in E | apply Z.ltb_ge in E].
    + replace (0 <? Z.of_nat (List.length rest)) with true in IH1
        by (symmetry; apply Z.ltb_lt; lia).
      destruct ((j + 1) mod 4 =? 0); cbn [andb];
        rewrite ?C1, ?C2, ?C3, ?N1, ?N2, ?N3, ?E0;
        repeat split; lia.
    + replace (0 <? Z.of_nat (List.length rest)) with false in IH1
        by (symmetry; apply Z.ltb_ge; lia).
      rewrite andb_false_r, ?E0.
      replace (len - 1) with j by lia.
      repeat split; lia.
Qed.

Local Open Scope string_scope.

Lemma string_app_assoc (s1 s2 s3 : string) :
  (s1 ++ s2) ++ s3 = s1 ++ s2 ++ s3.
Proof.
  induction s1 as [|c s1 IH]; [reflexivity|].
  cbn [String.append]. now rewrite IH.
Qed.

Lemma string_app_nil_r (s : string) : s ++ "" = s.
Proof.
  induction s as [|c s IH]; [reflexivity|].
  cbn [String.append]. now rewrite IH.
Qed.

Lemma concat_cons (sep x : string) (l : list string) :
  l <> [] -> String.concat sep (x :: l) = x ++ sep ++ String.concat sep l.
Proof. destruct l; [congruence | reflexivity]. Qed.

Lemma rowText_cons (indent : string) (p q : Pixel) (row : list Pixel) :
  rowText indent (p :: q :: row)
  = wordText indent p ++ "," ++ rowText indent (q :: row).
Proof. reflexivity. Qed.

Lemma rowsText_cons (indent : string) (row : list Pixel)
      (rows : list (list Pixel)) :
  rows <> [] ->
  rowsText indent (row :: rows)
  = rowText indent row ++ ("," ++ newline) ++ rowsText indent rows.
Proof.
  intros H. unfold rowsText. cbn [map]. apply concat_cons.
  destruct rows; [congruence | discriminate].
Qed.

(** Stepping the column counter. *)
Lemma column_end (j w : Z) :
  (0 <= j -> 0 < w -> j mod w + 1 = w -> ((j + 1) mod w =? 0) = true)%Z.
Proof.
  intros Hj Hw H. apply Z.eqb_eq.
  pose proof (Z.div_mod j w ltac:(lia)) as E.
  replace (j + 1)%Z with ((j / w + 1) * w)%Z by lia.
  apply Z.mod_mul. lia.
Qed.

Lemma column_inside (j w : Z) :
  (0 <= j -> 0 < w -> j mod w + 1 < w ->
   ((j + 1) mod w =? 0) = false /\ (j + 1) mod w = j mod w + 1)%Z.
Proof.
  intros Hj Hw H.
  pose proof (Z.div_mod j w ltac:(lia)) as D.
  pose proof (Z.mod_pos_bound j w Hw) as B.
  assert (E : ((j + 1) mod w = j mod w + 1)%Z).
  { symmetry. apply Z.mod_unique with (q := (j / w)%Z); lia. }
  split; [apply Z.eqb_neq; lia | exact E].
Qed.

(** A word with its indentation holds no separator of its own. *)
Lemma wordText_no_separator (indent : string) (p : Pixel) :
  countChar comma indent = 0%nat -> countChar lineFeed indent = 0%nat ->
  countChar comma (wordText indent p) = 0%nat /\
  countChar lineFeed (wordText indent p) = 0%nat.
Proof.
  intros Hc Hl. unfold wordText.
  destruct (hexToken_no_separator (dword p)) as (T1 & T2 & _).
  rewrite !countChar_app, Hc, Hl, T1, T2. split; reflexivity.
Qed.

Lemma length_concat_rows (w : Z) (rows : list (list Pixel)) :
  Forall (fun row => Z.of_nat (List.length row) = w) rows ->
  (Z.of_nat (List.length (List.concat rows))
   = w * Z.of_nat (List.length rows))%Z.
Proof.
  induction 1 as [|row rows Hrow _ IH]; [cbn; lia|].
  cbn [List.concat List.length]. rewrite List.length_app. lia.
Qed.

(** The loop of [exportTwinCAT] over the words that complete the current
    line: they are written with commas between them, then a comma if
    anything follows, then the line feed. *)
Lemma pixelLines_row (width len : Z) (tail : list Pixel) :
  (0 < width)%Z ->
  forall (row : list Pixel) (j : Z),
    (0 <= j)%Z ->
    (j mod width + Z.of_nat (List.length row) = width)%Z ->
    (len = j + Z.of_nat (List.length row) + Z.of_nat (List.length tail))%Z ->
    pixelLines width len j (row ++ tail)
    = rowText "    " row
      ++ (match tail with [] => "" | _ :: _ => "," end)
      ++ newline
      ++ pixelLines width len (j + Z.of_nat (List.length row)) tail.
Proof.
  intros Hw. induction row as [|p row IH]; intros j Hj Hcol Hlen.
  - cbn [List.length Z.of_nat] in Hcol.
    pose proof (Z.mod_pos_bound j width Hw). lia.
  - cbn [List.app pixelLines]. rewrite row_break by lia.
    destruct row as [|q row].
    + cbn [List.length] in Hcol, Hlen |- *.
      change (Z.of_nat 1) with 1%Z in *.
      rewrite column_end by lia.
      cbn [List.app rowText map String.concat]. unfold wordText.
      rewrite ?string_app_assoc.
      destruct tail as [|t tail].
      * replace (j <? len - 1)%Z with false
          by (symmetry; apply Z.ltb_ge; cbn [List.length] in Hlen; lia).
        reflexivity.
      * replace (j <? len - 1)%Z with true
          by (symmetry; apply Z.ltb_lt; cbn [List.length] in Hlen; lia).
        reflexivity.
    + assert (Hlen2 : (2 <= Z.of_nat (List.length (p :: q :: row)))%Z)
        by (cbn [List.length]; lia).
      assert (Hs : Z.of_nat (List.length (p :: q :: row))
                   = (1 + Z.of_nat (List.length (q :: row)))%Z)
        by (cbn [List.length]; lia).
      destruct (column_inside j width Hj Hw ltac:(lia)) as [Hb Hm].
      rewrite Hb.
      replace (j <? len - 1)%Z with true
        by (symmetry; apply Z.ltb_lt; lia).
      rewrite (IH (j + 1)%Z) by lia.
      rewrite rowText_cons, Hs.
      replace (j + 1 + Z.of_nat (List.length (q :: row)))%Z
        with (j + (1 + Z.of_nat (List.length (q :: row))))%Z by lia.
      unfold wordText. rewrite ?string_app_assoc. reflexivity.
Qed.

(** The same loop over the words of a last, incomplete line: no comma
    and no line feed after the last word. *)
Lemma pixelLines_partial (width len : Z) :
  (0 < width)%Z ->
  forall (row : list Pixel) (j : Z),
    row <> [] -> (0 <= j)%Z ->
    (j mod width + Z.of_nat (List.length row) < width)%Z ->
    (len = j + Z.of_nat (List.length row))%Z ->
    pixelLines width len j row = rowText "    " row.
Proof.
  intros Hw. induction row as [|p row IH]; intros j Hne Hj Hcol Hlen;
    [congruence|].
  cbn [pixelLines]. rewrite row_break by lia.
  assert (Hs : Z.of_nat (List.length (p :: row))
               = (1 + Z.of_nat (List.length row))%Z)
    by (cbn [List.length]; lia).
  destruct (column_inside j width Hj Hw ltac:(lia)) as [Hb Hm].
  rewrite Hb.
  destruct row as [|q row].
  - replace (j <? len - 1)%Z with false
      by (symmetry; apply Z.ltb_ge; cbn [List.length] in Hs, Hlen; lia).
    cbn [pixelLines rowText map String.concat]. unfold wordText.
    rewrite ?string_app_assoc, ?string_app_nil_r. reflexivity.
  - assert (Hlen2 : (1 <= Z.of_nat (List.length (q :: row)))%Z)
      by (cbn [List.length]; lia).
    replace (j <? len - 1)%Z with true
      by (symmetry; apply Z.ltb_lt; lia).
    rewrite (IH (j + 1)%Z) by (try discriminate; lia).
    rewrite rowText_cons. unfold wordText.
    rewrite ?string_app_assoc. reflexivity.
Qed.

(** The whole loop, line by line, from the start of a line on. *)
Lemma pixelLines_rows (width : Z) (rest : list Pixel) :
  (0 < width)%Z -> (Z.of_nat (List.length rest) < width)%Z ->
  forall (rows : list (list Pixel)) (j len : Z),
    Forall (fun row => Z.of_nat (List.length row) = width) rows ->
    (0 <= j)%Z -> (j mod width = 0)%Z ->
    (len = j + Z.of_nat (List.length (List.concat rows ++ rest)))%Z ->
    (rest = [] -> rows <> [] ->
       pixelLines width len j (List.concat rows ++ rest)
       = rowsText "    " rows ++ newline) /\
    (rest <> [] ->
       pixelLines width len j (List.concat rows ++ rest)
       = rowsText "    " (rows ++ [rest])).
Proof.
  intros Hw Hrest. induction rows as [|row rows IH];
    intros j len Hrows Hj Hcol Hlen.
  - split; [congruence|]. intros Hne. cbn [List.concat List.app] in *.
    rewrite (pixelLines_partial width len Hw rest j Hne Hj) by lia.
    reflexivity.
  - apply Forall_cons_iff in Hrows. destruct Hrows as [Hrow Hrows'].
    cbn [List.concat] in *. rewrite <- List.app_assoc in *.
    rewrite List.length_app in Hlen.
    rewrite (pixelLines_row _ len _ Hw row j Hj) by lia.
    assert (Hcol' : ((j + Z.of_nat (List.length row)) mod width = 0)%Z).
    { rewrite Hrow, <- Zplus_mod_idemp_r, Z.mod_same, Z.add_0_r by lia.
      exact Hcol. }
    destruct (IH (j + Z.of_nat (List.length row))%Z len Hrows'
                ltac:(lia) Hcol' ltac:(lia)) as [IH1 IH2].
    split.
    + intros -> _. destruct rows as [|row2 rows].
      * cbn [List.concat List.app pixelLines rowsText map String.concat].
        rewrite string_app_nil_r. reflexivity.
      * rewrite (IH1 eq_refl ltac:(discriminate)).
        rewrite (rowsText_cons _ row (row2 :: rows)) by discriminate.
        apply Forall_cons_iff in Hrows'. destruct Hrows' as [Hrow2 _].
        destruct row2 as [|p2 row2];
          [cbn [List.length] in Hrow2; lia|].
        cbn [List.concat List.app].
        rewrite ?string_app_assoc. reflexivity.
    + intros Hne. rewrite (IH2 Hne).
      cbn [List.app].
      rewrite (rowsText_cons _ row (rows ++ [rest]))
        by (destruct rows; discriminate).
      destruct (List.concat rows ++ rest)%list as [|t tl] eqn:E.
      * apply List.app_eq_nil in E. destruct E as [_ E]. congruence.
      * rewrite ?string_app_assoc. reflexivity.
Qed.

(** X22. The array literal of a frame written by [exportTwinCAT] (and
    by the single image export, whose loop is the same), line by line,
    for a positive row width.  A frame made of complete rows is written
    as one line per row: on every line the words of the row, each one
    [16#] and eight hex digits behind four spaces, with a comma between
    neighbours; a comma and a line feed between a line and the next; a
    line feed and no comma after the last word.  When an incomplete row
    follows, it forms a last line that ends with its last word.  The
    words hold no comma or line feed of their own, and a frame of
    complete rows takes as many lines as it has rows. *)
Theorem frameArrayBody_rows
  (width : Z) (rows : list (list Pixel)) (rest : list Pixel) :
  (0 < width)%Z ->
  Forall (fun row => Z.of_nat (List.length row) = width) rows ->
  (Z.of_nat (List.length rest) < width)%Z ->
  (rows <> [] ->
     frameArrayBody width (List.concat rows)
     = rowsText "    " rows ++ newline) /\
  (rest <> [] ->
     frameArrayBody width (List.concat rows ++ rest)
     = rowsText "    " (rows ++ [rest])) /\
  frameArrayBody width [] = "" /\
  (forall p, countChar comma (wordText "    " p) = 0%nat /\
             countChar lineFeed (wordText "    " p) = 0%nat) /\
  countChar lineFeed (frameArrayBody width (List.concat rows))
  = List.length rows.
Proof.
  intros Hw Hrows Hrest. unfold frameArrayBody.
  split; [|split; [|split; [|split]]].
  - intros Hne.
    destruct (pixelLines_rows width [] Hw ltac:(cbn; lia) rows 0
                (Z.of_nat (List.length (List.concat rows ++ [])))
                Hrows ltac:(lia) ltac:(apply Z.mod_0_l; lia) ltac:(lia))
      as [H _].
    rewrite List.app_nil_r in H. apply H; [reflexivity | exact Hne].
  - intros Hne.
    destruct (pixelLines_rows width rest Hw Hrest rows 0
                (Z.of_nat (List.length (List.concat rows ++ rest)))
                Hrows ltac:(lia) ltac:(apply Z.mod_0_l; lia) ltac:(lia))
      as [_ H].
    apply H, Hne.
  - reflexivity.
  - intros p. apply wordText_no_separator; reflexivity.
  - destruct (pixelLines_counts width (List.concat rows) Hw 0
                (Z.of_nat (List.length (List.concat rows)))
                ltac:(lia) ltac:(lia)) as (H1 & _).
    assert (E : (Z.of_nat (List.length (List.concat rows)) / width
                 = Z.of_nat (List.length rows))%Z).
    { rewrite (length_concat_rows width rows Hrows), Z.mul_comm, Z.div_mul
        by lia. reflexivity. }
    rewrite Z.div_0_l, Z.sub_0_r, E in H1 by lia.
    apply Nat2Z.inj. exact H1.
Qed.

Lemma frameArrayBody_rows_witness :
  frameArrayBody 2 (List.concat
                      [[toPixel 1 0 0 255; toPixel 2 0 0 255];
                       [toPixel 3 0 0 255; toPixel 4 0 0 255]])
  = "    16#00000001,    16#00000002," ++ newline
    ++ "    16#00000003,    16#00000004" ++ newline.
Proof.
  destruct (frameArrayBody_rows 2
              [[toPixel 1 0 0 255; toPixel 2 0 0 255];
               [toPixel 3 0 0 255; toPixel 4 0 0 255]] []
              ltac:(lia) ltac:(repeat constructor) ltac:(cbn; lia))
    as (H & _).
  rewrite (H ltac:(discriminate)). reflexivity.
Defined.

(** The loop of [exportTcGVL] over the words that complete a line of
    four, when more words follow. *)
Lemma pixelLinesGVL_row (len : Z) (tail : list Pixel) :
  tail <> [] ->
  forall (row : list Pixel) (j : Z),
    (0 <= j)%Z ->
    (j mod 4 + Z.of_nat (List.length row) = 4)%Z ->
    (len = j + Z.of_nat (List.length row) + Z.of_nat (List.length tail))%Z ->
    pixelLinesGVL len j (row ++ tail)
    = rowText "        " row ++ "," ++ newline
      ++ pixelLinesGVL len (j + Z.of_nat (List.length row)) tail.
Proof.
  intros Htail.
  assert (Ht : (1 <= Z.of_nat (List.length tail))%Z)
    by (destruct tail; [congruence | cbn [List.length]; lia]).
  induction row as [|p row IH]; intros j Hj Hcol Hlen.
  - cbn [List.length Z.of_nat] in Hcol.
    pose proof (Z.mod_pos_bound j 4 ltac:(lia)). lia.
  - cbn [List.app pixelLinesGVL]. rewrite row_break by lia.
    assert (Hs : Z.of_nat (List.length (p :: row))
                 = (1 + Z.of_nat (List.length row))%Z)
      by (cbn [List.length]; lia).
    replace (j <? len - 1)%Z with true
      by (symmetry; apply Z.ltb_lt; lia).
    destruct row as [|q row].
    + cbn [List.length] in Hs, Hcol |- *.
      change (Z.of_nat 1) with 1%Z in *.
      rewrite column_end by lia.
      cbn [andb List.app rowText map String.concat]. unfold wordText.
      rewrite ?string_app_assoc. reflexivity.
    + assert (Hlen2 : (1 <= Z.of_nat (List.length (q :: row)))%Z)
        by (cbn [List.length]; lia).
      destruct (column_inside j 4 Hj ltac:(lia) ltac:(lia)) as [Hb Hm].
      rewrite Hb. cbn [andb].
      rewrite (IH (j + 1)%Z) by lia.
      rewrite rowText_cons, Hs.
      replace (j + 1 + Z.of_nat (List.length (q :: row)))%Z
        with (j + (1 + Z.of_nat (List.length (q :: row))))%Z by lia.
      unfold wordText. rewrite ?string_app_assoc. reflexivity.
Qed.

(** The same loop over the words of the last line: no comma and no line
    feed after the last word, even when it is the fourth of its line. *)
Lemma pixelLinesGVL_last (len : Z) :
  forall (row : list Pixel) (j : Z),
    row <> [] -> (0 <= j)%Z ->
    (j mod 4 + Z.of_nat (List.length row) <= 4)%Z ->
    (len = j + Z.of_nat (List.length row))%Z ->
    pixelLinesGVL len j row = rowText "        " row.
Proof.
  induction row as [|p row IH]; intros j Hne Hj Hcol Hlen; [congruence|].
  cbn [pixelLinesGVL]. rewrite row_break by lia.
  assert (Hs : Z.of_nat (List.length (p :: row))
               = (1 + Z.of_nat (List.length row))%Z)
    by (cbn [List.length]; lia).
  destruct row as [|q row].
  - replace (j <? len - 1)%Z with false
      by (symmetry; apply Z.ltb_ge; cbn [List.length] in Hs, Hlen; lia).
    rewrite andb_false_r.
    cbn [pixelLinesGVL rowText map String.concat]. unfold wordText.
    rewrite ?string_app_assoc, ?string_app_nil_r. reflexivity.
  - assert (Hlen2 : (1 <= Z.of_nat (List.length (q :: row)))%Z)
      by (cbn [List.length]; lia).
    replace (j <? len - 1)%Z with true
      by (symmetry; apply Z.ltb_lt; lia).
    destruct (column_inside j 4 Hj ltac:(lia) ltac:(lia)) as [Hb Hm].
    rewrite Hb. cbn [andb].
    rewrite (IH (j + 1)%Z) by (try discriminate; lia).
    rewrite rowText_cons. unfold wordText.
    rewrite ?string_app_assoc. reflexivity.
Qed.

Lemma pixelLinesGVL_rows (last : list Pixel) :
  last <> [] -> (Z.of_nat (List.length last) <= 4)%Z ->
  forall (rows : list (list Pixel)) (j len : Z),
    Forall (fun row => Z.of_nat (List.length row) = 4%Z) rows ->
    (0 <= j)%Z -> (j mod 4 = 0)%Z ->
    (len = j + Z.of_nat (List.length (List.concat rows ++ last)))%Z ->
    pixelLinesGVL len j (List.concat rows ++ last)
    = rowsText "        " (rows ++ [last]).
Proof.
  intros Hne Hlast. induction rows as [|row rows IH];
    intros j len Hrows Hj Hcol Hlen.
  - cbn [List.concat List.app] in *.
    rewrite (pixelLinesGVL_last len last j Hne Hj) by lia. reflexivity.
  - apply Forall_cons_iff in Hrows. destruct Hrows as [Hrow Hrows'].
    cbn [List.concat] in *. rewrite <- List.app_assoc in *.
    rewrite List.length_app in Hlen.
    rewrite (pixelLinesGVL_row len (List.concat rows ++ last)) by
      (try lia; intros E; apply List.app_eq_nil in E; destruct E; congruence).
    rewrite (IH (j + Z.of_nat (List.length row))%Z len Hrows')
      by (try lia;
          rewrite Hrow, <- Zplus_mod_idemp_r; cbn [Z.modulo Z.div_eucl];
          rewrite Z.add_0_r; exact Hcol).
    cbn [List.app].
    rewrite (rowsText_cons _ row (rows ++ [last]))
      by (destruct rows; discriminate).
    rewrite ?string_app_assoc. reflexivity.
Qed.

(** X23. The array literal written by [exportTcGVL] for a non-empty
    frame, line by line: the words, each one [16#] and eight hex digits
    behind eight spaces, stand four to a line with a comma between
    neighbours; a comma and a line feed separate a line from the next;
    the last line holds the one to four words that remain and ends with
    its last word, without comma or line feed.  The words hold no comma
    or line feed of their own, so the line feeds number
    [(length - 1) / 4]. *)
Theorem frameArrayBodyGVL_rows
  (rows : list (list Pixel)) (last : list Pixel) :
  Forall (fun row => Z.of_nat (List.length row) = 4%Z) rows ->
  last <> [] -> (Z.of_nat (List.length last) <= 4)%Z ->
  frameArrayBodyGVL (List.concat rows ++ last)
  = rowsText "        " (rows ++ [last]) /\
  (forall p, countChar comma (wordText "        " p) = 0%nat /\
             countChar lineFeed (wordText "        " p) = 0%nat) /\
  countChar lineFeed (frameArrayBodyGVL (List.concat rows ++ last))
  = List.length rows.
Proof.
  intros Hrows Hne Hlast. unfold frameArrayBodyGVL.
  assert (Hl : (1 <= Z.of_nat (List.length last))%Z)
    by (destruct last; [congruence | cbn [List.length]; lia]).
  split; [|split].
  - apply (pixelLinesGVL_rows last Hne Hlast rows 0); try assumption; try lia.
    reflexivity.
  - intros p. apply wordText_no_separator; reflexivity.
  - destruct (pixelLinesGVL_counts (List.concat rows ++ last) 0
                (Z.of_nat (List.length (List.concat rows ++ last)))
                ltac:(lia) ltac:(lia)) as (H1 & _).
    assert (HL : (Z.of_nat (List.length (List.concat rows ++ last))
                  = 4 * Z.of_nat (List.length rows)
                    + Z.of_nat (List.length last))%Z).
    { rewrite List.length_app, Nat2Z.inj_add.
      rewrite (length_concat_rows 4 rows Hrows). reflexivity. }
    replace (0 <? Z.of_nat (List.length (List.concat rows ++ last)))%Z
      with true in H1 by (symmetry; apply Z.ltb_lt; lia).
    assert (E : ((Z.of_nat (List.length (List.concat rows ++ last)) - 1) / 4
                 = Z.of_nat (List.length rows))%Z).
    { rewrite HL. Z.to_euclidean_division_equations. lia. }
    rewrite Z.div_0_l, Z.sub_0_r, E in H1 by lia.
    apply Nat2Z.inj. exact H1.
Qed.

Lemma frameArrayBodyGVL_rows_witness :
  frameArrayBodyGVL (List.concat [repeat (toPixel 1 0 0 255) 4]
                     ++ [toPixel 2 0 0 255])
  = "        16#00000001,        16#00000001,"
    ++ "        16#00000001,        16#00000001," ++ newline
    ++ "        16#00000002".
Proof.
  destruct (frameArrayBodyGVL_rows [repeat (toPixel 1 0 0 255) 4]
              [toPixel 2 0 0 255]
              ltac:(repeat constructor) ltac:(discriminate)
              ltac:(cbn; lia))
    as (H & _).
  rewrite H. reflexivity.
Defined.

End ArrayLayout.

Section MemoryUsage.

(** X24. When every frame holds [width * height] pixels, the byte total
    of [calculateMemoryUsage] is four bytes for each pixel word the
    exports write, and the report warns exactly when those words number
    more than 2621440 (10 MiB). *)
Theorem calculateMemoryUsage_counts_words
  (frames : list Frame) (width height : Z) :
  Forall (fun fr => Z.of_nat (List.length (pixels (pixelData fr)))
                    = width * height) frames ->
  let usage := calculateMemoryUsage frames width height in
  let words :=
    Z.of_nat (List.length
                (List.concat (map (fun fr => pixels (pixelData fr)) frames))) in
  totalBytes usage = 4 * words /\
  totalBytes usage = bytesPerFrame usage * totalFrames usage /\
  (forall fr brightness, In fr frames ->
     4 * Z.of_nat (List.length (applyBrightness (pixelData fr) brightness))
     = bytesPerFrame usage) /\
  (memoryWarning usage = true <-> 2621440 < words).
Proof.
  intros Hall usage words. subst usage words.
  unfold calculateMemoryUsage, memoryWarning.
  cbn [totalBytes bytesPerFrame totalFrames].
  assert (Hsum :
    Z.of_nat (List.length
                (List.concat (map (fun fr => pixels (pixelData fr)) frames)))
    = width * height * Z.of_nat (List.length frames)).
  { induction Hall as [|fr frames Hfr _ IH]; [cbn; lia|].
    cbn [map List.concat List.length]. rewrite List.length_app, Nat2Z.inj_add.
    rewrite IH, Hfr. lia. }
  rewrite Hsum.
  split; [lia|]. split; [lia|]. split; [|split].
  - intros fr brightness Hin.
    rewrite applyBrightness_map, length_map.
    rewrite Forall_forall in Hall. rewrite (Hall fr Hin). lia.
  - intros H. apply Z.ltb_lt in H. lia.
  - intros H. apply Z.ltb_lt. lia.
Qed.

Lemma calculateMemoryUsage_counts_words_witness :
  totalBytes (calculateMemoryUsage [frame4x4; frame4x4] 4 4) = 4 * 32.
Proof.
  destruct (calculateMemoryUsage_counts_words [frame4x4; frame4x4] 4 4)
    as (H & _).
  - repeat constructor.
  - exact H.
Defined.

End MemoryUsage.

Import FrameManager.

Section Teardown.

Context {Frame : Type}.
Implicit Types s : State Frame.

(** X25. [destroy] leaves a manager with no frames, stopped and with no
    live interval; until new frames are set it stays that way: [play]
    and [previousFrame] change nothing, and a tick registers no
    interval. *)
Theorem destroy_is_final s :
  reachable s ->
  let d := destroy s in
  frames (fields d) = [] /\
  playing (fields d) = false /\
  timers (env d) = [] /\
  play d = d /\
  timers (env (advanceFrame d)) = [] /\
  playing (fields (advanceFrame d)) = false.
Proof.
  intros Hr d.
  assert (Hd : reachable d) by (apply (reachable_run call_destroy), Hr).
  pose proof (reachable_timerInvariant d Hd) as Hinv.
  assert (Hfr : frames (fields d) = []).
  { subst d. unfold destroy. destruct (stop s) as [[] ?]. reflexivity. }
  assert (Hp : playing (fields d) = false).
  { subst d. unfold destroy.
    pose proof (stop_fields s) as [Hs _].
    destruct (stop s) as [[] ?]. exact Hs. }
  assert (Ht : timers (env d) = []).
  { destruct Hinv as [_ H]. rewrite Hp in H. exact H. }
  split; [exact Hfr|]. split; [exact Hp|]. split; [exact Ht|].
  split; [apply play_noop; right; exact Hfr|].
  pose proof (timerInvariant_advanceFrame d Hinv) as [_ Ha].
  pose proof (playingHasFrames_advanceFrame d
                (reachable_playingHasFrames d Hd)) as Hpa.
  unfold playingHasFrames in Hpa.
  destruct (playing (fields (advanceFrame d))) eqn:E.
  - exfalso. specialize (Hpa eq_refl).
    assert (frameCount (advanceFrame d) = 0); [|lia].
    unfold frameCount.
    assert (Hsame : frames (fields (advanceFrame d)) = frames (fields d)).
    { clear. destruct d as [[fr cur f lm pl dir tm] e].
      unfold advanceFrame. cbn [fields fst loopMode].
      destruct (String.eqb lm "loop"); [reflexivity|].
      destruct (String.eqb lm "once").
      - destruct (JS.lt _ _); [reflexivity|].
        pose proof (stop_view (mkFields fr cur f lm pl dir tm, e)) as Hv.
        unfold navView in Hv. injection Hv as Hv _ _.
        cbn [emit fields fst]. exact Hv.
      - destruct (String.eqb lm "pingpong"); [|reflexivity].
        destruct (JS.ge _ _); [reflexivity|].
        destruct (JS.le _ _); reflexivity. }
    rewrite Hsame, Hfr. reflexivity.
  - split; [exact Ha | reflexivity].
Qed.

End Teardown.

Lemma destroy_is_final_witness :
  frames (fields (destroy playing2)) = [] /\
  timers (env (destroy playing2)) = [].
Proof.
  assert (Hr : reachable playing2).
  { apply (reachable_run call_play), (reachable_run (call_setFrames [tt; tt])),
      reachable_init. }
  destruct (destroy_is_final playing2 Hr) as (H1 & _ & H3 & _).
  exact (conj H1 H3).
Defined.
